(** * SeedForge: a shallow embedding of the generator core

    The development follows [src/seedforge.js]: the seed hashes, the six
    bit-generators, the [PRNG] facade with its state protocol, and the two
    noise fields.

    Number model.  JavaScript numbers that the code keeps integral (state
    words, seeds, counters, table indices) are values of [Z]; the coercions
    [ToInt32] and [ToUint32] and the rounding of an integral double to a
    53-bit significand ([fl53]) are written out.  Numbers that are genuinely
    fractional (the results of [random], the arguments of [int], noise
    coordinates) are exact rationals of [Q]: every finite double is such a
    rational, and the model computes on them without rounding.  NaN and the
    infinities are not represented there.  The exact model agrees with the
    code where every operation of the code is exact, which the statements
    say by bounds on their arguments.  Where rounding, overflow or NaN
    decide a property, the methods concerned ([random], [float], [int] and
    the value noise) are written a second time on binary64 numbers
    ([PRNG64], [ValueNoise64]). *)

From Stdlib Require Import Floats ZArith QArith Qround Lia Lqa Bool Ascii String DecimalString.
From Stdlib Require HexadecimalString.
From stdpp Require Import base option list strings gmap.

#[local] Open Scope Z_scope.

(** A decimal literal of a double denotes the nearest double, as in the
    source. *)
#[local] Set Warnings "-inexact-float".

(** ** JavaScript integer arithmetic *)

Module JS.

Definition two32 : Z := 4294967296.
Definition two31 : Z := 2147483648.
Definition two53 : Z := 9007199254740992.

(** [x >>> 0] *)
Definition ToUint32 (x : Z) : Z := x mod two32.

(** [x | 0] *)
Definition ToInt32 (x : Z) : Z :=
  let u := x mod two32 in if u <? two31 then u else u - two32.

(** Rounding of an integer to the nearest double, ties to even.  Every
    integer below [2^53] in magnitude is a double. *)
Definition fl53 (z : Z) : Z :=
  let a := Z.abs z in
  if a <? two53 then z
  else
    let e := Z.log2 a - 52 in
    let q := a / 2 ^ e in
    let r := a mod 2 ^ e in
    let h := 2 ^ (e - 1) in
    let q' := if r <? h then q
              else if h <? r then q + 1
              else if Z.even q then q else q + 1 in
    Z.sgn z * (q' * 2 ^ e).

(** [a + b] and [a * b] on integral doubles *)
Definition add (a b : Z) : Z := fl53 (a + b).
Definition mul (a b : Z) : Z := fl53 (a * b).

(** [a ^ b], [a | b], [a & b]: both operands through [ToInt32] *)
Definition xor (a b : Z) : Z := Z.lxor (ToInt32 a) (ToInt32 b).
Definition or (a b : Z) : Z := Z.lor (ToInt32 a) (ToInt32 b).
Definition and (a b : Z) : Z := Z.land (ToInt32 a) (ToInt32 b).

(** [a << k]: the count is taken modulo 32, the result is an int32 *)
Definition shl (a k : Z) : Z := ToInt32 (Z.shiftl (ToInt32 a) (k mod 32)).

(** [a >>> k]: the operand through [ToUint32], the result is a uint32 *)
Definition shr (a k : Z) : Z := Z.shiftr (ToUint32 a) (k mod 32).

(** [Math.imul(a, b)] *)
Definition imul (a b : Z) : Z := ToInt32 (ToInt32 a * ToInt32 b).

(** [s.charCodeAt(i)] for every index of [s], in order *)
Definition charCodes (s : string) : list Z :=
  map (fun c => Z.of_N (N_of_ascii c)) (list_ascii_of_string s).

(** [String(n)] for an integer [n] (decimal notation; JavaScript switches
    to exponent notation from [10^21] on, which is outside the model) *)
Definition String_of_int (n : Z) : string := NilZero.string_of_int (Z.to_int n).

(** One character of [s.toLowerCase()], on the code units 0..255 that
    [string] holds: A-Z and the Latin-1 capitals move by 32. *)
Definition lower_ascii (c : ascii) : ascii :=
  let n := N_of_ascii c in
  if ((65 <=? n) && (n <=? 90))%N
     || ((192 <=? n) && (n <=? 222) && negb (n =? 215))%N
  then ascii_of_N (n + 32) else c.

Fixpoint toLowerCase (s : string) : string :=
  match s with
  | EmptyString => EmptyString
  | String c r => String (lower_ascii c) (toLowerCase r)
  end.

(** [n.toString(16)] for an integer [n]: lower-case digits, a minus sign
    for a negative number *)
Definition toString16 (n : Z) : string :=
  HexadecimalString.NilZero.string_of_int (Z.to_hex_int n).

(** [s.padStart(n, '0')] *)
Definition padStart0 (n : nat) (s : string) : string :=
  String.append (string_of_list_ascii (replicate (n - String.length s) "0"%char)) s.

End JS.

(** ** Seeding utilities *)

(** A seed is a string or an integer. *)
Inductive Seed : Type :=
| SeedStr (s : string)
| SeedNum (n : Z).

(** [stringToSeed]: the body of the loop, [hash = ((hash << 5) - hash) + char]
    followed by [hash = hash & hash]. *)
Definition stringToSeed_step (hash char : Z) : Z :=
  let hash := (JS.shl hash 5 - hash) + char in
  JS.and hash hash.

Definition stringToSeed (str : string) : Z :=
  if Nat.eqb (String.length str) 0 then 0
  else JS.ToUint32 (fold_left stringToSeed_step (JS.charCodes str) 0).

(** [cyrb128]: one round of the mixing loop.  The assignments are
    sequential: [h4] reads the new [h1]. *)
Definition cyrb128_step (h : Z * Z * Z * Z) (k : Z) : Z * Z * Z * Z :=
  let '(h1, h2, h3, h4) := h in
  let h1 := JS.xor h2 (JS.imul (JS.xor h1 k) 597399067) in
  let h2 := JS.xor h3 (JS.imul (JS.xor h2 k) 2869860233) in
  let h3 := JS.xor h4 (JS.imul (JS.xor h3 k) 951274213) in
  let h4 := JS.xor h1 (JS.imul (JS.xor h4 k) 2716044179) in
  (h1, h2, h3, h4).

Definition cyrb128 (str : string) : list Z :=
  let '(h1, h2, h3, h4) :=
    fold_left cyrb128_step (JS.charCodes str)
              (1779033703, 3144134277, 1013904242, 2773480762) in
  let h1 := JS.imul (JS.xor h3 (JS.shr h1 18)) 597399067 in
  let h2 := JS.imul (JS.xor h4 (JS.shr h2 22)) 2869860233 in
  let h3 := JS.imul (JS.xor h1 (JS.shr h3 17)) 951274213 in
  let h4 := JS.imul (JS.xor h2 (JS.shr h4 19)) 2716044179 in
  let h1 := JS.xor h1 (JS.xor (JS.xor h2 h3) h4) in
  let h2 := JS.xor h2 h1 in
  let h3 := JS.xor h3 h1 in
  let h4 := JS.xor h4 h1 in
  [JS.ToUint32 h1; JS.ToUint32 h2; JS.ToUint32 h3; JS.ToUint32 h4].

(** [typeof seed === 'string' ? stringToSeed(seed) : seed >>> 0] *)
Definition numSeed (seed : Seed) : Z :=
  match seed with
  | SeedStr s => stringToSeed s
  | SeedNum n => JS.ToUint32 n
  end.

(** [typeof seed === 'string' ? seed : String(seed)] *)
Definition seedStr (seed : Seed) : string :=
  match seed with
  | SeedStr s => s
  | SeedNum n => JS.String_of_int n
  end.

(** ** Saved generator states

    What [getState] of a bit-generator returns is a plain object.  Its
    properties are the ones below; a property that an object does not have
    reads as [undefined], which is [None] here.  Every snapshot of the six
    generators, and every object that mixes or drops their properties, is a
    value of this type.  An object with other properties (a [name], say),
    or one whose [s] is not an array of integers, is not: what the code does
    with such an object is outside the model. *)
Record Obj : Type := mkObj {
  o_state : option Z;
  o_seed : option Z;
  o_a : option Z;
  o_b : option Z;
  o_c : option Z;
  o_m : option Z;
  o_counter : option Z;
  o_s : option (list Z);
  o_originalSeed : option Seed;
  o_stateHi : option Z;
  o_stateLo : option Z;
  o_incHi : option Z;
  o_incLo : option Z;
  o_originalSequence : option Z
}.

Definition emptyObj : Obj :=
  mkObj None None None None None None None None None None None None None None.

(** The outcome of a [setState]: the fields were restored, or the call
    returned normally but left [undefined] in a field it copies, or it
    threw. *)
Inductive SetState (A : Type) : Type :=
| Restored (a : A)
| LeftUndefined
| Rejected (msg : string).
Arguments Restored {A} a.
Arguments LeftUndefined {A}.
Arguments Rejected {A} msg.

(** ** The bit-generators *)

(** *** Mulberry32 *)
Module Mulberry32.

Record t : Type := mk { seed : Z; state : Z }.

Definition name : string := "mulberry32".

Definition new (sd : Seed) : t :=
  let seed := numSeed sd in
  mk seed seed.

(** The state is a plain number: [this.state += 0x6D2B79F5] is a double
    addition, only the mixing reads it through 32-bit coercions. *)
Definition nextInt (g : t) : Z * t :=
  let t0 := JS.add (state g) 1831565813 in
  let t1 := JS.imul (JS.xor t0 (JS.shr t0 15)) (JS.or t0 1) in
  let t2 := JS.xor t1 (t1 + JS.imul (JS.xor t1 (JS.shr t1 7)) (JS.or t1 61)) in
  (JS.ToUint32 (JS.xor t2 (JS.shr t2 14)), mk (seed g) t0).

Definition next (g : t) : Q * t :=
  let '(n, g') := nextInt g in (inject_Z n / inject_Z JS.two32, g')%Q.

Definition getState (g : t) : Obj :=
  mkObj (Some (state g)) (Some (seed g)) None None None None None None None
        None None None None None.

Definition setState (g : t) (saved : Obj) : SetState t :=
  match o_state saved, o_seed saved with
  | Some st, Some sd => Restored (mk sd st)
  | _, _ => LeftUndefined
  end.

Definition reset (g : t) : t := mk (seed g) (seed g).

Definition clone (g : t) : t :=
  let cloned := new (SeedNum (seed g)) in
  mk (seed cloned) (state g).

End Mulberry32.

(** *** Typed arrays

    [new Uint32Array(xs)] coerces every element; a read outside the array is
    [undefined], which every bitwise operator turns into 0; a write outside
    the array is ignored and a write inside it coerces the value. *)
Definition Uint32Array (xs : list Z) : list Z := map JS.ToUint32 xs.

Definition u32_get (s : list Z) (i : nat) : Z := default 0 (s !! i).

Definition u32_set (s : list Z) (i : nat) (v : Z) : list Z :=
  <[i := JS.ToUint32 v]> s.

(** *** Xoshiro128** *)
Module Xoshiro128SS.

Record t : Type := mk { originalSeed : Seed; s : list Z }.

Definition name : string := "xoshiro128**".

Definition new (sd : Seed) : t := mk sd (Uint32Array (cyrb128 (seedStr sd))).

Definition _rotl (x k : Z) : Z := JS.or (JS.shl x k) (JS.shr x (32 - k)).

Definition nextInt (g : t) : Z * t :=
  let s0 := s g in
  let result := JS.ToUint32 (JS.imul (_rotl (JS.imul (u32_get s0 1) 5) 7) 9) in
  let t := JS.shl (u32_get s0 1) 9 in
  let s1 := u32_set s0 2 (JS.xor (u32_get s0 2) (u32_get s0 0)) in
  let s2 := u32_set s1 3 (JS.xor (u32_get s1 3) (u32_get s1 1)) in
  let s3 := u32_set s2 1 (JS.xor (u32_get s2 1) (u32_get s2 2)) in
  let s4 := u32_set s3 0 (JS.xor (u32_get s3 0) (u32_get s3 3)) in
  let s5 := u32_set s4 2 (JS.xor (u32_get s4 2) t) in
  let s6 := u32_set s5 3 (_rotl (u32_get s5 3) 11) in
  (result, mk (originalSeed g) s6).

Definition next (g : t) : Q * t :=
  let '(n, g') := nextInt g in (inject_Z n / inject_Z JS.two32, g')%Q.

Definition getState (g : t) : Obj :=
  mkObj None None None None None None None (Some (s g)) (Some (originalSeed g))
        None None None None None.

Definition setState (g : t) (saved : Obj) : SetState t :=
  match o_s saved, o_originalSeed saved with
  | Some ws, Some sd => Restored (mk sd (Uint32Array ws))
  | _, _ => LeftUndefined
  end.

Definition reset (g : t) : t :=
  mk (originalSeed g) (Uint32Array (cyrb128 (seedStr (originalSeed g)))).

Definition clone (g : t) : t :=
  let cloned := new (originalSeed g) in
  mk (originalSeed cloned) (Uint32Array (s g)).

End Xoshiro128SS.

(** *** Xorshift128 (32-bit words) *)
Module Xorshift128Plus.

Record t : Type := mk { originalSeed : Seed; s : list Z }.

Definition name : string := "xorshift128+".

Definition new (sd : Seed) : t := mk sd (Uint32Array (cyrb128 (seedStr sd))).

(** The update shared by [next] and [nextInt]. *)
Definition step (g : t) : t :=
  let s0 := s g in
  let t0 := u32_get s0 3 in
  let w := u32_get s0 0 in
  let s1 := u32_set s0 3 (u32_get s0 2) in
  let s2 := u32_set s1 2 (u32_get s1 1) in
  let s3 := u32_set s2 1 w in
  let t1 := JS.xor t0 (JS.shl t0 11) in
  let t2 := JS.xor t1 (JS.shr t1 8) in
  let s4 := u32_set s3 0 (JS.xor (JS.xor t2 w) (JS.shr w 19)) in
  mk (originalSeed g) s4.

Definition nextInt (g : t) : Z * t :=
  let g' := step g in (JS.ToUint32 (u32_get (s g') 0), g').

(** In a state without words, which only [setState] with an empty [s]
    installs, [this.s[0]] is [undefined] and the code returns NaN; the
    exact model reads 0 there ([PRNG64.next] has the NaN). *)
Definition next (g : t) : Q * t :=
  let g' := step g in (inject_Z (u32_get (s g') 0) / inject_Z JS.two32, g')%Q.

Definition getState (g : t) : Obj :=
  mkObj None None None None None None None (Some (s g)) (Some (originalSeed g))
        None None None None None.

Definition setState (g : t) (saved : Obj) : SetState t :=
  match o_s saved, o_originalSeed saved with
  | Some ws, Some sd => Restored (mk sd (Uint32Array ws))
  | _, _ => LeftUndefined
  end.

Definition reset (g : t) : t :=
  mk (originalSeed g) (Uint32Array (cyrb128 (seedStr (originalSeed g)))).

Definition clone (g : t) : t :=
  let cloned := new (originalSeed g) in
  mk (originalSeed cloned) (Uint32Array (s g)).

End Xorshift128Plus.

(** *** PCG32 on 32-bit halves *)
Module PCG32.

Record t : Type := mk {
  originalSeed : Seed;
  originalSequence : Z;
  stateHi : Z;
  stateLo : Z;
  incHi : Z;
  incLo : Z
}.

Definition name : string := "pcg32".

Definition with_state (g : t) (hi lo : Z) : t :=
  mk (originalSeed g) (originalSequence g) hi lo (incHi g) (incLo g).

Definition _add64 (g : t) (lo hi : Z) : t :=
  let newLo := JS.ToUint32 (JS.add (stateLo g) lo) in
  let carry := if newLo <? stateLo g then 1 else 0 in
  with_state g (JS.ToUint32 (JS.add (JS.add (stateHi g) hi) carry)) newLo.

Definition multHi : Z := 1481765933.
Definition multLo : Z := 1284865837.

(** The products of 16-bit halves are exact; the cross terms
    [stateLo * multHi + stateHi * multLo] are double products and a double
    sum, rounded before [>>> 0] is applied. *)
Definition _multiply (g : t) : t :=
  let a := JS.shr (stateLo g) 16 in
  let b := JS.and (stateLo g) 65535 in
  let c := JS.shr multLo 16 in
  let d := JS.and multLo 65535 in
  let low := JS.mul b d in
  let mid1 := JS.mul a d in
  let mid2 := JS.mul b c in
  let high := JS.mul a c in
  let mid1 := JS.add mid1 (JS.shr low 16) in
  let mid1 := JS.add mid1 mid2 in
  let high := if mid1 <? mid2 then JS.add high 65536 else high in
  let newLo := JS.or (JS.and low 65535) (JS.shl (JS.and mid1 65535) 16) in
  let newHi := JS.add high (JS.shr mid1 16) in
  let crossHi :=
    JS.ToUint32 (JS.add (JS.mul (stateLo g) multHi) (JS.mul (stateHi g) multLo)) in
  with_state g (JS.ToUint32 (JS.add newHi crossHi)) (JS.ToUint32 newLo).

Definition nextInt (g : t) : Z * t :=
  let oldHi := stateHi g in
  let oldLo := stateLo g in
  let g1 := _multiply g in
  let g2 := _add64 g1 (incLo g1) (incHi g1) in
  let xorshifted :=
    JS.xor (JS.shr (JS.xor (JS.shr oldHi 18) oldHi) 27) (JS.shr oldLo 27) in
  let rot := JS.shr oldHi 27 in
  (JS.ToUint32 (JS.or (JS.shr xorshifted rot) (JS.shl xorshifted (JS.and (- rot) 31))),
   g2).

Definition next (g : t) : Q * t :=
  let '(n, g') := nextInt g in (inject_Z n / inject_Z JS.two32, g')%Q.

(** The seeding shared by the constructor and [reset]: zero state, the
    increment from the sequence, and the warm-up
    [nextInt(); _add64(numSeed, 0); nextInt()]. *)
Definition seeded (sd : Seed) (sequence : Z) : t :=
  let g0 := mk sd sequence 0 0 0 (JS.or (JS.shl sequence 1) 1) in
  let g1 := snd (nextInt g0) in
  let g2 := _add64 g1 (numSeed sd) 0 in
  snd (nextInt g2).

Definition new (sd : Seed) (sequence : Z) : t := seeded sd sequence.

Definition getState (g : t) : Obj :=
  mkObj None None None None None None None None (Some (originalSeed g))
        (Some (stateHi g)) (Some (stateLo g)) (Some (incHi g)) (Some (incLo g))
        (Some (originalSequence g)).

Definition setState (g : t) (saved : Obj) : SetState t :=
  match o_stateHi saved, o_stateLo saved, o_incHi saved, o_incLo saved,
        o_originalSeed saved, o_originalSequence saved with
  | Some hi, Some lo, Some ihi, Some ilo, Some sd, Some sq =>
      Restored (mk sd sq hi lo ihi ilo)
  | _, _, _, _, _, _ => LeftUndefined
  end.

Definition reset (g : t) : t := seeded (originalSeed g) (originalSequence g).

Definition clone (g : t) : t :=
  let cloned := new (originalSeed g) (originalSequence g) in
  mk (originalSeed cloned) (originalSequence cloned)
     (stateHi g) (stateLo g) (incHi g) (incLo g).

End PCG32.

(** *** SFC32 *)
Module SFC32.

Record t : Type := mk { originalSeed : Seed; a : Z; b : Z; c : Z; counter : Z }.

Definition name : string := "sfc32".

(** [[this.a, this.b, this.c, this.counter] = seeds] *)
Definition seeded (sd : Seed) : t :=
  let seeds := cyrb128 (seedStr sd) in
  mk sd (default 0 (seeds !! 0%nat)) (default 0 (seeds !! 1%nat))
        (default 0 (seeds !! 2%nat)) (default 0 (seeds !! 3%nat)).

Definition new (sd : Seed) : t := seeded sd.

(** [counter++] is a double increment; [a] is left as the signed result of
    the exclusive or. *)
Definition nextInt (g : t) : Z * t :=
  let t0 := JS.ToUint32 (JS.add (JS.add (a g) (b g)) (counter g)) in
  let counter' := JS.add (counter g) 1 in
  let a' := JS.xor (b g) (JS.shr (b g) 9) in
  let b' := JS.ToUint32 (JS.add (c g) (JS.shl (c g) 3)) in
  let c1 := JS.ToUint32 (JS.or (JS.shl (c g) 21) (JS.shr (c g) 11)) in
  let c' := JS.ToUint32 (JS.add c1 t0) in
  (t0, mk (originalSeed g) a' b' c' counter').

Definition next (g : t) : Q * t :=
  let '(n, g') := nextInt g in (inject_Z n / inject_Z JS.two32, g')%Q.

Definition getState (g : t) : Obj :=
  mkObj None None (Some (a g)) (Some (b g)) (Some (c g)) None (Some (counter g))
        None (Some (originalSeed g)) None None None None None.

Definition setState (g : t) (saved : Obj) : SetState t :=
  match o_a saved, o_b saved, o_c saved, o_counter saved, o_originalSeed saved with
  | Some a, Some b, Some c, Some n, Some sd => Restored (mk sd a b c n)
  | _, _, _, _, _ => LeftUndefined
  end.

Definition reset (g : t) : t := seeded (originalSeed g).

Definition clone (g : t) : t :=
  let cloned := new (originalSeed g) in
  mk (originalSeed cloned) (a g) (b g) (c g) (counter g).

End SFC32.

(** *** LCG *)
Module LCG.

Record t : Type := mk { seed : Z; state : Z; a : Z; c : Z; m : Z }.

Definition name : string := "lcg".

Definition new (sd : Seed) (a c m : Z) : t :=
  let seed := numSeed sd in
  mk seed seed a c m.

(** [new LCG(seed)] with the default parameters *)
Definition new_default (sd : Seed) : t := new sd 1664525 1013904223 4294967296.

(** [%] is the remainder that takes the sign of the dividend.  With a
    modulus of 0, which no constructor call of the facade gives, the code
    has NaN where [Z.rem] returns the dividend; [lcg_ok] excludes it. *)
Definition nextInt (g : t) : Z * t :=
  let state' := Z.rem (JS.add (JS.mul (a g) (state g)) (c g)) (m g) in
  (JS.ToUint32 state', mk (seed g) state' (a g) (c g) (m g)).

Definition next (g : t) : Q * t :=
  let '(n, g') := nextInt g in (inject_Z n / inject_Z (m g'), g')%Q.

Definition getState (g : t) : Obj :=
  mkObj (Some (state g)) (Some (seed g)) (Some (a g)) None (Some (c g))
        (Some (m g)) None None None None None None None None.

(** [Object.assign(this, savedState)]: every property the object has
    overwrites the generator's, every other field keeps its value.  No
    method of the generator reads a property other than these five. *)
Definition setState (g : t) (saved : Obj) : SetState t :=
  Restored (mk (default (seed g) (o_seed saved))
               (default (state g) (o_state saved))
               (default (a g) (o_a saved))
               (default (c g) (o_c saved))
               (default (m g) (o_m saved))).

Definition reset (g : t) : t := mk (seed g) (seed g) (a g) (c g) (m g).

Definition clone (g : t) : t :=
  let cloned := new (SeedNum (seed g)) (a g) (c g) (m g) in
  mk (seed cloned) (state g) (a cloned) (c cloned) (m cloned).

End LCG.

(** ** The closed family of generators *)

Inductive Algorithm : Type :=
| AMulberry32 | AXoshiro128 | AXorshift128 | APCG32 | ASFC32 | ALCG.

Inductive Generator : Type :=
| GMulberry32 (g : Mulberry32.t)
| GXoshiro128 (g : Xoshiro128SS.t)
| GXorshift128 (g : Xorshift128Plus.t)
| GPCG32 (g : PCG32.t)
| GSFC32 (g : SFC32.t)
| GLCG (g : LCG.t).

Module Gen.

Definition algorithm (g : Generator) : Algorithm :=
  match g with
  | GMulberry32 _ => AMulberry32
  | GXoshiro128 _ => AXoshiro128
  | GXorshift128 _ => AXorshift128
  | GPCG32 _ => APCG32
  | GSFC32 _ => ASFC32
  | GLCG _ => ALCG
  end.

(** [this.name], set by each constructor *)
Definition name (g : Generator) : string :=
  match g with
  | GMulberry32 _ => Mulberry32.name
  | GXoshiro128 _ => Xoshiro128SS.name
  | GXorshift128 _ => Xorshift128Plus.name
  | GPCG32 _ => PCG32.name
  | GSFC32 _ => SFC32.name
  | GLCG _ => LCG.name
  end.

(** The [switch] of [PRNG.setSeed] on the lower-cased key; [None] is its
    [default] branch. *)
Definition resolve (key : string) : option Algorithm :=
  let k := JS.toLowerCase key in
  if (String.eqb k "mulberry32" || String.eqb k "mulberry")%bool then Some AMulberry32
  else if (String.eqb k "xoshiro128" || String.eqb k "xoshiro128**"
           || String.eqb k "xoshiro")%bool then Some AXoshiro128
  else if (String.eqb k "xorshift128" || String.eqb k "xorshift128+"
           || String.eqb k "xorshift")%bool then Some AXorshift128
  else if (String.eqb k "pcg32" || String.eqb k "pcg")%bool then Some APCG32
  else if (String.eqb k "sfc32" || String.eqb k "sfc")%bool then Some ASFC32
  else if String.eqb k "lcg" then Some ALCG
  else None.

(** The constructor call of each branch: [new PCG32(seed)] takes the
    default sequence 1, [new LCG(seed)] the default parameters. *)
Definition new (a : Algorithm) (seed : Seed) : Generator :=
  match a with
  | AMulberry32 => GMulberry32 (Mulberry32.new seed)
  | AXoshiro128 => GXoshiro128 (Xoshiro128SS.new seed)
  | AXorshift128 => GXorshift128 (Xorshift128Plus.new seed)
  | APCG32 => GPCG32 (PCG32.new seed 1)
  | ASFC32 => GSFC32 (SFC32.new seed)
  | ALCG => GLCG (LCG.new_default seed)
  end.

Definition nextInt (g : Generator) : Z * Generator :=
  match g with
  | GMulberry32 g => let '(n, g') := Mulberry32.nextInt g in (n, GMulberry32 g')
  | GXoshiro128 g => let '(n, g') := Xoshiro128SS.nextInt g in (n, GXoshiro128 g')
  | GXorshift128 g => let '(n, g') := Xorshift128Plus.nextInt g in (n, GXorshift128 g')
  | GPCG32 g => let '(n, g') := PCG32.nextInt g in (n, GPCG32 g')
  | GSFC32 g => let '(n, g') := SFC32.nextInt g in (n, GSFC32 g')
  | GLCG g => let '(n, g') := LCG.nextInt g in (n, GLCG g')
  end.

Definition next (g : Generator) : Q * Generator :=
  match g with
  | GMulberry32 g => let '(x, g') := Mulberry32.next g in (x, GMulberry32 g')
  | GXoshiro128 g => let '(x, g') := Xoshiro128SS.next g in (x, GXoshiro128 g')
  | GXorshift128 g => let '(x, g') := Xorshift128Plus.next g in (x, GXorshift128 g')
  | GPCG32 g => let '(x, g') := PCG32.next g in (x, GPCG32 g')
  | GSFC32 g => let '(x, g') := SFC32.next g in (x, GSFC32 g')
  | GLCG g => let '(x, g') := LCG.next g in (x, GLCG g')
  end.

Definition getState (g : Generator) : Obj :=
  match g with
  | GMulberry32 g => Mulberry32.getState g
  | GXoshiro128 g => Xoshiro128SS.getState g
  | GXorshift128 g => Xorshift128Plus.getState g
  | GPCG32 g => PCG32.getState g
  | GSFC32 g => SFC32.getState g
  | GLCG g => LCG.getState g
  end.

Definition lift {A} (inj : A -> Generator) (r : SetState A) : SetState Generator :=
  match r with
  | Restored a => Restored (inj a)
  | LeftUndefined => LeftUndefined
  | Rejected msg => Rejected msg
  end.

Definition setState (g : Generator) (saved : Obj) : SetState Generator :=
  match g with
  | GMulberry32 g => lift GMulberry32 (Mulberry32.setState g saved)
  | GXoshiro128 g => lift GXoshiro128 (Xoshiro128SS.setState g saved)
  | GXorshift128 g => lift GXorshift128 (Xorshift128Plus.setState g saved)
  | GPCG32 g => lift GPCG32 (PCG32.setState g saved)
  | GSFC32 g => lift GSFC32 (SFC32.setState g saved)
  | GLCG g => lift GLCG (LCG.setState g saved)
  end.

Definition reset (g : Generator) : Generator :=
  match g with
  | GMulberry32 g => GMulberry32 (Mulberry32.reset g)
  | GXoshiro128 g => GXoshiro128 (Xoshiro128SS.reset g)
  | GXorshift128 g => GXorshift128 (Xorshift128Plus.reset g)
  | GPCG32 g => GPCG32 (PCG32.reset g)
  | GSFC32 g => GSFC32 (SFC32.reset g)
  | GLCG g => GLCG (LCG.reset g)
  end.

Definition clone (g : Generator) : Generator :=
  match g with
  | GMulberry32 g => GMulberry32 (Mulberry32.clone g)
  | GXoshiro128 g => GXoshiro128 (Xoshiro128SS.clone g)
  | GXorshift128 g => GXorshift128 (Xorshift128Plus.clone g)
  | GPCG32 g => GPCG32 (PCG32.clone g)
  | GSFC32 g => GSFC32 (SFC32.clone g)
  | GLCG g => GLCG (LCG.clone g)
  end.

End Gen.

(** ** The facade *)

(** [_spareNormal] is [null] until the first pair of normals is drawn. *)
Record Facade : Type := mkFacade {
  generator : Generator;
  _spareNormal : option Q;
  _hasSpareNormal : bool
}.

(** What a method call does: it returns, it throws, or (for the rejection
    loops, which have no iteration cap) it is still running when the fuel
    given to the model is used up. *)
Inductive Result (A : Type) : Type :=
| Returns (a : A)
| Throws (msg : string)
| OutOfFuel.
Arguments Returns {A} a.
Arguments Throws {A} msg.
Arguments OutOfFuel {A}.

(** A method is a function of the fields of [this]; the second component
    is the object after the call, also when the call throws. *)
Definition M (A : Type) : Type := Facade -> Result A * Facade.

Definition ret {A} (a : A) : M A := fun p => (Returns a, p).

Definition throw {A} (msg : string) : M A := fun p => (Throws msg, p).

Definition bind {A B} (m : M A) (k : A -> M B) : M B :=
  fun p =>
    match m p with
    | (Returns a, p') => k a p'
    | (Throws msg, p') => (Throws msg, p')
    | (OutOfFuel, p') => (OutOfFuel, p')
    end.

Notation "x <- m ;; k" := (bind m (fun x => k))
  (at level 100, m at next level, right associativity).

(** JavaScript values that the array utilities move around *)
Inductive Value : Type :=
| VUndefined
| VNum (q : Q)
| VBool (b : bool).

(** [ToNumber]; [None] stands for NaN. *)
Definition ToNumber (v : Value) : option Q :=
  match v with
  | VUndefined => None
  | VNum q => Some q
  | VBool b => Some (if b then 1%Q else 0%Q)
  end.

(** The integer part of a number, towards zero *)
Definition Qtrunc (q : Q) : Z := if Qle_bool 0 q then Qfloor q else Qceiling q.

(** [a[i]] and [a[i] = v] on an array.  A read outside the array is
    [undefined]; a write past the end grows the array, the skipped slots
    reading as [undefined]; a negative index names a property, not an
    element, and leaves the elements alone. *)
Definition arr_get (a : list Value) (i : Z) : Value :=
  if i <? 0 then VUndefined else default VUndefined (a !! Z.to_nat i).

Definition arr_set (a : list Value) (i : Z) (v : Value) : list Value :=
  if i <? 0 then a
  else if i <? Z.of_nat (length a) then <[Z.to_nat i := v]> a
  else a ++ replicate (Z.to_nat i - length a) VUndefined ++ [v].

(** [a.slice(0, k)]: a negative [k] counts from the end. *)
Definition slice0 (a : list Value) (k : Z) : list Value :=
  if k <? 0 then take (Z.to_nat (Z.of_nat (length a) + k)) a
  else take (Z.to_nat k) a.

Definition Qltb (x y : Q) : bool := negb (Qle_bool y x).

(** [Math.sqrt], [Math.log] and [Math.pow] belong to the host; the model
    takes them as given functions on numbers. *)
Record MathLib : Type := mkMath {
  Math_sqrt : Q -> Q;
  Math_log : Q -> Q;
  Math_pow : Q -> Q -> Q
}.

(** The other host functions that the facade calls, and [Math.PI] *)
Record MathExt : Type := mkMathExt {
  Math_exp : Q -> Q;
  Math_tan : Q -> Q;
  Math_cos : Q -> Q;
  Math_sin : Q -> Q;
  Math_acos : Q -> Q;
  Math_cbrt : Q -> Q;
  Math_PI : Q
}.

Module PRNG.

(** *** Seeding *)

Definition unknown_algorithm (key : string) : string :=
  String.append "Unknown algorithm: " key.

(** [new PRNG(seed, algorithm)]; the constructor's default algorithm is
    ['xoshiro128']. *)
Definition new (seed : Seed) (algorithm : option string) : Result Facade :=
  let key := default "xoshiro128"%string algorithm in
  match Gen.resolve key with
  | Some a => Returns (mkFacade (Gen.new a seed) None false)
  | None => Throws (unknown_algorithm key)
  end.

(** [setSeed(seed, algorithm)] on an existing instance; the default
    algorithm is the name of the current generator. *)
Definition setSeed (seed : Seed) (algorithm : option string) : M unit :=
  fun p =>
    let key := default (Gen.name (generator p)) algorithm in
    match Gen.resolve key with
    | Some a => (Returns tt, mkFacade (Gen.new a seed) None false)
    | None => (Throws (unknown_algorithm key), p)
    end.

(** *** Basic generation *)

Definition random : M Q :=
  fun p =>
    let '(x, g') := Gen.next (generator p) in
    (Returns x, mkFacade g' (_spareNormal p) (_hasSpareNormal p)).

Definition randomInt : M Z :=
  fun p =>
    let '(n, g') := Gen.nextInt (generator p) in
    (Returns n, mkFacade g' (_spareNormal p) (_hasSpareNormal p)).

(** [float] on exact numbers; the code rounds the difference, the product
    and the sum ([PRNG64.float]). *)
Definition float (min max : Q) : M Q :=
  x <- random ;; ret (min + x * (max - min))%Q.

(** [int] on exact numbers.  The code computes the same integer when the
    bounds are integers within [±2^52] after rounding inward and the range
    holds at most [2^21] integers: then [max - min + 1], its product with
    a multiple of [2^-32] and the last sum are doubles without rounding.
    For wider ranges see [PRNG64.int]. *)
Definition int (min max : Q) : M Z :=
  let min := Qceiling min in
  let max := Qfloor max in
  x <- random ;;
  ret (Qfloor (x * inject_Z (max - min + 1)) + min).

Definition bool (probability : Q) : M bool :=
  x <- random ;; ret (Qltb x probability).

Definition sign (probability : Q) : M Z :=
  b <- bool probability ;; ret (if b then 1 else -1).

(** *** Statistical distributions *)

Section Distributions.

Variable Math : MathLib.

(** The rejection loop of [normal]: one round draws [u] and [v], and the
    loop repeats while [s >= 1 || s === 0]. *)
Fixpoint normal_pair (fuel : nat) : M (Q * Q * Q) :=
  match fuel with
  | O => fun p => (OutOfFuel, p)
  | S fuel' =>
      r1 <- random ;;
      let u := (r1 * 2 - 1)%Q in
      r2 <- random ;;
      let v := (r2 * 2 - 1)%Q in
      let s := (u * u + v * v)%Q in
      if (Qle_bool 1 s || Qeq_bool s 0)%bool then normal_pair fuel'
      else ret (u, v, s)
  end.

Definition normal (fuel : nat) (mean stdDev : Q) : M Q :=
  fun p =>
    if _hasSpareNormal p then
      (Returns (default 0%Q (_spareNormal p) * stdDev + mean)%Q,
       mkFacade (generator p) (_spareNormal p) false)
    else
      (uvs <- normal_pair fuel ;;
       let '(u, v, s) := uvs in
       let mul := Math_sqrt Math (-2 * Math_log Math s / s)%Q in
       fun p' =>
         (Returns (u * mul * stdDev + mean)%Q,
          mkFacade (generator p') (Some (v * mul)%Q) true)) p.

(** [binomial(n, p)]: the loop body runs once for every [i] below [n]. *)
Fixpoint binomial_loop (n : nat) (pr : Q) (successes : Z) : M Z :=
  match n with
  | O => ret successes
  | S n' =>
      x <- random ;;
      binomial_loop n' pr (if Qltb x pr then successes + 1 else successes)
  end.

Definition binomial (n : Z) (pr : Q) : M Z := binomial_loop (Z.to_nat n) pr 0.

(** The inner [do ... while (v <= 0)] of [gamma] *)
Fixpoint gamma_xv (fuel : nat) (c : Q) : M (Q * Q) :=
  match fuel with
  | O => fun p => (OutOfFuel, p)
  | S fuel' =>
      x <- normal fuel' 0 1 ;;
      let v := (1 + c * x)%Q in
      if Qle_bool v 0 then gamma_xv fuel' c else ret (x, v)
  end.

(** The [while (true)] of [gamma], for a shape of at least 1 *)
Fixpoint gamma_loop (fuel : nat) (d c scale : Q) : M Q :=
  match fuel with
  | O => fun p => (OutOfFuel, p)
  | S fuel' =>
      xv <- gamma_xv fuel' c ;;
      let '(x, v) := xv in
      let v := (v * v * v)%Q in
      u <- random ;;
      if Qltb u (1 - (331 # 10000) * (x * x) * (x * x))%Q
      then ret (d * v * scale)%Q
      else if Qltb (Math_log Math u)
                   ((1 # 2) * x * x + d * (1 - v + Math_log Math v))%Q
      then ret (d * v * scale)%Q
      else gamma_loop fuel' d c scale
  end.

(** [gamma(shape, scale)]: below shape 1 the call recurses on [1 + shape]
    first and draws the correcting uniform after it. *)
Fixpoint gamma (fuel : nat) (shape scale : Q) : M Q :=
  match fuel with
  | O => fun p => (OutOfFuel, p)
  | S fuel' =>
      if Qltb shape 1 then
        g <- gamma fuel' (1 + shape)%Q scale ;;
        u <- random ;;
        ret (g * Math_pow Math u (1 / shape))%Q
      else
        let d := (shape - 1 / 3)%Q in
        let c := (1 / Math_sqrt Math (9 * d))%Q in
        gamma_loop fuel' d c scale
  end.

Definition beta (fuel : nat) (alpha beta : Q) : M Q :=
  if (Qle_bool alpha 0 || Qle_bool beta 0)%bool then
    throw "Alpha and beta must be positive"
  else
    gamma1 <- gamma fuel alpha 1 ;;
    gamma2 <- gamma fuel beta 1 ;;
    ret (gamma1 / (gamma1 + gamma2))%Q.

End Distributions.

(** *** Array utilities *)

(** The loop of [shuffle], from index [i] down to 1:
    [[array[i], array[j]] = [array[j], array[i]]] reads both elements, then
    writes [array[i]], then [array[j]]. *)
Fixpoint shuffle_from (i : nat) (array : list Value) : M (list Value) :=
  match i with
  | O => ret array
  | S i' =>
      j <- int 0 (inject_Z (Z.of_nat i)) ;;
      let ai := arr_get array (Z.of_nat i) in
      let aj := arr_get array j in
      shuffle_from i' (arr_set (arr_set array (Z.of_nat i) aj) j ai)
  end.

Definition shuffle (array : list Value) : M (list Value) :=
  shuffle_from (length array - 1) array.

(** [shuffle([...array])] *)
Definition shuffled (array : list Value) : M (list Value) := shuffle array.

Definition pick (array : list Value) : M Value :=
  if Nat.eqb (length array) 0 then ret VUndefined
  else
    j <- int 0 (inject_Z (Z.of_nat (length array) - 1)) ;;
    ret (arr_get array j).

Definition sample (array : list Value) (n : Z) : M (list Value) :=
  sh <- shuffled array ;;
  ret (slice0 sh (Z.min n (Z.of_nat (length array)))).

(** The scan of [weightedPick] from index [i] on, [k] indices left *)
Fixpoint weightedPick_scan (k : nat) (i : Z) (items : list Value)
    (weights : list Q) (random : Q) : Value :=
  match k with
  | O => arr_get items (Z.of_nat (length items) - 1)
  | S k' =>
      let random := (random - default 0%Q (weights !! Z.to_nat i))%Q in
      if Qle_bool random 0 then arr_get items i
      else weightedPick_scan k' (i + 1) items weights random
  end.

Definition weightedPick (items : list Value) (weights : list Q) : M Value :=
  if negb (Nat.eqb (length items) (length weights)) then
    throw "Items and weights must have same length"
  else
    let totalWeight := fold_left Qplus weights 0%Q in
    x <- random ;;
    ret (weightedPick_scan (length items) 0 items weights (x * totalWeight)%Q).

(** *** State management *)

(** The object that [getState] returns and [setState] reads.  The type
    holds the payloads that have a string [algorithm], a [generatorState]
    object and a [normalCache] object; a payload that lacks one of them
    (on which the code throws a [TypeError], after [setSeed] has replaced
    the generator) is outside the model. *)
Record Saved : Type := mkSaved {
  algorithm : string;
  generatorState : Obj;
  normalCache_spare : option Q;
  normalCache_hasSpare : Datatypes.bool
}.

Definition getState (p : Facade) : Saved :=
  mkSaved (Gen.name (generator p)) (Gen.getState (generator p))
          (_spareNormal p) (_hasSpareNormal p).

(** [setState]: [this.setSeed(0, savedState.algorithm)] first, which
    throws on an unknown key and otherwise installs a fresh generator of
    that algorithm; then the generator's own [setState]; then the cache. *)
Definition setState (savedState : Saved) (p : Facade) : SetState Facade :=
  match setSeed (SeedNum 0) (Some (algorithm savedState)) p with
  | (Returns _, p1) =>
      match Gen.setState (generator p1) (generatorState savedState) with
      | Restored g =>
          Restored (mkFacade g (normalCache_spare savedState)
                             (normalCache_hasSpare savedState))
      | LeftUndefined => LeftUndefined
      | Rejected msg => Rejected msg
      end
  | (Throws msg, _) => Rejected msg
  | (OutOfFuel, _) => LeftUndefined
  end.

Definition reset (p : Facade) : Facade :=
  mkFacade (Gen.reset (generator p)) None false.

(** [clone]: [new PRNG(0, this.generator.name)], whose generator is then
    replaced by the clone of this one and whose cache is overwritten. *)
Definition clone (p : Facade) : Result Facade :=
  match new (SeedNum 0) (Some (Gen.name (generator p))) with
  | Returns cloned =>
      Returns (mkFacade (Gen.clone (generator p)) (_spareNormal p)
                        (_hasSpareNormal p))
  | Throws msg => Throws msg
  | OutOfFuel => OutOfFuel
  end.

(** The seed string of a fork:
    [this.generator.name + '_' + this.randomInt() + '_' + label] *)
Definition derivedSeed (name : string) (n : Z) (label : string) : string :=
  String.append name
    (String.append "_" (String.append (JS.String_of_int n) (String.append "_" label))).

Definition fork (label : string) : M Facade :=
  fun p =>
    let name := Gen.name (generator p) in
    (n <- randomInt ;;
     fun p' =>
       match new (SeedStr (derivedSeed name n label)) (Some (Gen.name (generator p'))) with
       | Returns child => (Returns child, p')
       | Throws msg => (Throws msg, p')
       | OutOfFuel => (OutOfFuel, p')
       end) p.

(** *** Special generators *)

(** [s[i]] where the result is appended to a string: a code unit, or the
    text of [undefined] when [i] is outside the string *)
Definition index_text (s : string) (i : Z) : string :=
  if i <? 0 then "undefined"%string
  else match String.get (Z.to_nat i) s with
       | Some c => String c EmptyString
       | None => "undefined"%string
       end.

Definition hex : string := "0123456789abcdef".

(** The loop of [uuid], from index [i] on, [n] indices left *)
Fixpoint uuid_from (n : nat) (i : Z) (uuid : string) : M string :=
  match n with
  | O => ret uuid
  | S n' =>
      if ((i =? 8) || (i =? 13) || (i =? 18) || (i =? 23))%bool then
        uuid_from n' (i + 1) (String.append uuid "-")
      else if i =? 14 then
        uuid_from n' (i + 1) (String.append uuid "4")
      else if i =? 19 then
        k <- int 0 15 ;;
        uuid_from n' (i + 1) (String.append uuid (index_text hex (JS.or (JS.and k 3) 8)))
      else
        k <- int 0 15 ;;
        uuid_from n' (i + 1) (String.append uuid (index_text hex k))
  end.

Definition uuid : M string := uuid_from 36 0 "".

Definition colorRGB : M (Z * Z * Z) :=
  r <- int 0 255 ;;
  g <- int 0 255 ;;
  b <- int 0 255 ;;
  ret (r, g, b).

(** [char(charset)], as the text that [string] appends *)
Definition char (charset : string) : M string :=
  k <- int 0 (inject_Z (Z.of_nat (String.length charset) - 1)) ;;
  ret (index_text charset k).

Fixpoint string_loop (n : nat) (charset : string) (result : string) : M string :=
  match n with
  | O => ret result
  | S n' =>
      c <- char charset ;;
      string_loop n' charset (String.append result c)
  end.

(** [string(length, charset)] *)
Definition string (length : Z) (charset : String.string) : M String.string :=
  string_loop (Z.to_nat length) charset "".

(** [color()] *)
Definition color : M String.string :=
  k <- int 0 16777215 ;;
  ret (String.append "#" (JS.padStart0 6 (JS.toString16 k))).

(** [colorHSL(saturation, lightness)]: [??] draws only where the argument
    is [null] or [undefined], which is [None] here. *)
Definition colorHSL (saturation lightness : option Q) : M (Z * Q * Q) :=
  h <- int 0 360 ;;
  s <- match saturation with
       | Some s => ret s
       | None => (k <- int 0 100 ;; ret (inject_Z k))
       end ;;
  l <- match lightness with
       | Some l => ret l
       | None => (k <- int 0 100 ;; ret (inject_Z k))
       end ;;
  ret (h, s, l).

(** *** The remaining distributions *)

Section MoreDistributions.

Variable Math : MathLib.
Variable MathX : MathExt.

Definition exponential (lambda : Q) : M Q :=
  x <- random ;; ret (- Math_log Math (1 - x) / lambda)%Q.

(** The loop of [poisson]: [do { k++; p *= random() } while (p > L)] *)
Fixpoint poisson_loop (fuel : nat) (L : Q) (k : Z) (p : Q) : M Z :=
  match fuel with
  | O => fun q => (OutOfFuel, q)
  | S fuel' =>
      x <- random ;;
      let k := k + 1 in
      let p := (p * x)%Q in
      if Qltb L p then poisson_loop fuel' L k p else ret (k - 1)
  end.

Definition poisson (fuel : nat) (lambda : Q) : M Z :=
  poisson_loop fuel (Math_exp MathX (- lambda)) 0 1.

Definition pareto (alpha xm : Q) : M Q :=
  x <- random ;; ret (xm / Math_pow Math (1 - x) (1 / alpha))%Q.

Definition triangular (min max mode : Q) : M Q :=
  u <- random ;;
  let fc := ((mode - min) / (max - min))%Q in
  if Qltb u fc then
    ret (min + Math_sqrt Math (u * (max - min) * (mode - min)))%Q
  else
    ret (max - Math_sqrt Math ((1 - u) * (max - min) * (max - mode)))%Q.

Definition logNormal (fuel : nat) (mu sigma : Q) : M Q :=
  n <- normal Math fuel mu sigma ;; ret (Math_exp MathX n).

Definition weibull (scale shape : Q) : M Q :=
  x <- random ;;
  ret (scale * Math_pow Math (- Math_log Math (1 - x)) (1 / shape))%Q.

Definition cauchy (location scale : Q) : M Q :=
  x <- random ;;
  ret (location + scale * Math_tan MathX (Math_PI MathX * (x - (1 # 2))))%Q.

(** *** Geometric utilities *)

Definition pointInCircle (radius : Q) : M (Q * Q) :=
  x1 <- random ;;
  let r := (radius * Math_sqrt Math x1)%Q in
  x2 <- random ;;
  let theta := (x2 * Math_PI MathX * 2)%Q in
  ret (r * Math_cos MathX theta, r * Math_sin MathX theta)%Q.

Definition pointOnCircle (radius : Q) : M (Q * Q) :=
  x <- random ;;
  let theta := (x * Math_PI MathX * 2)%Q in
  ret (radius * Math_cos MathX theta, radius * Math_sin MathX theta)%Q.

Definition pointInSphere (radius : Q) : M (Q * Q * Q) :=
  u <- random ;;
  v <- random ;;
  let theta := (u * 2 * Math_PI MathX)%Q in
  let phi := Math_acos MathX (2 * v - 1)%Q in
  x <- random ;;
  let r := (radius * Math_cbrt MathX x)%Q in
  ret (r * Math_sin MathX phi * Math_cos MathX theta,
       r * Math_sin MathX phi * Math_sin MathX theta,
       r * Math_cos MathX phi)%Q.

Definition pointOnSphere (radius : Q) : M (Q * Q * Q) :=
  u <- random ;;
  v <- random ;;
  let theta := (u * 2 * Math_PI MathX)%Q in
  let phi := Math_acos MathX (2 * v - 1)%Q in
  ret (radius * Math_sin MathX phi * Math_cos MathX theta,
       radius * Math_sin MathX phi * Math_sin MathX theta,
       radius * Math_cos MathX phi)%Q.

Definition direction2D : M (Q * Q) :=
  x <- random ;;
  let angle := (x * Math_PI MathX * 2)%Q in
  ret (Math_cos MathX angle, Math_sin MathX angle).

Definition direction3D : M (Q * Q * Q) := pointOnSphere 1.

End MoreDistributions.

Definition pointInRect (x y width height : Q) : M (Q * Q) :=
  r1 <- random ;;
  r2 <- random ;;
  ret (x + r1 * width, y + r2 * height)%Q.

Definition pointInBox (x y z width height depth : Q) : M (Q * Q * Q) :=
  r1 <- random ;;
  r2 <- random ;;
  r3 <- random ;;
  ret (x + r1 * width, y + r2 * height, z + r3 * depth)%Q.

(** *** The remaining array utilities *)

(** [weightedPick] where the items are strings, as [weightedPickObject]
    calls it; [None] is [undefined]. *)
Fixpoint weightedPick_keys_scan (k : nat) (i : Z) (items : list String.string)
    (weights : list Q) (random : Q) : option String.string :=
  match k with
  | O => if Z.of_nat (length items) - 1 <? 0 then None
         else items !! Z.to_nat (Z.of_nat (length items) - 1)
  | S k' =>
      let random := (random - default 0%Q (weights !! Z.to_nat i))%Q in
      if Qle_bool random 0 then items !! Z.to_nat i
      else weightedPick_keys_scan k' (i + 1) items weights random
  end.

Definition weightedPick_keys (items : list String.string) (weights : list Q)
  : M (option String.string) :=
  if negb (Nat.eqb (length items) (length weights)) then
    throw "Items and weights must have same length"
  else
    let totalWeight := fold_left Qplus weights 0%Q in
    x <- random ;;
    ret (weightedPick_keys_scan (length items) 0 items weights (x * totalWeight)%Q).

(** [weightedPickObject(weightedItems)]: the object is given by its
    entries in the order of [Object.keys]. *)
Definition weightedPickObject (weightedItems : list (String.string * Q))
  : M (option String.string) :=
  let items := map fst weightedItems in
  let weights := map snd weightedItems in
  weightedPick_keys items weights.

(** [Array.from({ length }, generator)]: [generator] is called once for
    every index, in order. *)
Fixpoint array_from {A} (n : nat) (generator : M A) : M (list A) :=
  match n with
  | O => ret []
  | S n' =>
      v <- generator ;;
      vs <- array_from n' generator ;;
      ret (v :: vs)
  end.

(** [array(length, generator)] for a [generator] that draws from this
    instance; the default is [() => this.random()].  A negative [length]
    counts as 0, and one past [2^32 - 1] is a [RangeError] of the array
    constructor. *)
Definition array {A} (length : Z) (generator : M A) : M (list A) :=
  if 4294967295 <? length then throw "Invalid array length"
  else array_from (Z.to_nat length) generator.

End PRNG.

(** ** Invariants of the objects *)

Definition uint32 (w : Z) : Prop := 0 <= w < JS.two32.

(** What holds of every generator object by the types of its fields: the
    elements of a [Uint32Array] are uint32, and the numeric seed that
    [Mulberry32] and [LCG] keep is the result of [>>> 0]. *)
Definition typed (g : Generator) : Prop :=
  match g with
  | GMulberry32 g => uint32 (Mulberry32.seed g)
  | GXoshiro128 g => Forall uint32 (Xoshiro128SS.s g)
  | GXorshift128 g => Forall uint32 (Xorshift128Plus.s g)
  | GLCG g => uint32 (LCG.seed g)
  | GPCG32 _ | GSFC32 _ => True
  end.

(** The parameters and the state of an [LCG] are not negative and its
    modulus is positive, as the constructor's defaults are. *)
Definition lcg_ok (g : Generator) : Prop :=
  match g with
  | GLCG g => 0 <= LCG.state g /\ 0 <= LCG.a g /\ 0 <= LCG.c g /\ 0 < LCG.m g
  | _ => True
  end.


(** ** Programs of draws *)

(** The basic draws, the distributions with rejection loops and the
    array utilities; the other drawing methods follow under [Call]. *)
Inductive Draw : Type :=
| DRandom
| DRandomInt
| DFloat (min max : Q)
| DInt (min max : Q)
| DBool (probability : Q)
| DSign (probability : Q)
| DNormal (mean stdDev : Q)
| DBinomial (n : Z) (pr : Q)
| DGamma (shape scale : Q)
| DBeta (alpha beta : Q)
| DShuffled (array : list Value)
| DPick (array : list Value)
| DSample (array : list Value) (n : Z)
| DWeightedPick (items : list Value) (weights : list Q).

Inductive Out : Type :=
| ONum (q : Q)
| OInt (n : Z)
| OBool (b : bool)
| OVal (v : Value)
| OArr (l : list Value).

Definition fmap_M {A B} (f : A -> B) (m : M A) : M B := x <- m ;; ret (f x).

Definition run_draw (Math : MathLib) (fuel : nat) (d : Draw) : M Out :=
  match d with
  | DRandom => fmap_M ONum PRNG.random
  | DRandomInt => fmap_M OInt PRNG.randomInt
  | DFloat min max => fmap_M ONum (PRNG.float min max)
  | DInt min max => fmap_M OInt (PRNG.int min max)
  | DBool pr => fmap_M OBool (PRNG.bool pr)
  | DSign pr => fmap_M OInt (PRNG.sign pr)
  | DNormal mean stdDev => fmap_M ONum (PRNG.normal Math fuel mean stdDev)
  | DBinomial n pr => fmap_M OInt (PRNG.binomial n pr)
  | DGamma shape scale => fmap_M ONum (PRNG.gamma Math fuel shape scale)
  | DBeta alpha beta => fmap_M ONum (PRNG.beta Math fuel alpha beta)
  | DShuffled array => fmap_M OArr (PRNG.shuffled array)
  | DPick array => fmap_M OVal (PRNG.pick array)
  | DSample array n => fmap_M OArr (PRNG.sample array n)
  | DWeightedPick items weights => fmap_M OVal (PRNG.weightedPick items weights)
  end.

(** A sequence of draw calls on one instance.  A call that throws leaves
    the instance as the throw found it and the program goes on; a call that
    does not come back ends the program. *)
Fixpoint run_draws (Math : MathLib) (fuel : nat) (ds : list Draw) (p : Facade)
  : list (Result Out) * Facade :=
  match ds with
  | [] => ([], p)
  | d :: ds' =>
      match run_draw Math fuel d p with
      | (OutOfFuel, p') => ([OutOfFuel], p')
      | (r, p') =>
          let '(rs, p'') := run_draws Math fuel ds' p' in (r :: rs, p'')
      end
  end.

(** *** Every drawing method

    The calls above, and the other methods of the facade that draw:
    the remaining distributions, the in-place [shuffle],
    [weightedPickObject], [array], the geometric utilities and the special
    generators.  The generator callback of [array] is one of the draw
    calls above on the same instance, or absent (the default,
    [() => this.random()]). *)
Inductive Call : Type :=
| CDraw (d : Draw)
| CExponential (lambda : Q)
| CPoisson (lambda : Q)
| CPareto (alpha xm : Q)
| CTriangular (min max mode : Q)
| CLogNormal (mu sigma : Q)
| CWeibull (scale shape : Q)
| CCauchy (location scale : Q)
| CShuffle (array : list Value)
| CWeightedPickObject (weightedItems : list (string * Q))
| CArray (length : Z) (generator : option Draw)
| CPointInCircle (radius : Q)
| CPointOnCircle (radius : Q)
| CPointInSphere (radius : Q)
| CPointOnSphere (radius : Q)
| CDirection2D
| CDirection3D
| CPointInRect (x y width height : Q)
| CPointInBox (x y z width height depth : Q)
| CUuid
| CColor
| CColorRGB
| CColorHSL (saturation lightness : option Q)
| CChar (charset : string)
| CString (length : Z) (charset : string).

Inductive Ret : Type :=
| ROut (o : Out)
| ROuts (l : list Out)
| RText (s : string)
| RKey (k : option string)
| RPoint2 (x y : Q)
| RPoint3 (x y z : Q)
| RRGB (r g b : Z)
| RHSL (h : Z) (s l : Q).

Definition run_call (Math : MathLib) (MathX : MathExt) (fuel : nat) (c : Call) : M Ret :=
  match c with
  | CDraw d => fmap_M ROut (run_draw Math fuel d)
  | CExponential lambda => fmap_M (fun q => ROut (ONum q)) (PRNG.exponential Math lambda)
  | CPoisson lambda => fmap_M (fun n => ROut (OInt n)) (PRNG.poisson MathX fuel lambda)
  | CPareto alpha xm => fmap_M (fun q => ROut (ONum q)) (PRNG.pareto Math alpha xm)
  | CTriangular min max mode =>
      fmap_M (fun q => ROut (ONum q)) (PRNG.triangular Math min max mode)
  | CLogNormal mu sigma =>
      fmap_M (fun q => ROut (ONum q)) (PRNG.logNormal Math MathX fuel mu sigma)
  | CWeibull scale shape => fmap_M (fun q => ROut (ONum q)) (PRNG.weibull Math scale shape)
  | CCauchy location scale =>
      fmap_M (fun q => ROut (ONum q)) (PRNG.cauchy MathX location scale)
  | CShuffle array => fmap_M (fun l => ROut (OArr l)) (PRNG.shuffle array)
  | CWeightedPickObject weightedItems => fmap_M RKey (PRNG.weightedPickObject weightedItems)
  | CArray length generator =>
      fmap_M ROuts
        (PRNG.array length
           match generator with
           | Some d => run_draw Math fuel d
           | None => fmap_M ONum PRNG.random
           end)
  | CPointInCircle radius =>
      fmap_M (fun '(x, y) => RPoint2 x y) (PRNG.pointInCircle Math MathX radius)
  | CPointOnCircle radius =>
      fmap_M (fun '(x, y) => RPoint2 x y) (PRNG.pointOnCircle MathX radius)
  | CPointInSphere radius =>
      fmap_M (fun '(x, y, z) => RPoint3 x y z) (PRNG.pointInSphere MathX radius)
  | CPointOnSphere radius =>
      fmap_M (fun '(x, y, z) => RPoint3 x y z) (PRNG.pointOnSphere MathX radius)
  | CDirection2D => fmap_M (fun '(x, y) => RPoint2 x y) (PRNG.direction2D MathX)
  | CDirection3D => fmap_M (fun '(x, y, z) => RPoint3 x y z) (PRNG.direction3D MathX)
  | CPointInRect x y width height =>
      fmap_M (fun '(x, y) => RPoint2 x y) (PRNG.pointInRect x y width height)
  | CPointInBox x y z width height depth =>
      fmap_M (fun '(x, y, z) => RPoint3 x y z) (PRNG.pointInBox x y z width height depth)
  | CUuid => fmap_M RText PRNG.uuid
  | CColor => fmap_M RText PRNG.color
  | CColorRGB => fmap_M (fun '(r, g, b) => RRGB r g b) PRNG.colorRGB
  | CColorHSL saturation lightness =>
      fmap_M (fun '(h, s, l) => RHSL h s l) (PRNG.colorHSL saturation lightness)
  | CChar charset => fmap_M RText (PRNG.char charset)
  | CString length charset => fmap_M RText (PRNG.string length charset)
  end.

(** A sequence of calls on one instance, every call with its outcome *)
Fixpoint run_calls (Math : MathLib) (MathX : MathExt) (fuel : nat) (cs : list Call)
    (p : Facade) : list (Result Ret) * Facade :=
  match cs with
  | [] => ([], p)
  | c :: cs' =>
      let '(r, p') := run_call Math MathX fuel c p in
      let '(rs, p'') := run_calls Math MathX fuel cs' p' in
      (r :: rs, p'')
  end.

(** *** What a run finds around it

    The only thing outside its arguments that the library reads is the
    clock, and only where a seed is left out: [seed = Date.now()] is the
    default of the constructors. *)
Record Env : Type := mkEnv { Date_now : Z }.

(** [new PRNG(seed, algorithm)] with its defaults *)
Definition construct (env : Env) (seed : option Seed) (algorithm : option string)
  : Result Facade :=
  PRNG.new (default (SeedNum (Date_now env)) seed) algorithm.

(** [PRNG_Library.random()]: the draw from the global instance, which is
    made with [new PRNG()] when there is none yet.  The result is the
    number drawn and the global instance after the call. *)
Definition global_random (env : Env) (_globalInstance : option Facade)
  : Result Q * option Facade :=
  match _globalInstance with
  | Some p => let '(r, p') := PRNG.random p in (r, Some p')
  | None =>
      match construct env None None with
      | Returns p => let '(r, p') := PRNG.random p in (r, Some p')
      | Throws msg => (Throws msg, None)
      | OutOfFuel => (OutOfFuel, None)
      end
  end.

(** An instance seeded with [(seed, key)]: by the constructor, or by
    [setSeed] on an instance with any history. *)
Inductive seeded_with (seed : Seed) (key : string) : Facade -> Prop :=
| seeded_new p :
    PRNG.new seed (Some key) = Returns p -> seeded_with seed key p
| seeded_setSeed q p :
    PRNG.setSeed seed (Some key) q = (Returns tt, p) -> seeded_with seed key p.

(** One draw call, with any fuel and any outcome *)
Definition draw_step (Math : MathLib) (p p' : Facade) : Prop :=
  exists fuel d r, run_draw Math fuel d p = (r, p').

(** One reseeding that returns *)
Definition reseed_step (p p' : Facade) : Prop :=
  exists seed algorithm, PRNG.setSeed seed algorithm p = (Returns tt, p').


(** A step in the life of an instance: a draw call or a reseeding *)
Definition facade_step (Math : MathLib) (p p' : Facade) : Prop :=
  draw_step Math p p' \/ reseed_step p p'.

(** The reading of [reset] under which it goes back to the seed of the
    construction whatever [setSeed] did since: after any steps, the draws
    that follow [reset] are the draws that followed the construction. *)
Definition reset_restores_construction (Math : MathLib) : Prop :=
  forall (seed : Seed) (key : string) (p0 p : Facade),
    PRNG.new seed (Some key) = Returns p0 ->
    rtc (facade_step Math) p0 p ->
    forall (fuel : nat) (ds : list Draw),
      fst (run_draws Math fuel ds (PRNG.reset p)) = fst (run_draws Math fuel ds p0).



(** The case labels of the [switch] in [setSeed] *)
Definition supported_keys : list string :=
  [ "mulberry32"; "mulberry"; "xoshiro128"; "xoshiro128**"; "xoshiro";
    "xorshift128"; "xorshift128+"; "xorshift"; "pcg32"; "pcg"; "sfc32"; "sfc";
    "lcg" ]%string.

(** Host functions for running examples; any choice would do. *)
Definition example_Math : MathLib := mkMath (fun x => x) (fun x => x) (fun x _ => x).

Definition example_MathX : MathExt :=
  mkMathExt (fun x => x) (fun x => x) (fun x => x) (fun x => x) (fun x => x)
            (fun x => x) (355 # 113).

(** An instance on [xoshiro128**] that holds a spare normal *)
Definition example_saved_instance : Facade :=
  snd (run_draws example_Math 20 [DRandom; DNormal 0 1]
         (mkFacade (Gen.new AXoshiro128 (SeedStr "state-test")) None false)).

(** ** Noise fields *)

(** A table entry as the noise constructors expect it: a byte *)
Definition byte_val (v : Value) : Prop :=
  exists k, v = VNum (inject_Z k) /\ 0 <= k <= 255.


(** [Array.from({ length: 256 }, (_, i) => i)] *)
Definition identity256 : list Value :=
  map (fun i => VNum (inject_Z (Z.of_nat i))) (seq 0 256).

(** *** Value noise *)
Module ValueNoise.

Record t : Type := mk { rng : Facade; permutation : list Value }.

(** The constructor: a facade on ['xoshiro128'], and the table
    [[...p, ...p]] of the shuffled identity. *)
Definition new (seed : Seed) : Result t :=
  match PRNG.new seed (Some "xoshiro128"%string) with
  | Returns rng0 =>
      match PRNG.shuffle identity256 rng0 with
      | (Returns p, rng1) => Returns (mk rng1 (p ++ p))
      | (Throws msg, _) => Throws msg
      | (OutOfFuel, _) => OutOfFuel
      end
  | Throws msg => Throws msg
  | OutOfFuel => OutOfFuel
  end.

(** The interpolation on exact numbers; the code rounds every operation
    ([ValueNoise64]).  The two agree at integer coordinates, where the
    fractional part and the fade are 0. *)
Definition _fade (t : Q) : Q := (t * t * t * (t * (t * 6 - 15) + 10))%Q.

Definition _lerp (a b t : Q) : Q := (a + t * (b - a))%Q.

(** One round of the loop of [_hash]; the running hash is a number or NaN,
    and NaN is 0 under [&]. *)
Definition _hash_step (vn : t) (hash : option Q) (c : Z) : option Q :=
  let idx :=
    match hash with
    | Some h => JS.and (Qtrunc (h + inject_Z c)) 255
    | None => 0
    end in
  ToNumber (arr_get (permutation vn) idx).

Definition _hash (vn : t) (coords : list Z) : option Q :=
  match fold_left (_hash_step vn) coords (Some 0%Q) with
  | Some h => Some (h / 255)%Q
  | None => None
  end.

(** [_lerp] on numbers that may be NaN *)
Definition lerp_opt (a b : option Q) (t : Q) : option Q :=
  match a, b with
  | Some a, Some b => Some (_lerp a b t)
  | _, _ => None
  end.

Definition noise1D (vn : t) (x : Q) : option Q :=
  let xi := JS.and (Qfloor x) 255 in
  let xf := (x - inject_Z (Qfloor x))%Q in
  let u := _fade xf in
  lerp_opt (_hash vn [xi]) (_hash vn [xi + 1]) u.

End ValueNoise.

(** *** Simplex noise *)
Module SimplexNoise.

(** [perm] and [permMod12] are [Uint8Array(512)]. *)
Record t : Type := mk { rng : Facade; perm : list Z; permMod12 : list Z }.

(** A store into a [Uint8Array]: NaN is 0, the integer part modulo 256 *)
Definition ToUint8 (v : Value) : Z :=
  match ToNumber v with
  | Some q => Qtrunc q mod 256
  | None => 0
  end.

(** The loop of the constructor, [perm[i] = p[i & 255]] and
    [permMod12[i] = perm[i] % 12] for [i] below 512 *)
Definition build_perm (p : list Value) : list Z :=
  map (fun i => ToUint8 (arr_get p (JS.and (Z.of_nat i) 255))) (seq 0 512).

Definition build_permMod12 (perm : list Z) : list Z :=
  map (fun i => Z.rem (default 0 (perm !! i)) 12) (seq 0 512).

Definition new (seed : Seed) : Result t :=
  match PRNG.new seed (Some "xoshiro128"%string) with
  | Returns rng0 =>
      match PRNG.shuffle identity256 rng0 with
      | (Returns p, rng1) =>
          let perm := build_perm p in
          Returns (mk rng1 perm (build_permMod12 perm))
      | (Throws msg, _) => Throws msg
      | (OutOfFuel, _) => OutOfFuel
      end
  | Throws msg => Throws msg
  | OutOfFuel => OutOfFuel
  end.

Definition grad3 : list (Z * Z * Z) :=
  [ (1,1,0); (-1,1,0); (1,-1,0); (-1,-1,0);
    (1,0,1); (-1,0,1); (1,0,-1); (-1,0,-1);
    (0,1,1); (0,-1,1); (0,1,-1); (0,-1,-1) ].

Definition _dot2 (g : Z * Z * Z) (x y : Q) : Q :=
  let '(g0, g1, _) := g in (inject_Z g0 * x + inject_Z g1 * y)%Q.

Definition _dot3 (g : Z * Z * Z) (x y z : Q) : Q :=
  let '(g0, g1, g2) := g in
  (inject_Z g0 * x + inject_Z g1 * y + inject_Z g2 * z)%Q.

(** The table reads of the noise functions are recorded as they are made:
    a computation carries the list of its lookups, and has no result once a
    lookup falls outside its table (the read is [undefined]). *)
Inductive Lookup : Type :=
| LPerm (i : Z)
| LPermMod12 (i : Z)
| LGrad3 (i : Z).

Definition T (A : Type) : Type := list Lookup * option A.

Definition tret {A} (a : A) : T A := ([], Some a).

Definition tbind {A B} (m : T A) (k : A -> T B) : T B :=
  match m with
  | (tr, Some a) => let '(tr', b) := k a in (tr ++ tr', b)
  | (tr, None) => (tr, None)
  end.

Notation "x <~ m ;; k" := (tbind m (fun x => k))
  (at level 100, m at next level, right associativity).

Definition tbl_get {A} (tbl : list A) (i : Z) : option A :=
  if i <? 0 then None else tbl !! Z.to_nat i.

Definition perm_at (sn : t) (i : Z) : T Z := ([LPerm i], tbl_get (perm sn) i).
Definition permMod12_at (sn : t) (i : Z) : T Z :=
  ([LPermMod12 i], tbl_get (permMod12 sn) i).
Definition grad3_at (gi : Z) : T (Z * Z * Z) := ([LGrad3 gi], tbl_get grad3 gi).

(** One corner of the 2D sum: nothing if [t < 0], else [t^4 * dot] *)
Definition corner2 (half : Q) (gi : Z) (x y : Q) : T Q :=
  let t0 := (half - x * x - y * y)%Q in
  if Qltb t0 0 then tret 0%Q
  else
    let t0 := (t0 * t0)%Q in
    g <~ grad3_at gi ;;
    tret (t0 * t0 * _dot2 g x y)%Q.

Definition corner3 (radius : Q) (gi : Z) (x y z : Q) : T Q :=
  let t0 := (radius - x * x - y * y - z * z)%Q in
  if Qltb t0 0 then tret 0%Q
  else
    let t0 := (t0 * t0)%Q in
    g <~ grad3_at gi ;;
    tret (t0 * t0 * _dot3 g x y z)%Q.

Definition noise2D (Math : MathLib) (sn : t) (xin yin : Q) : T Q :=
  let F2 := ((1 # 2) * (Math_sqrt Math 3 - 1))%Q in
  let G2 := ((3 - Math_sqrt Math 3) / 6)%Q in
  let s := ((xin + yin) * F2)%Q in
  let i := Qfloor (xin + s) in
  let j := Qfloor (yin + s) in
  let t0 := (inject_Z (i + j) * G2)%Q in
  let X0 := (inject_Z i - t0)%Q in
  let Y0 := (inject_Z j - t0)%Q in
  let x0 := (xin - X0)%Q in
  let y0 := (yin - Y0)%Q in
  let '(i1, j1) := if Qltb y0 x0 then (1, 0) else (0, 1) in
  let x1 := (x0 - inject_Z i1 + G2)%Q in
  let y1 := (y0 - inject_Z j1 + G2)%Q in
  let x2 := (x0 - 1 + 2 * G2)%Q in
  let y2 := (y0 - 1 + 2 * G2)%Q in
  let ii := JS.and i 255 in
  let jj := JS.and j 255 in
  p0 <~ perm_at sn jj ;;
  gi0 <~ permMod12_at sn (ii + p0) ;;
  p1 <~ perm_at sn (jj + j1) ;;
  gi1 <~ permMod12_at sn (ii + i1 + p1) ;;
  p2 <~ perm_at sn (jj + 1) ;;
  gi2 <~ permMod12_at sn (ii + 1 + p2) ;;
  n0 <~ corner2 (1 # 2) gi0 x0 y0 ;;
  n1 <~ corner2 (1 # 2) gi1 x1 y1 ;;
  n2 <~ corner2 (1 # 2) gi2 x2 y2 ;;
  tret (70 * (n0 + n1 + n2))%Q.

(** The ordering of the three offsets picks the two middle corners. *)
Definition simplex3_corners (x0 y0 z0 : Q) : (Z * Z * Z) * (Z * Z * Z) :=
  if Qle_bool y0 x0 then
    if Qle_bool z0 y0 then ((1, 0, 0), (1, 1, 0))
    else if Qle_bool z0 x0 then ((1, 0, 0), (1, 0, 1))
    else ((0, 0, 1), (1, 0, 1))
  else
    if Qltb y0 z0 then ((0, 0, 1), (0, 1, 1))
    else if Qltb x0 z0 then ((0, 1, 0), (0, 1, 1))
    else ((0, 1, 0), (1, 1, 0)).

Definition noise3D (sn : t) (xin yin zin : Q) : T Q :=
  let F3 := (1 / 3)%Q in
  let G3 := (1 / 6)%Q in
  let s := ((xin + yin + zin) * F3)%Q in
  let i := Qfloor (xin + s) in
  let j := Qfloor (yin + s) in
  let k := Qfloor (zin + s) in
  let t0 := (inject_Z (i + j + k) * G3)%Q in
  let x0 := (xin - (inject_Z i - t0))%Q in
  let y0 := (yin - (inject_Z j - t0))%Q in
  let z0 := (zin - (inject_Z k - t0))%Q in
  let '((i1, j1, k1), (i2, j2, k2)) := simplex3_corners x0 y0 z0 in
  let x1 := (x0 - inject_Z i1 + G3)%Q in
  let y1 := (y0 - inject_Z j1 + G3)%Q in
  let z1 := (z0 - inject_Z k1 + G3)%Q in
  let x2 := (x0 - inject_Z i2 + 2 * G3)%Q in
  let y2 := (y0 - inject_Z j2 + 2 * G3)%Q in
  let z2 := (z0 - inject_Z k2 + 2 * G3)%Q in
  let x3 := (x0 - 1 + 3 * G3)%Q in
  let y3 := (y0 - 1 + 3 * G3)%Q in
  let z3 := (z0 - 1 + 3 * G3)%Q in
  let ii := JS.and i 255 in
  let jj := JS.and j 255 in
  let kk := JS.and k 255 in
  a0 <~ perm_at sn kk ;;
  b0 <~ perm_at sn (jj + a0) ;;
  gi0 <~ permMod12_at sn (ii + b0) ;;
  a1 <~ perm_at sn (kk + k1) ;;
  b1 <~ perm_at sn (jj + j1 + a1) ;;
  gi1 <~ permMod12_at sn (ii + i1 + b1) ;;
  a2 <~ perm_at sn (kk + k2) ;;
  b2 <~ perm_at sn (jj + j2 + a2) ;;
  gi2 <~ permMod12_at sn (ii + i2 + b2) ;;
  a3 <~ perm_at sn (kk + 1) ;;
  b3 <~ perm_at sn (jj + 1 + a3) ;;
  gi3 <~ permMod12_at sn (ii + 1 + b3) ;;
  n0 <~ corner3 (6 # 10) gi0 x0 y0 z0 ;;
  n1 <~ corner3 (6 # 10) gi1 x1 y1 z1 ;;
  n2 <~ corner3 (6 # 10) gi2 x2 y2 z2 ;;
  n3 <~ corner3 (6 # 10) gi3 x3 y3 z3 ;;
  tret (32 * (n0 + n1 + n2 + n3))%Q.

(** A recorded lookup is in bounds: the two byte tables have 512 entries,
    the gradient table has 12. *)
Definition in_bounds (l : Lookup) : Prop :=
  match l with
  | LPerm i => 0 <= i <= 511
  | LPermMod12 i => 0 <= i <= 511
  | LGrad3 gi => 0 <= gi <= 11
  end.

(** One octave of [fbm].  There is no one-dimensional branch: with [y]
    and [z] both [null] nothing is added to [value]. *)
Definition fbm_sample (Math : MathLib) (sn : t) (x : Q) (y z : option Q)
    (frequency : Q) : option (option Q) :=
  match z, y with
  | Some z, Some y =>
      Some (snd (noise3D sn (x * frequency) (y * frequency) (z * frequency)))
  | Some z, None =>
      Some (snd (noise3D sn (x * frequency) (0 * frequency) (z * frequency)))
  | None, Some y => Some (snd (noise2D Math sn (x * frequency) (y * frequency)))
  | None, None => None
  end.

Fixpoint fbm_loop (Math : MathLib) (sn : t) (octaves : nat) (x : Q) (y z : option Q)
    (lacunarity persistence : Q) (st : option Q * Q * Q * Q) : option Q * Q :=
  match octaves with
  | O => let '(value, _, _, maxValue) := st in (value, maxValue)
  | S n =>
      let '(value, amplitude, frequency, maxValue) := st in
      let value' :=
        match fbm_sample Math sn x y z frequency with
        | None => value
        | Some s =>
            match value, s with
            | Some v, Some s => Some (v + amplitude * s)%Q
            | _, _ => None
            end
        end in
      fbm_loop Math sn n x y z lacunarity persistence
        (value', amplitude * persistence, frequency * lacunarity, maxValue + amplitude)%Q
  end.

Definition fbm (Math : MathLib) (sn : t) (x : Q) (y z : option Q) (octaves : Z)
    (lacunarity persistence : Q) : option Q :=
  let '(value, maxValue) :=
    fbm_loop Math sn (Z.to_nat octaves) x y z lacunarity persistence
             (Some 0%Q, 1%Q, 1%Q, 0%Q) in
  match value with
  | Some v => if Qeq_bool maxValue 0 then None else Some (v / maxValue)%Q
  | None => None
  end.

End SimplexNoise.

(** ** The numbers of the code: binary64

    The code computes on IEEE 754 doubles.  Where rounding, overflow or
    NaN decide what a property says, the methods are written once more on
    binary64 numbers, operation by operation as the source has them. *)
Module F64.

(** The double nearest to an integer (ties to even) *)
Definition of_Z (z : Z) : float := SF2Prim (binary_normalize 53 1024 z 0 false).

(** [Math.floor]: NaN, the infinities and the zeros are returned as they
    are; a finite number [±m * 2^e] gives the integer [floor(±m * 2^e)],
    which is a double again. *)
Definition floor (x : float) : float :=
  match Prim2SF x with
  | S754_finite s m e => of_Z (Z.shiftl (if s then Z.neg m else Z.pos m) e)
  | _ => x
  end.

(** [Math.ceil(x)] is [-Math.floor(-x)]. *)
Definition ceil (x : float) : float := (- floor (- x))%float.

(** The integer part of a double, as the 32-bit coercions read it: NaN and
    the infinities read as 0. *)
Definition to_Z (x : float) : Z :=
  match Prim2SF x with
  | S754_finite s m e =>
      let a := Z.shiftl (Z.pos m) e in if s then - a else a
  | _ => 0
  end.

(** A number of the exact model as a double: the quotient of the doubles
    of its numerator and denominator *)
Definition of_Q (q : Q) : float := (of_Z (Qnum q) / of_Z (Z.pos (Qden q)))%float.

(** [ToNumber] of an array element *)
Definition of_Value (v : Value) : float :=
  match v with
  | VUndefined => nan
  | VNum q => of_Q q
  | VBool b => if b then 1%float else 0%float
  end.

End F64.

(** *** The facade on binary64 *)
Module PRNG64.

(** [this.generator.next()]: four generators divide the result of
    [nextInt()] by [4294967296]; [Xorshift128Plus] divides the word
    [this.s[0]], which is [undefined] in an empty array; [LCG] divides by
    its modulus. *)
Definition next (g : Generator) : float * Generator :=
  match g with
  | GXorshift128 g0 =>
      let g' := Xorshift128Plus.step g0 in
      (match Xorshift128Plus.s g' !! 0%nat with
       | Some w => (F64.of_Z w / 4294967296)%float
       | None => nan
       end, GXorshift128 g')
  | GLCG g0 =>
      let '(n, g') := LCG.nextInt g0 in
      ((F64.of_Z n / F64.of_Z (LCG.m g'))%float, GLCG g')
  | _ =>
      let '(n, g') := Gen.nextInt g in
      ((F64.of_Z n / 4294967296)%float, g')
  end.

Definition random : M float :=
  fun p =>
    let '(x, g') := next (generator p) in
    (Returns x, mkFacade g' (_spareNormal p) (_hasSpareNormal p)).

Definition int (min max : float) : M float :=
  let min := F64.ceil min in
  let max := F64.floor max in
  x <- random ;;
  ret (F64.floor (x * (max - min + 1)) + min)%float.

Definition float (min max : PrimFloat.float) : M PrimFloat.float :=
  x <- random ;; ret (min + x * (max - min))%float.

End PRNG64.

(** *** Doubles that are exact

    What the statements about exact arithmetic need of the format: the
    number of bits of a positive integer, the double of [±c * 2^t] for an
    integer [c] of at most 53 bits, and the double of an integer. *)
Definition nbits (p : positive) : Z := Z.pos (digits2_pos p).

Definition dyadic64 (s : bool) (c : positive) (t : Z) : spec_float :=
  S754_finite s (Z.to_pos (Z.pos c * 2 ^ (53 - nbits c))) (t + nbits c - 53).

Definition integer64 (z : Z) : spec_float := binary_normalize prec emax z 0 false.

(** [x] is the integer [z]; where [z] is 0 it may be either zero. *)
Definition is_int (x : float) (z : Z) : Prop :=
  Prim2SF x = integer64 z \/ (z = 0 /\ Prim2SF x = S754_zero true).

(** *** Value noise on binary64 *)
Module ValueNoise64.

Definition _fade (t : float) : float := (t * t * t * (t * (t * 6 - 15) + 10))%float.

Definition _lerp (a b t : float) : float := (a + t * (b - a))%float.

(** One round of the loop of [_hash]:
    [hash = this.permutation[(hash + c) & 255]] *)
Definition _hash_step (vn : ValueNoise.t) (hash : float) (c : Z) : float :=
  let idx := JS.and (F64.to_Z (hash + F64.of_Z c)) 255 in
  F64.of_Value (arr_get (ValueNoise.permutation vn) idx).

Definition _hash (vn : ValueNoise.t) (coords : list Z) : float :=
  (fold_left (_hash_step vn) coords 0 / 255)%float.

Definition noise1D (vn : ValueNoise.t) (x : float) : float :=
  let xi := JS.and (F64.to_Z (F64.floor x)) 255 in
  let xf := (x - F64.floor x)%float in
  let u := _fade xf in
  _lerp (_hash vn [xi]) (_hash vn [xi + 1]) u.

Definition noise2D (vn : ValueNoise.t) (x y : float) : float :=
  let xi := JS.and (F64.to_Z (F64.floor x)) 255 in
  let yi := JS.and (F64.to_Z (F64.floor y)) 255 in
  let xf := (x - F64.floor x)%float in
  let yf := (y - F64.floor y)%float in
  let u := _fade xf in
  let v := _fade yf in
  _lerp (_lerp (_hash vn [xi; yi]) (_hash vn [xi + 1; yi]) u)
        (_lerp (_hash vn [xi; yi + 1]) (_hash vn [xi + 1; yi + 1]) u)
        v.

Definition noise3D (vn : ValueNoise.t) (x y z : float) : float :=
  let xi := JS.and (F64.to_Z (F64.floor x)) 255 in
  let yi := JS.and (F64.to_Z (F64.floor y)) 255 in
  let zi := JS.and (F64.to_Z (F64.floor z)) 255 in
  let xf := (x - F64.floor x)%float in
  let yf := (y - F64.floor y)%float in
  let zf := (z - F64.floor z)%float in
  let u := _fade xf in
  let v := _fade yf in
  let w := _fade zf in
  _lerp
    (_lerp (_lerp (_hash vn [xi; yi; zi]) (_hash vn [xi + 1; yi; zi]) u)
           (_lerp (_hash vn [xi; yi + 1; zi]) (_hash vn [xi + 1; yi + 1; zi]) u)
           v)
    (_lerp (_lerp (_hash vn [xi; yi; zi + 1]) (_hash vn [xi + 1; yi; zi + 1]) u)
           (_lerp (_hash vn [xi; yi + 1; zi + 1]) (_hash vn [xi + 1; yi + 1; zi + 1]) u)
           v)
    w.

(** A number in the unit interval; NaN is not. *)
Definition in_unit_interval (v : float) : bool := ((0 <=? v) && (v <=? 1))%float.

End ValueNoise64.


(** ** Instances as objects

    The facade, its generator and a generator's [Uint32Array] are objects
    with identity.  A heap is the list of the objects allocated so far, a
    reference is an index into it; [new] appends, an assignment to a field
    or an element overwrites in place.  A draw reads the objects reachable
    from the facade, runs the method, and writes the fields back where they
    were read. *)
Module Heap.

Abbreviation loc := nat.

(** A generator object; the two array-based generators hold a reference
    to their words. *)
Inductive GenObj : Type :=
| OMulberry32 (g : Mulberry32.t)
| OXoshiro128 (originalSeed : Seed) (s : loc)
| OXorshift128 (originalSeed : Seed) (s : loc)
| OPCG32 (g : PCG32.t)
| OSFC32 (g : SFC32.t)
| OLCG (g : LCG.t).

Inductive cell : Type :=
| CArr (words : list Z)
| CGen (o : GenObj)
| CFacade (gen : loc) (_spareNormal : option Q) (_hasSpareNormal : bool).

Abbreviation heap := (list cell).

Definition alloc (h : heap) (c : cell) : loc * heap := (length h, h ++ [c]).

Definition read_arr (h : heap) (l : loc) : option (list Z) :=
  match h !! l with Some (CArr ws) => Some ws | _ => None end.

(** The generator that the object at [gl] is, with its words read through
    the reference *)
Definition load_gen (h : heap) (gl : loc) : option Generator :=
  match h !! gl with
  | Some (CGen (OMulberry32 g)) => Some (GMulberry32 g)
  | Some (CGen (OXoshiro128 sd sl)) =>
      ws ← read_arr h sl; Some (GXoshiro128 (Xoshiro128SS.mk sd ws))
  | Some (CGen (OXorshift128 sd sl)) =>
      ws ← read_arr h sl; Some (GXorshift128 (Xorshift128Plus.mk sd ws))
  | Some (CGen (OPCG32 g)) => Some (GPCG32 g)
  | Some (CGen (OSFC32 g)) => Some (GSFC32 g)
  | Some (CGen (OLCG g)) => Some (GLCG g)
  | _ => None
  end.

Definition load (h : heap) (p : loc) : option Facade :=
  match h !! p with
  | Some (CFacade gl spare has) =>
      g ← load_gen h gl; Some (mkFacade g spare has)
  | _ => None
  end.

(** The fields of the generator object at [gl] after a method ran: scalars
    are assigned in the object, words are assigned in the array the object
    refers to. *)
Definition store_gen (h : heap) (gl : loc) (g' : Generator) : option heap :=
  match h !! gl, g' with
  | Some (CGen (OMulberry32 _)), GMulberry32 g => Some (<[gl := CGen (OMulberry32 g)]> h)
  | Some (CGen (OXoshiro128 _ sl)), GXoshiro128 g =>
      Some (<[sl := CArr (Xoshiro128SS.s g)]>
              (<[gl := CGen (OXoshiro128 (Xoshiro128SS.originalSeed g) sl)]> h))
  | Some (CGen (OXorshift128 _ sl)), GXorshift128 g =>
      Some (<[sl := CArr (Xorshift128Plus.s g)]>
              (<[gl := CGen (OXorshift128 (Xorshift128Plus.originalSeed g) sl)]> h))
  | Some (CGen (OPCG32 _)), GPCG32 g => Some (<[gl := CGen (OPCG32 g)]> h)
  | Some (CGen (OSFC32 _)), GSFC32 g => Some (<[gl := CGen (OSFC32 g)]> h)
  | Some (CGen (OLCG _)), GLCG g => Some (<[gl := CGen (OLCG g)]> h)
  | _, _ => None
  end.

Definition store (h : heap) (p : loc) (f' : Facade) : option heap :=
  match h !! p with
  | Some (CFacade gl _ _) =>
      h1 ← store_gen h gl (generator f');
      Some (<[p := CFacade gl (_spareNormal f') (_hasSpareNormal f')]> h1)
  | _ => None
  end.

(** The objects of the instance at [p]: the facade, the generator it
    refers to, and the array the generator refers to, if any. *)
Definition footprint (h : heap) (p : loc) : list loc :=
  p :: match h !! p with
       | Some (CFacade gl _ _) =>
           gl :: match h !! gl with
                 | Some (CGen (OXoshiro128 _ sl)) => [sl]
                 | Some (CGen (OXorshift128 _ sl)) => [sl]
                 | _ => []
                 end
       | _ => []
       end.

(** [h'] differs from [h] at the objects of [L] at most. *)
Definition modifies (h h' : heap) (L : list loc) : Prop :=
  length h' = length h /\ forall l, l ∉ L -> h' !! l = h !! l.

(** A draw call on the instance at [p] *)
Definition draw (Math : MathLib) (fuel : nat) (d : Draw) (p : loc) (h : heap)
  : option (Result Out * heap) :=
  f ← load h p;
  let '(r, f') := run_draw Math fuel d f in
  h' ← store h p f';
  Some (r, h').

(** [new X(seed)] for the generator of an algorithm: the array-based
    constructors allocate their [Uint32Array] first. *)
Definition new_gen (h : heap) (a : Algorithm) (seed : Seed) : loc * heap :=
  match a with
  | AMulberry32 => alloc h (CGen (OMulberry32 (Mulberry32.new seed)))
  | AXoshiro128 =>
      let '(sl, h1) := alloc h (CArr (Uint32Array (cyrb128 (seedStr seed)))) in
      alloc h1 (CGen (OXoshiro128 seed sl))
  | AXorshift128 =>
      let '(sl, h1) := alloc h (CArr (Uint32Array (cyrb128 (seedStr seed)))) in
      alloc h1 (CGen (OXorshift128 seed sl))
  | APCG32 => alloc h (CGen (OPCG32 (PCG32.new seed 1)))
  | ASFC32 => alloc h (CGen (OSFC32 (SFC32.new seed)))
  | ALCG => alloc h (CGen (OLCG (LCG.new_default seed)))
  end.

(** [new PRNG(seed, algorithm)] *)
Definition new (h : heap) (seed : Seed) (key : string) : Result (loc * heap) :=
  match Gen.resolve key with
  | Some a =>
      let '(gl, h1) := new_gen h a seed in
      Returns (alloc h1 (CFacade gl None false))
  | None => Throws (PRNG.unknown_algorithm key)
  end.

(** [this.generator.clone()] for the generator object at [gl]: the
    constructor call, then the assignments to the fields of [cloned];
    [cloned.s = new Uint32Array(this.s)] allocates a second array and
    re-points the field. *)
Definition clone_gen (h : heap) (gl : loc) : option (loc * heap) :=
  match h !! gl with
  | Some (CGen (OMulberry32 g)) =>
      let '(o, h1) := alloc h (CGen (OMulberry32 (Mulberry32.new (SeedNum (Mulberry32.seed g))))) in
      Some (o, <[o := CGen (OMulberry32 (Mulberry32.clone g))]> h1)
  | Some (CGen (OXoshiro128 sd sl)) =>
      ws ← read_arr h sl;
      let '(o, h1) := new_gen h AXoshiro128 sd in
      let '(sl', h2) := alloc h1 (CArr (Uint32Array ws)) in
      Some (o, <[o := CGen (OXoshiro128 sd sl')]> h2)
  | Some (CGen (OXorshift128 sd sl)) =>
      ws ← read_arr h sl;
      let '(o, h1) := new_gen h AXorshift128 sd in
      let '(sl', h2) := alloc h1 (CArr (Uint32Array ws)) in
      Some (o, <[o := CGen (OXorshift128 sd sl')]> h2)
  | Some (CGen (OPCG32 g)) =>
      let '(o, h1) :=
        alloc h (CGen (OPCG32 (PCG32.new (PCG32.originalSeed g) (PCG32.originalSequence g)))) in
      Some (o, <[o := CGen (OPCG32 (PCG32.clone g))]> h1)
  | Some (CGen (OSFC32 g)) =>
      let '(o, h1) := alloc h (CGen (OSFC32 (SFC32.new (SFC32.originalSeed g)))) in
      Some (o, <[o := CGen (OSFC32 (SFC32.clone g))]> h1)
  | Some (CGen (OLCG g)) =>
      let '(o, h1) :=
        alloc h (CGen (OLCG (LCG.new (SeedNum (LCG.seed g)) (LCG.a g) (LCG.c g) (LCG.m g)))) in
      Some (o, <[o := CGen (OLCG (LCG.clone g))]> h1)
  | _ => None
  end.

(** [clone()] of the instance at [p]:
    [cloned = new PRNG(0, this.generator.name)], then
    [cloned.generator = this.generator.clone()] and the two cache fields. *)
Definition clone (h : heap) (p : loc) : option (Result (loc * heap)) :=
  match h !! p with
  | Some (CFacade gl spare has) =>
      g ← load_gen h gl;
      match new h (SeedNum 0) (Gen.name g) with
      | Returns (cloned, h1) =>
          '(gl', h2) ← clone_gen h1 gl;
          match h2 !! cloned with
          | Some (CFacade _ _ _) =>
              Some (Returns (cloned, <[cloned := CFacade gl' spare has]> h2))
          | _ => None
          end
      | Throws msg => Some (Throws msg)
      | OutOfFuel => Some OutOfFuel
      end
  | _ => None
  end.

(** A program that draws from several instances in some order *)
Fixpoint exec (Math : MathLib) (fuel : nat) (sched : list (loc * Draw)) (h : heap)
  : option (list (Result Out) * heap) :=
  match sched with
  | [] => Some ([], h)
  | (x, d) :: sched' =>
      '(r, h1) ← draw Math fuel d x h;
      '(rs, h2) ← exec Math fuel sched' h1;
      Some (r :: rs, h2)
  end.

(** The same program on two instances held as values, which share nothing
    by construction: [true] draws from the first, [false] from the second. *)
Fixpoint exec2 (Math : MathLib) (fuel : nat) (sched : list (bool * Draw))
    (fs : Facade * Facade) : list (Result Out) * (Facade * Facade) :=
  match sched with
  | [] => ([], fs)
  | (b, d) :: sched' =>
      let '(r, fs1) :=
        if b then let '(r, f') := run_draw Math fuel d (fst fs) in (r, (f', snd fs))
        else let '(r, f') := run_draw Math fuel d (snd fs) in (r, (fst fs, f')) in
      let '(rs, fs2) := exec2 Math fuel sched' fs1 in
      (r :: rs, fs2)
  end.

(** [new PRNG(seed, algorithm)] with its defaults: the clock is read
    where the seed is left out. *)
Definition construct (env : Env) (h : heap) (seed : option Seed)
    (algorithm : option string) : Result (loc * heap) :=
  new h (default (SeedNum (Date_now env)) seed) (default "xoshiro128"%string algorithm).

(** Any drawing method on the instance at [p] *)
Definition call (Math : MathLib) (MathX : MathExt) (fuel : nat) (c : Call) (p : loc)
    (h : heap) : option (Result Ret * heap) :=
  f ← load h p;
  let '(r, f') := run_call Math MathX fuel c f in
  h' ← store h p f';
  Some (r, h').

(** A program that calls methods of several instances in some order *)
Fixpoint run (Math : MathLib) (MathX : MathExt) (fuel : nat) (sched : list (loc * Call))
    (h : heap) : option (list (Result Ret) * heap) :=
  match sched with
  | [] => Some ([], h)
  | (x, c) :: sched' =>
      '(r, h1) ← call Math MathX fuel c x h;
      '(rs, h2) ← run Math MathX fuel sched' h1;
      Some (r :: rs, h2)
  end.

(** The same program on two instances held as values: [true] calls the
    first, [false] the second. *)
Fixpoint run2 (Math : MathLib) (MathX : MathExt) (fuel : nat) (sched : list (bool * Call))
    (fs : Facade * Facade) : list (Result Ret) * (Facade * Facade) :=
  match sched with
  | [] => ([], fs)
  | (b, c) :: sched' =>
      let '(r, fs1) :=
        if b then let '(r, f') := run_call Math MathX fuel c (fst fs) in (r, (f', snd fs))
        else let '(r, f') := run_call Math MathX fuel c (snd fs) in (r, (fst fs, f')) in
      let '(rs, fs2) := run2 Math MathX fuel sched' fs1 in
      (r :: rs, fs2)
  end.

End Heap.

(** ** Vocabulary of the proofs *)

(** A method preserves a property of the instance. *)
Definition preserves {A} (P : Facade -> Prop) (m : M A) : Prop :=
  forall p r p', m p = (r, p') -> P p -> P p'.

(** A method never throws. *)
Definition no_throw {A} (m : M A) : Prop :=
  forall p r p', m p = (r, p') -> forall msg, r <> Throws msg.

(** A number in the unit interval, where [None] is NaN *)
Definition unit_value (o : option Q) : Prop :=
  exists v, o = Some v /\ (0 <= v <= 1)%Q.

(** A traced computation has a result, made lookups in bounds only, and
    its result satisfies [R]. *)
Definition traced_ok {A} (m : SimplexNoise.T A) (R : A -> Prop) : Prop :=
  exists a, snd m = Some a /\ Forall SimplexNoise.in_bounds (fst m) /\ R a.

(** [h'] extends [h]: nothing allocated in [h] has changed. *)
Definition extends (h h' : list Heap.cell) : Prop :=
  (length h <= length h')%nat /\ forall l, (l < length h)%nat -> h' !! l = h !! l.

(** Between [h] and [h'] nothing was freed and the objects of the instance
    at [p] were not written; other objects may have changed, and new ones
    may have been allocated. *)
Definition untouched (h h' : list Heap.cell) (p : nat) : Prop :=
  (length h <= length h')%nat /\
  forall l, l ∈ Heap.footprint h p -> h' !! l = h !! l.

(** A heap with one instance on [xoshiro128**], as the constructor leaves
    it: the words, the generator, the facade. *)
Definition example_heap : list Heap.cell :=
  [ Heap.CArr (Uint32Array (cyrb128 "clone-test"));
    Heap.CGen (Heap.OXoshiro128 (SeedStr "clone-test") 0);
    Heap.CFacade 1 None false ].

(** The same heap after [new PRNG('same-seed', 'sfc32')] *)
Definition example_heap_two : list Heap.cell :=
  example_heap ++
  [ Heap.CGen (Heap.OSFC32 (SFC32.new (SeedStr "same-seed")));
    Heap.CFacade 3 None false ].

Definition example_heap_instance : Facade :=
  mkFacade (Gen.new AXoshiro128 (SeedStr "clone-test")) None false.

(** Two results of a noise function are the same number, or both NaN. *)
Definition same_number (a b : option Q) : Prop :=
  match a, b with
  | Some x, Some y => (x == y)%Q
  | None, None => True
  | _, _ => False
  end.

(** The shape of a version-4 UUID, position by position: hyphens at 8,
    13, 18 and 23, the digit 4 at 14, one of 8, 9, a, b at 19, and a
    lower-case hexadecimal digit everywhere else. *)
Definition is_hex_digit (c : ascii) : bool :=
  existsb (Ascii.eqb c) (list_ascii_of_string PRNG.hex).

Definition uuid_char_ok (i : nat) (c : ascii) : bool :=
  if (Nat.eqb i 8 || Nat.eqb i 13 || Nat.eqb i 18 || Nat.eqb i 23)%bool
  then Ascii.eqb c "-"
  else if Nat.eqb i 14 then Ascii.eqb c "4"
  else if Nat.eqb i 19 then existsb (Ascii.eqb c) (list_ascii_of_string "89ab")
  else is_hex_digit c.

Fixpoint uuid_chars_ok (i : nat) (l : list ascii) : bool :=
  match l with
  | [] => true
  | c :: r => uuid_char_ok i c && uuid_chars_ok (S i) r
  end.

Definition is_uuid_v4 (u : string) : Prop :=
  String.length u = 36%nat /\ uuid_chars_ok 0 (list_ascii_of_string u) = true.
(** ** Facts about the seed hashes and the key table *)

Lemma resolve_name (g : Generator) :
  Gen.resolve (Gen.name g) = Some (Gen.algorithm g).
Proof. destruct g; reflexivity. Qed.

Lemma algorithm_new (a : Algorithm) (seed : Seed) :
  Gen.algorithm (Gen.new a seed) = a.
Proof. destruct a; reflexivity. Qed.

Lemma seeded_with_inv seed key p :
  seeded_with seed key p ->
  exists a, Gen.resolve key = Some a /\ p = mkFacade (Gen.new a seed) None false.
Proof.
  intros [p' H | q p' H].
  - unfold PRNG.new in H; simpl in H.
    destruct (Gen.resolve key) as [a|]; [|discriminate].
    exists a; split; [reflexivity|congruence].
  - unfold PRNG.setSeed in H; simpl in H.
    destruct (Gen.resolve key) as [a|]; [|discriminate].
    exists a; split; [reflexivity|congruence].
Qed.

(** ** Facts about the integer coercions *)

Lemma ToUint32_range (x : Z) : uint32 (JS.ToUint32 x).
Proof. unfold uint32, JS.ToUint32. apply Z.mod_pos_bound. reflexivity. Qed.

Lemma ToUint32_id (x : Z) : uint32 x -> JS.ToUint32 x = x.
Proof. unfold uint32, JS.ToUint32. intros H. apply Z.mod_small. exact H. Qed.

Lemma ToUint32_le (x : Z) : 0 <= x -> JS.ToUint32 x <= x.
Proof.
  intros H. unfold JS.ToUint32.
  apply Z.mod_le; [exact H | reflexivity].
Qed.

Lemma Uint32Array_typed (xs : list Z) : Forall uint32 (Uint32Array xs).
Proof.
  unfold Uint32Array. induction xs as [|x xs IH]; simpl; constructor.
  - apply ToUint32_range.
  - exact IH.
Qed.

Lemma Uint32Array_id (xs : list Z) : Forall uint32 xs -> Uint32Array xs = xs.
Proof.
  unfold Uint32Array. induction 1 as [|x xs Hx _ IH]; simpl.
  - reflexivity.
  - rewrite ToUint32_id by exact Hx. rewrite IH. reflexivity.
Qed.

Lemma u32_set_typed (s : list Z) (i : nat) (v : Z) :
  Forall uint32 s -> Forall uint32 (u32_set s i v).
Proof.
  intros H. unfold u32_set. apply Forall_insert; [exact H | apply ToUint32_range].
Qed.

Lemma fl53_nonneg (z : Z) : 0 <= z -> 0 <= JS.fl53 z.
Proof.
  intros Hz. unfold JS.fl53.
  destruct (Z.abs z <? JS.two53); [exact Hz|].
  set (e := Z.log2 (Z.abs z) - 52).
  assert (H2 : 0 <= 2 ^ e) by (apply Z.pow_nonneg; lia).
  assert (Hq' : 0 <= Z.abs z / 2 ^ e).
  { destruct (Z.eq_dec (2 ^ e) 0) as [E|E].
    - rewrite E. rewrite Z.div_0_r. lia.
    - apply Z.div_pos; lia. }
  assert (Hs : 0 <= Z.sgn z) by lia.
  apply Z.mul_nonneg_nonneg; [exact Hs|].
  apply Z.mul_nonneg_nonneg; [|exact H2].
  repeat match goal with |- context [if ?b then _ else _] => destruct b end; lia.
Qed.

Lemma Q_unit_interval (n m : Z) :
  0 <= n < m -> (0 <= inject_Z n / inject_Z m /\ inject_Z n / inject_Z m < 1)%Q.
Proof.
  intros [H0 H1].
  assert (Hm : (0 < inject_Z m)%Q) by (unfold Qlt; simpl; lia).
  split.
  - apply Qle_shift_div_l; [exact Hm|].
    unfold Qle; simpl; lia.
  - apply Qlt_shift_div_r; [exact Hm|].
    unfold Qlt; simpl; lia.
Qed.

(** ** Facts about the generators *)

(** [next] and [nextInt] advance the state in the same way. *)
Lemma next_state (g : Generator) : snd (Gen.next g) = snd (Gen.nextInt g).
Proof. destruct g; reflexivity. Qed.

Lemma name_nextInt (g : Generator) : Gen.name (snd (Gen.nextInt g)) = Gen.name g.
Proof. destruct g; reflexivity. Qed.

Lemma algorithm_nextInt (g : Generator) :
  Gen.algorithm (snd (Gen.nextInt g)) = Gen.algorithm g.
Proof. destruct g; reflexivity. Qed.

Lemma typed_new (a : Algorithm) (seed : Seed) : typed (Gen.new a seed).
Proof.
  destruct a; simpl; try exact I; try apply Uint32Array_typed.
  - destruct seed; simpl; [|apply ToUint32_range].
    unfold stringToSeed. destruct (Nat.eqb _ 0); [split; [lia|reflexivity]|apply ToUint32_range].
  - destruct seed; simpl; [|apply ToUint32_range].
    unfold stringToSeed. destruct (Nat.eqb _ 0); [split; [lia|reflexivity]|apply ToUint32_range].
Qed.

Lemma typed_nextInt (g : Generator) : typed g -> typed (snd (Gen.nextInt g)).
Proof.
  destruct g as [g|g|g|g|g|g]; simpl; intros H; try exact H; try exact I.
  - unfold Xoshiro128SS.nextInt; simpl. repeat apply u32_set_typed. exact H.
  - unfold Xorshift128Plus.nextInt, Xorshift128Plus.step; simpl.
    repeat apply u32_set_typed. exact H.
Qed.

Lemma lcg_ok_new (a : Algorithm) (seed : Seed) : lcg_ok (Gen.new a seed).
Proof.
  destruct a; simpl; try exact I.
  assert (H : 0 <= numSeed seed).
  { destruct seed; simpl; [|apply ToUint32_range].
    unfold stringToSeed. destruct (Nat.eqb _ 0); [lia|apply ToUint32_range]. }
  repeat split; try exact H; lia.
Qed.

Lemma lcg_step_range (g : LCG.t) :
  lcg_ok (GLCG g) ->
  0 <= Z.rem (JS.add (JS.mul (LCG.a g) (LCG.state g)) (LCG.c g)) (LCG.m g) < LCG.m g.
Proof.
  simpl. intros (Hs & Ha & Hc & Hm).
  assert (H1 : 0 <= JS.mul (LCG.a g) (LCG.state g)).
  { apply fl53_nonneg. apply Z.mul_nonneg_nonneg; assumption. }
  assert (H2 : 0 <= JS.add (JS.mul (LCG.a g) (LCG.state g)) (LCG.c g)).
  { apply fl53_nonneg. lia. }
  rewrite Z.rem_mod_nonneg by lia.
  apply Z.mod_pos_bound. exact Hm.
Qed.

Lemma lcg_ok_nextInt (g : Generator) : lcg_ok g -> lcg_ok (snd (Gen.nextInt g)).
Proof.
  destruct g as [g|g|g|g|g|g]; simpl; try (intros; exact I).
  intros H. pose proof (lcg_step_range g H) as R.
  destruct H as (Hs & Ha & Hc & Hm). repeat split; try assumption. apply R.
Qed.

(** Every generator with sound [LCG] parameters returns a float in
    [[0, 1)]. *)
Lemma next_unit_interval (g : Generator) :
  lcg_ok g -> (0 <= fst (Gen.next g) /\ fst (Gen.next g) < 1)%Q.
Proof.
  intros H.
  destruct g as [g|g|g|g|g|g]; simpl.
  - apply Q_unit_interval. apply ToUint32_range.
  - apply Q_unit_interval. apply ToUint32_range.
  - unfold Xorshift128Plus.next; simpl. apply Q_unit_interval.
    unfold u32_set, u32_get.
    destruct (_ !! 0%nat) as [w|] eqn:E; simpl; [|split; [lia|reflexivity]].
    match type of E with
    | <[0%nat := ?v]> ?l !! 0%nat = _ =>
        destruct (decide (0 < length l)%nat) as [L|L];
        [rewrite list_lookup_insert_eq in E by exact L; injection E as <-;
         apply ToUint32_range
        |rewrite lookup_ge_None_2 in E by (rewrite length_insert; lia); discriminate]
    end.
  - apply Q_unit_interval. apply ToUint32_range.
  - apply Q_unit_interval. apply ToUint32_range.
  - pose proof (lcg_step_range g H) as R.
    apply Q_unit_interval. split; [apply ToUint32_range|].
    eapply Z.le_lt_trans; [apply ToUint32_le|]; apply R.
Qed.

Lemma nextInt_uint32 (g : Generator) : uint32 (fst (Gen.nextInt g)).
Proof.
  destruct g as [g|g|g|g|g|g]; simpl; apply ToUint32_range.
Qed.

(** *** Generators as constructed *)






(** [reset] reads the retained seed only, which no draw changes. *)
Lemma reset_nextInt (g : Generator) : Gen.reset (snd (Gen.nextInt g)) = Gen.reset g.
Proof. destruct g; reflexivity. Qed.

Lemma reset_new (a : Algorithm) (seed : Seed) : Gen.reset (Gen.new a seed) = Gen.new a seed.
Proof. destruct a; reflexivity. Qed.

(** ** Facts about methods *)

Lemma preserves_ret {A} (P : Facade -> Prop) (a : A) : preserves P (ret a).
Proof. intros p r p' H HP. injection H as _ <-. exact HP. Qed.

Lemma preserves_throw {A} (P : Facade -> Prop) (msg : string) :
  preserves P (@throw A msg).
Proof. intros p r p' H HP. injection H as _ <-. exact HP. Qed.

Lemma preserves_fuel {A} (P : Facade -> Prop) :
  preserves P (fun p => (@OutOfFuel A, p)).
Proof. intros p r p' H HP. injection H as _ <-. exact HP. Qed.

Lemma preserves_bind {A B} (P : Facade -> Prop) (m : M A) (k : A -> M B) :
  preserves P m -> (forall a, preserves P (k a)) -> preserves P (bind m k).
Proof.
  intros Hm Hk p r p' H HP. unfold bind in H.
  destruct (m p) as [[a|msg|] p1] eqn:E.
  - eapply Hk; [exact H|]. eapply Hm; eauto.
  - injection H as _ <-. eapply Hm; eauto.
  - injection H as _ <-. eapply Hm; eauto.
Qed.

Lemma preserves_if {A} (P : Facade -> Prop) (b : bool) (m1 m2 : M A) :
  preserves P m1 -> preserves P m2 -> preserves P (if b then m1 else m2).
Proof. destruct b; auto. Qed.

Section Stable.

(** A property of the generator that a raw draw keeps, read on the
    facade; the cache fields are free. *)
Variable Pg : Generator -> Prop.
Hypothesis Pg_nextInt : forall g, Pg g -> Pg (snd (Gen.nextInt g)).
Variable Math : MathLib.

Let P (p : Facade) : Prop := Pg (generator p).

Lemma preserves_random : preserves P PRNG.random.
Proof.
  intros p r p' H HP. unfold PRNG.random in H.
  pose proof (next_state (generator p)) as E.
  destruct (Gen.next (generator p)) as [x g']. injection H as _ <-.
  unfold P; simpl. simpl in E. subst g'. apply Pg_nextInt. exact HP.
Qed.

Lemma preserves_randomInt : preserves P PRNG.randomInt.
Proof.
  intros p r p' H HP. unfold PRNG.randomInt in H.
  pose proof (Pg_nextInt (generator p) HP) as E.
  destruct (Gen.nextInt (generator p)) as [x g']. injection H as _ <-.
  exact E.
Qed.

Lemma preserves_int (min max : Q) : preserves P (PRNG.int min max).
Proof.
  unfold PRNG.int. apply preserves_bind; [apply preserves_random|].
  intros a. apply preserves_ret.
Qed.

Lemma preserves_normal_pair (fuel : nat) : preserves P (PRNG.normal_pair fuel).
Proof.
  induction fuel as [|fuel IH]; simpl; [apply preserves_fuel|].
  apply preserves_bind; [apply preserves_random|]. intros r1.
  apply preserves_bind; [apply preserves_random|]. intros r2.
  apply preserves_if; [exact IH|apply preserves_ret].
Qed.

Lemma preserves_normal (fuel : nat) (mean stdDev : Q) :
  preserves P (PRNG.normal Math fuel mean stdDev).
Proof.
  intros p r p' H HP. unfold PRNG.normal in H.
  destruct (_hasSpareNormal p).
  - injection H as _ <-. exact HP.
  - unfold bind in H.
    destruct (PRNG.normal_pair fuel p) as [[[[u v] s]|msg|] p1] eqn:E;
      pose proof (preserves_normal_pair fuel _ _ _ E HP) as H1;
      injection H as _ <-; exact H1.
Qed.

Lemma preserves_binomial_loop (n : nat) (pr : Q) (k : Z) :
  preserves P (PRNG.binomial_loop n pr k).
Proof.
  revert k. induction n as [|n IH]; intros k; simpl; [apply preserves_ret|].
  apply preserves_bind; [apply preserves_random|]. intros x. apply IH.
Qed.

Lemma preserves_gamma_xv (fuel : nat) (c : Q) : preserves P (PRNG.gamma_xv Math fuel c).
Proof.
  induction fuel as [|fuel IH]; simpl; [apply preserves_fuel|].
  apply preserves_bind; [apply preserves_normal|]. intros x.
  apply preserves_if; [exact IH|apply preserves_ret].
Qed.

Lemma preserves_gamma_loop (fuel : nat) (d c scale : Q) :
  preserves P (PRNG.gamma_loop Math fuel d c scale).
Proof.
  induction fuel as [|fuel IH]; simpl; [apply preserves_fuel|].
  apply preserves_bind; [apply preserves_gamma_xv|]. intros [x v].
  apply preserves_bind; [apply preserves_random|]. intros u.
  apply preserves_if; [apply preserves_ret|].
  apply preserves_if; [apply preserves_ret|exact IH].
Qed.

Lemma preserves_gamma (fuel : nat) (shape scale : Q) :
  preserves P (PRNG.gamma Math fuel shape scale).
Proof.
  revert shape. induction fuel as [|fuel IH]; intros shape; simpl; [apply preserves_fuel|].
  apply preserves_if; [|apply preserves_gamma_loop].
  apply preserves_bind; [apply IH|]. intros g.
  apply preserves_bind; [apply preserves_random|]. intros u. apply preserves_ret.
Qed.

Lemma preserves_beta (fuel : nat) (alpha beta : Q) :
  preserves P (PRNG.beta Math fuel alpha beta).
Proof.
  unfold PRNG.beta. apply preserves_if; [apply preserves_throw|].
  apply preserves_bind; [apply preserves_gamma|]. intros g1.
  apply preserves_bind; [apply preserves_gamma|]. intros g2. apply preserves_ret.
Qed.

Lemma preserves_shuffle_from (i : nat) (array : list Value) :
  preserves P (PRNG.shuffle_from i array).
Proof.
  revert array. induction i as [|i IH]; intros array; simpl; [apply preserves_ret|].
  apply preserves_bind; [apply preserves_int|]. intros j. apply IH.
Qed.

Lemma preserves_run_draw (fuel : nat) (d : Draw) : preserves P (run_draw Math fuel d).
Proof.
  destruct d; simpl; unfold fmap_M;
    (apply preserves_bind; [|intros; apply preserves_ret]).
  - apply preserves_random.
  - apply preserves_randomInt.
  - unfold PRNG.float. apply preserves_bind; [apply preserves_random|].
    intros; apply preserves_ret.
  - apply preserves_int.
  - unfold PRNG.bool. apply preserves_bind; [apply preserves_random|].
    intros; apply preserves_ret.
  - unfold PRNG.sign, PRNG.bool.
    apply preserves_bind; [|intros; apply preserves_ret].
    apply preserves_bind; [apply preserves_random|]. intros; apply preserves_ret.
  - apply preserves_normal.
  - apply preserves_binomial_loop.
  - apply preserves_gamma.
  - apply preserves_beta.
  - apply preserves_shuffle_from.
  - unfold PRNG.pick. apply preserves_if; [apply preserves_ret|].
    apply preserves_bind; [apply preserves_int|]. intros; apply preserves_ret.
  - unfold PRNG.sample. apply preserves_bind; [apply preserves_shuffle_from|].
    intros; apply preserves_ret.
  - unfold PRNG.weightedPick. apply preserves_if; [apply preserves_throw|].
    apply preserves_bind; [apply preserves_random|]. intros; apply preserves_ret.
Qed.

Lemma preserves_draw_step (p p' : Facade) : draw_step Math p p' -> P p -> P p'.
Proof. intros (fuel & d & r & H). eapply preserves_run_draw; exact H. Qed.

(** *** The other drawing methods *)

Variable MathX : MathExt.

Ltac pres :=
  repeat first
    [ apply preserves_ret | apply preserves_throw | apply preserves_fuel
    | apply preserves_random | apply preserves_int | apply preserves_normal
    | apply preserves_shuffle_from | assumption
    | (apply preserves_bind; [|intros ?])
    | apply preserves_if ].

Lemma preserves_poisson_loop (fuel : nat) (L : Q) (k : Z) (q : Q) :
  preserves P (PRNG.poisson_loop fuel L k q).
Proof.
  revert k q. induction fuel as [|fuel IH]; intros k q; simpl; pres. apply IH.
Qed.

Lemma preserves_array_from {A} (n : nat) (generator : M A) :
  preserves P generator -> preserves P (PRNG.array_from n generator).
Proof. intros H. induction n as [|n IH]; simpl; pres. Qed.

Lemma preserves_uuid_from (n : nat) (i : Z) (uuid : string) :
  preserves P (PRNG.uuid_from n i uuid).
Proof.
  revert i uuid. induction n as [|n IH]; intros i uuid; simpl; pres; apply IH.
Qed.

Lemma preserves_string_loop (n : nat) (charset result : string) :
  preserves P (PRNG.string_loop n charset result).
Proof.
  revert result. induction n as [|n IH]; intros result; simpl; [pres|].
  unfold PRNG.char. pres. apply IH.
Qed.

Lemma preserves_run_call (fuel : nat) (c : Call) :
  preserves P (run_call Math MathX fuel c).
Proof.
  destruct c; simpl; unfold fmap_M;
    (apply preserves_bind; [|intros; apply preserves_ret]).
  - apply preserves_run_draw.
  - unfold PRNG.exponential. pres.
  - apply preserves_poisson_loop.
  - unfold PRNG.pareto. pres.
  - unfold PRNG.triangular. pres.
  - unfold PRNG.logNormal. pres.
  - unfold PRNG.weibull. pres.
  - unfold PRNG.cauchy. pres.
  - apply preserves_shuffle_from.
  - unfold PRNG.weightedPickObject, PRNG.weightedPick_keys. pres.
  - unfold PRNG.array. apply preserves_if; [apply preserves_throw|].
    apply preserves_array_from.
    match goal with |- preserves _ (match ?g with Some _ => _ | None => _ end) =>
      destruct g end.
    + apply preserves_run_draw.
    + pres.
  - unfold PRNG.pointInCircle. pres.
  - unfold PRNG.pointOnCircle. pres.
  - unfold PRNG.pointInSphere. pres.
  - unfold PRNG.pointOnSphere. pres.
  - unfold PRNG.direction2D. pres.
  - unfold PRNG.direction3D, PRNG.pointOnSphere. pres.
  - unfold PRNG.pointInRect. pres.
  - unfold PRNG.pointInBox. pres.
  - apply preserves_uuid_from.
  - unfold PRNG.color. pres.
  - unfold PRNG.colorRGB. pres.
  - unfold PRNG.colorHSL.
    repeat match goal with |- context [match ?o with Some _ => _ | None => _ end] =>
      destruct o end; pres.
  - unfold PRNG.char. pres.
  - apply preserves_string_loop.
Qed.

End Stable.

Lemma run_draws_steps (Math : MathLib) (fuel : nat) (ds : list Draw) (p : Facade) :
  rtc (draw_step Math) p (snd (run_draws Math fuel ds p)).
Proof.
  revert p. induction ds as [|d ds IH]; intros p; simpl; [apply rtc_refl|].
  destruct (run_draw Math fuel d p) as [r p1] eqn:E.
  assert (S1 : draw_step Math p p1) by (exists fuel, d, r; exact E).
  destruct r as [o|msg|]; simpl.
  - specialize (IH p1). destruct (run_draws Math fuel ds p1) as [rs p2]; simpl in *.
    eapply rtc_l; eauto.
  - specialize (IH p1). destruct (run_draws Math fuel ds p1) as [rs p2]; simpl in *.
    eapply rtc_l; eauto.
  - eapply rtc_l; [exact S1|apply rtc_refl].
Qed.

(** ** The state protocol *)

Lemma gen_setState_getState (g0 g : Generator) :
  typed g -> Gen.algorithm g0 = Gen.algorithm g ->
  Gen.setState g0 (Gen.getState g) = Restored g.
Proof.
  intros T E.
  destruct g as [g|g|g|g|g|g], g0 as [h|h|h|h|h|h]; try discriminate E;
    destruct g; simpl in *; try reflexivity.
  - rewrite Uint32Array_id by exact T. reflexivity.
  - rewrite Uint32Array_id by exact T. reflexivity.
Qed.

Lemma setState_getState (p q : Facade) :
  typed (generator p) -> PRNG.setState (PRNG.getState p) q = Restored p.
Proof.
  intros T. unfold PRNG.setState, PRNG.getState, PRNG.setSeed; simpl.
  rewrite resolve_name; simpl.
  rewrite gen_setState_getState; [destruct p; reflexivity|exact T|apply algorithm_new].
Qed.

(** C2. A state saved with [getState] and restored with [setState] (into
    the same instance, or any other) gives back the saved generator state
    and the saved NormalCache, so that every sequence of draws after the
    round trip returns what it returns without it. *)
Theorem C2_state_round_trip (Math : MathLib) (p q : Facade) :
  typed (generator p) ->
  exists p',
    PRNG.setState (PRNG.getState p) q = Restored p' /\
    _spareNormal p' = _spareNormal p /\
    _hasSpareNormal p' = _hasSpareNormal p /\
    forall (fuel : nat) (ds : list Draw),
      run_draws Math fuel ds p' = run_draws Math fuel ds p.
Proof.
  intros T. exists p. rewrite setState_getState by exact T. auto.
Qed.

Lemma C2_state_round_trip_witness :
  _hasSpareNormal example_saved_instance = true /\
  exists p',
    PRNG.setState (PRNG.getState example_saved_instance) example_saved_instance
      = Restored p' /\
    _spareNormal p' = _spareNormal example_saved_instance /\
    _hasSpareNormal p' = _hasSpareNormal example_saved_instance /\
    forall (fuel : nat) (ds : list Draw),
      run_draws example_Math fuel ds p' = run_draws example_Math fuel ds example_saved_instance.
Proof.
  split; [vm_compute; reflexivity|].
  apply (C2_state_round_trip example_Math example_saved_instance example_saved_instance).
  assert (E : generator example_saved_instance
              = GXoshiro128
                  (Xoshiro128SS.mk (SeedStr "state-test")
                     [1316159019; 1478257979; 588798322; 883485503]))
    by (vm_compute; reflexivity).
  rewrite E. simpl. repeat constructor; unfold JS.two32; lia.
Defined.

Lemma reset_draw_steps (Math : MathLib) (p0 p : Facade) :
  rtc (draw_step Math) p0 p ->
  Gen.reset (generator p) = Gen.reset (generator p0).
Proof.
  induction 1 as [p|p p1 p2 S _ IH]; [reflexivity|].
  rewrite IH.
  apply (preserves_draw_step (fun g => Gen.reset g = Gen.reset (generator p))
           (fun g E => eq_trans (reset_nextInt g) E) Math p p1 S).
  reflexivity.
Qed.

(** C3 (as the code has it). [reset] takes the instance back to the
    state it had right after it was last seeded, by the constructor or by
    [setSeed], whatever draws were made since; the seed of an earlier
    construction is not kept once [setSeed] has replaced the generator. *)
Theorem C3_reset_restores_last_seeding (Math : MathLib) (seed : Seed) (key : string)
    (p0 p : Facade) :
  seeded_with seed key p0 ->
  rtc (draw_step Math) p0 p ->
  PRNG.reset p = p0.
Proof.
  intros S H.
  destruct (seeded_with_inv _ _ _ S) as (a & _ & ->).
  unfold PRNG.reset. rewrite (reset_draw_steps Math _ _ H); simpl.
  rewrite reset_new. reflexivity.
Qed.

Lemma C3_reset_restores_last_seeding_witness :
  PRNG.reset
    (snd (run_draws example_Math 20 [DRandom; DInt 5 15; DNormal 100 15]
            (mkFacade (Gen.new AXoshiro128 (SeedStr "test-seed")) None false)))
  = mkFacade (Gen.new AXoshiro128 (SeedStr "test-seed")) None false.
Proof.
  apply (C3_reset_restores_last_seeding example_Math (SeedStr "test-seed") "xoshiro128").
  - apply seeded_new. vm_compute. reflexivity.
  - apply run_draws_steps.
Defined.

(** C3, the counterexample. An instance built from seed ["a"], reseeded
    with ["b"] and then reset draws the stream of ["b"], not the stream it
    drew after its construction. *)
Lemma C3_reset_keeps_reseed :
  ~ exists Math : MathLib, reset_restores_construction Math.
Proof.
  intros [Math H].
  specialize (H (SeedStr "a") "mulberry32"
                (mkFacade (Gen.new AMulberry32 (SeedStr "a")) None false)
                (mkFacade (Gen.new AMulberry32 (SeedStr "b")) None false)
                eq_refl).
  assert (R : rtc (facade_step Math)
                (mkFacade (Gen.new AMulberry32 (SeedStr "a")) None false)
                (mkFacade (Gen.new AMulberry32 (SeedStr "b")) None false)).
  { apply rtc_once. right. exists (SeedStr "b"), None. reflexivity. }
  specialize (H R 0%nat [DRandomInt]).
  vm_compute in H. discriminate H.
Qed.




(** ** Fork *)

(** C5. [fork(label)] makes one raw draw [n] from the parent, which
    advances the parent's generator by that draw and leaves its cache
    alone, and returns the facade that the constructor builds for the seed
    string [name_n_label] and the parent's own algorithm; the construction
    cannot fail, and the child is a function of the name, [n] and the
    label alone. *)
Theorem C5_fork (label : string) (p : Facade) :
  exists (n : Z) (child parent' : Facade),
    PRNG.fork label p = (Returns child, parent') /\
    PRNG.randomInt p = (Returns n, parent') /\
    parent' = mkFacade (snd (Gen.nextInt (generator p)))
                       (_spareNormal p) (_hasSpareNormal p) /\
    n = fst (Gen.nextInt (generator p)) /\
    PRNG.new (SeedStr (PRNG.derivedSeed (Gen.name (generator p)) n label))
             (Some (Gen.name (generator p))) = Returns child /\
    child = mkFacade
              (Gen.new (Gen.algorithm (generator p))
                 (SeedStr (PRNG.derivedSeed (Gen.name (generator p)) n label)))
              None false.
Proof.
  unfold PRNG.fork, bind, PRNG.randomInt, PRNG.new.
  pose proof (name_nextInt (generator p)) as N.
  destruct (Gen.nextInt (generator p)) as [n g'] eqn:E; simpl in *.
  rewrite N. rewrite resolve_name.
  eexists n, _, _. repeat split.
Qed.

(** ** Binary64: operations that do not round

    The operations of the format are specified on [spec_float]
    ([add_spec], [mul_spec], ...).  A positive integer of [d] bits is
    held as a 53-bit mantissa with the exponent [d - 53]; rounding a
    mantissa that ends in enough zeros is exact. *)

Lemma nbits_pos (p : positive) : 0 < nbits p.
Proof. unfold nbits. lia. Qed.

Lemma nbits_spec (p : positive) : 2 ^ (nbits p - 1) <= Z.pos p < 2 ^ nbits p.
Proof.
  unfold nbits. induction p as [p IH|p IH|]; cbn [digits2_pos].
  - rewrite Pos2Z.inj_succ.
    replace (Z.succ (Z.pos (digits2_pos p)) - 1) with (Z.succ (Z.pos (digits2_pos p) - 1)) by lia.
    rewrite !Z.pow_succ_r by lia. lia.
  - rewrite Pos2Z.inj_succ.
    replace (Z.succ (Z.pos (digits2_pos p)) - 1) with (Z.succ (Z.pos (digits2_pos p) - 1)) by lia.
    rewrite !Z.pow_succ_r by lia. lia.
  - simpl. lia.
Qed.

Lemma nbits_unique (p : positive) (d : Z) :
  2 ^ (d - 1) <= Z.pos p < 2 ^ d -> nbits p = d.
Proof.
  intros [L U]. pose proof (nbits_spec p) as [L' U']. pose proof (nbits_pos p).
  assert (0 < d).
  { destruct (Z.ltb_spec 0 d); [assumption|].
    assert (2 ^ d <= 2 ^ 0) by (apply Z.pow_le_mono_r; lia). simpl in *. lia. }
  destruct (Z.lt_trichotomy (nbits p) d) as [C|[C|C]]; [|exact C|].
  - assert (2 ^ nbits p <= 2 ^ (d - 1)) by (apply Z.pow_le_mono_r; lia). lia.
  - assert (2 ^ d <= 2 ^ (nbits p - 1)) by (apply Z.pow_le_mono_r; lia). lia.
Qed.

Lemma nbits_mul_pow2 (p q : positive) (k : Z) :
  0 <= k -> Z.pos q = Z.pos p * 2 ^ k -> nbits q = nbits p + k.
Proof.
  intros Hk E. apply nbits_unique. rewrite E.
  pose proof (nbits_spec p) as [L U]. pose proof (nbits_pos p).
  replace (nbits p + k - 1) with (nbits p - 1 + k) by lia.
  rewrite !Z.pow_add_r by lia.
  assert (0 < 2 ^ k) by (apply Z.pow_pos_nonneg; lia).
  split; nia.
Qed.

Lemma pow2_xO (n : positive) : 2 ^ Z.pos n~0 = 2 ^ Z.pos n * 2 ^ Z.pos n.
Proof. rewrite <- Z.pow_add_r by lia. f_equal. lia. Qed.

Lemma pow2_xI (n : positive) : 2 ^ Z.pos n~1 = 2 * (2 ^ Z.pos n * 2 ^ Z.pos n).
Proof.
  rewrite <- Z.pow_add_r by lia. rewrite <- Z.pow_succ_r by lia. f_equal. lia.
Qed.

Lemma iter_shr_exact (n : positive) :
  forall m q : positive,
    Z.pos q = Z.pos m * 2 ^ Z.pos n ->
    SpecFloat.iter_pos shr_1 n {| shr_m := Z.pos q; shr_r := false; shr_s := false |}
    = {| shr_m := Z.pos m; shr_r := false; shr_s := false |}.
Proof.
  induction n as [n IH|n IH|]; intros m q E.
  - cbn [SpecFloat.iter_pos]. rewrite pow2_xI in E.
    assert (P : 0 < 2 ^ Z.pos n) by (apply Z.pow_pos_nonneg; lia).
    destruct q as [q|q|]; try lia.
    cbn [shr_1 orb].
    rewrite (IH (Z.to_pos (Z.pos m * 2 ^ Z.pos n)) q).
    + apply IH. rewrite Z2Pos.id by nia. reflexivity.
    + rewrite Z2Pos.id by nia. nia.
  - cbn [SpecFloat.iter_pos]. rewrite pow2_xO in E.
    assert (P : 0 < 2 ^ Z.pos n) by (apply Z.pow_pos_nonneg; lia).
    rewrite (IH (Z.to_pos (Z.pos m * 2 ^ Z.pos n)) q).
    + apply IH. rewrite Z2Pos.id by nia. reflexivity.
    + rewrite Z2Pos.id by nia. nia.
  - cbn [SpecFloat.iter_pos]. change (2 ^ 1) with 2 in E.
    destruct q as [q|q|]; try lia. cbn [shr_1 orb]. f_equal. lia.
Qed.

Lemma fexp_normal (e : Z) : -1074 <= e - 53 -> fexp prec emax e = e - 53.
Proof. intros H. unfold fexp, SpecFloat.emin, prec, emax. lia. Qed.

Lemma shr_fexp_exact (c q : positive) (e n : Z) :
  nbits c = 53 -> 0 <= n -> Z.pos q = Z.pos c * 2 ^ n -> -1074 <= e + n ->
  shr_fexp prec emax (Z.pos q) e loc_Exact
  = ({| shr_m := Z.pos c; shr_r := false; shr_s := false |}, e + n).
Proof.
  intros Hc Hn E He. unfold shr_fexp. cbn [Zdigits2 shr_record_of_loc].
  fold (nbits q). rewrite (nbits_mul_pow2 c q n Hn E), Hc.
  rewrite fexp_normal by lia.
  replace (53 + n + e - 53 - e) with n by lia.
  unfold shr. destruct n as [|n|n]; try lia.
  - rewrite Z.add_0_r. f_equal. f_equal. simpl in E. lia.
  - rewrite (iter_shr_exact n c q E). reflexivity.
Qed.

Lemma round_aux_exact (s : bool) (c q : positive) (e n : Z) :
  nbits c = 53 -> 0 <= n -> Z.pos q = Z.pos c * 2 ^ n ->
  -1074 <= e + n -> e + n <= 971 ->
  binary_round_aux prec emax s (Z.pos q) e loc_Exact = S754_finite s c (e + n).
Proof.
  intros Hc Hn E He Hm. unfold binary_round_aux.
  rewrite (shr_fexp_exact c q e n Hc Hn E He).
  cbn [shr_m loc_of_shr_record round_nearest_even].
  rewrite (shr_fexp_exact c c (e + n) 0 Hc ltac:(lia) ltac:(simpl; lia) ltac:(lia)).
  cbn [shr_m]. rewrite Z.add_0_r.
  unfold prec, emax. destruct (Z.leb_spec (e + n) (1024 - 53)); [reflexivity|lia].
Qed.

Lemma dyadic64_mantissa (c : positive) :
  nbits c <= 53 ->
  Z.pos (Z.to_pos (Z.pos c * 2 ^ (53 - nbits c))) = Z.pos c * 2 ^ (53 - nbits c) /\
  nbits (Z.to_pos (Z.pos c * 2 ^ (53 - nbits c))) = 53.
Proof.
  intros H. assert (P : 0 < 2 ^ (53 - nbits c)) by (apply Z.pow_pos_nonneg; lia).
  assert (E : Z.pos (Z.to_pos (Z.pos c * 2 ^ (53 - nbits c))) = Z.pos c * 2 ^ (53 - nbits c))
    by (rewrite Z2Pos.id by nia; reflexivity).
  split; [exact E|].
  rewrite (nbits_mul_pow2 c _ (53 - nbits c) ltac:(lia) E). lia.
Qed.

Lemma Pos_iter_xO (d m : positive) : Z.pos (Pos.iter xO m d) = Z.pos m * 2 ^ Z.pos d.
Proof.
  induction d as [|d IH] using Pos.peano_ind.
  - simpl. lia.
  - rewrite Pos.iter_succ, Pos2Z.inj_xO, IH, Pos2Z.inj_succ, Z.pow_succ_r by lia. lia.
Qed.

(** [binary_round] of [±q * 2^e], where [q = c * 2^k] and [c] has at most
    53 bits, is the double of [±c * 2^(e + k)]. *)
Lemma binary_round_exact (s : bool) (c q : positive) (e k : Z) :
  nbits c <= 53 -> 0 <= k -> Z.pos q = Z.pos c * 2 ^ k ->
  -1074 <= e + k + nbits c - 53 -> e + k + nbits c - 53 <= 971 ->
  binary_round prec emax s q e = dyadic64 s c (e + k).
Proof.
  intros Hc Hk E He Hm. unfold binary_round, dyadic64.
  destruct (dyadic64_mantissa c Hc) as [Em Dm].
  set (m := Z.to_pos (Z.pos c * 2 ^ (53 - nbits c))) in *.
  fold (nbits q). pose proof (nbits_mul_pow2 c q k Hk E) as Dq. rewrite Dq.
  rewrite fexp_normal by lia.
  unfold shl_align.
  assert (P : 0 < 2 ^ k) by (apply Z.pow_pos_nonneg; lia).
  destruct (nbits c + k + e - 53 - e) as [|d|d] eqn:Ed.
  - (* already 53 bits *)
    replace (e + k + nbits c - 53) with (e + 0) by lia.
    apply round_aux_exact; try lia.
    rewrite Em, E. replace (53 - nbits c) with k by lia. simpl (2 ^ 0). lia.
  - (* more than 53 bits: shift right *)
    replace (e + k + nbits c - 53) with (e + Z.pos d) by lia.
    apply round_aux_exact; try lia.
    rewrite Em, E. replace k with (53 - nbits c + Z.pos d) at 1 by lia.
    rewrite Z.pow_add_r by lia. lia.
  - (* fewer than 53 bits: shift left *)
    replace (e + k + nbits c - 53) with (nbits c + k + e - 53 + 0) by lia.
    apply round_aux_exact; try lia.
    rewrite Pos_iter_xO, Em, E. simpl (2 ^ 0). rewrite Z.mul_1_r.
    replace (53 - nbits c) with (k + Z.pos d) by lia.
    rewrite Z.pow_add_r by lia. lia.
Qed.





(** *** Integers as doubles *)

Lemma nbits_le_53 (p : positive) : Z.pos p < 2 ^ 53 -> nbits p <= 53.
Proof.
  intros H. pose proof (nbits_spec p) as [L _]. pose proof (nbits_pos p).
  destruct (Z.leb_spec (nbits p) 53) as [C|C]; [exact C|exfalso].
  assert (2 ^ 53 <= 2 ^ (nbits p - 1)) by (apply Z.pow_le_mono_r; lia). lia.
Qed.

Lemma integer64_nonzero (z : Z) :
  z <> 0 -> Z.abs z < 2 ^ 53 -> integer64 z = dyadic64 (z <? 0) (Z.to_pos (Z.abs z)) 0.
Proof.
  intros N B. unfold integer64, binary_normalize.
  destruct z as [|p|p]; [congruence| |]; cbn [Z.abs Z.to_pos Z.ltb Z.compare].
  - pose proof (nbits_le_53 p B). pose proof (nbits_pos p).
    rewrite (binary_round_exact false p p 0 0); [reflexivity|lia|lia|simpl; lia|lia|lia].
  - pose proof (nbits_le_53 p B). pose proof (nbits_pos p).
    rewrite (binary_round_exact true p p 0 0); [reflexivity|lia|lia|simpl; lia|lia|lia].
Qed.






Lemma dyadic64_valid (s : bool) (c : positive) (t : Z) :
  nbits c <= 53 -> -1074 <= t + nbits c - 53 -> t + nbits c - 53 <= 971 ->
  valid_binary (dyadic64 s c t) = true.
Proof.
  intros Hc He Hm. unfold dyadic64. destruct (dyadic64_mantissa c Hc) as [_ Dm].
  cbn [SpecFloat.valid_binary]. unfold bounded, canonical_mantissa.
  fold (nbits (Z.to_pos (Z.pos c * 2 ^ (53 - nbits c)))). rewrite Dm.
  rewrite fexp_normal by lia.
  apply andb_true_intro. split.
  - apply Z.eqb_eq. lia.
  - apply Z.leb_le. unfold prec, emax. lia.
Qed.

Lemma integer64_valid (z : Z) : Z.abs z < 2 ^ 53 -> valid_binary (integer64 z) = true.
Proof.
  intros B. destruct (Z.eq_dec z 0) as [->|N]; [reflexivity|].
  rewrite (integer64_nonzero z N B).
  assert (Ep : Z.pos (Z.to_pos (Z.abs z)) = Z.abs z) by (rewrite Z2Pos.id by lia; reflexivity).
  pose proof (nbits_pos (Z.to_pos (Z.abs z))).
  apply dyadic64_valid; [apply nbits_le_53; lia|lia|].
  pose proof (nbits_le_53 (Z.to_pos (Z.abs z)) ltac:(lia)). lia.
Qed.


Lemma Prim2SF_of_Z (z : Z) : Z.abs z < 2 ^ 53 -> Prim2SF (F64.of_Z z) = integer64 z.
Proof. intros B. apply Prim2SF_SF2Prim. apply (integer64_valid z B). Qed.

Lemma is_int_of_Z (z : Z) : Z.abs z < 2 ^ 53 -> is_int (F64.of_Z z) z.
Proof. intros B. left. apply Prim2SF_of_Z. exact B. Qed.









(** ** Uniform integers *)

Lemma random_spec (p : Facade) :
  PRNG.random p =
  (Returns (fst (Gen.next (generator p))),
   mkFacade (snd (Gen.next (generator p))) (_spareNormal p) (_hasSpareNormal p)).
Proof. unfold PRNG.random. destruct (Gen.next (generator p)); reflexivity. Qed.

(** [floor(x * n)] for [x] in [[0, 1)] and a positive integer [n] *)
Lemma floor_scaled (x : Q) (n : Z) :
  (0 <= x)%Q -> (x < 1)%Q -> 0 < n -> 0 <= Qfloor (x * inject_Z n) <= n - 1.
Proof.
  intros H0 H1 Hn.
  assert (Hq : (0 < inject_Z n)%Q) by (unfold Qlt; simpl; lia).
  split.
  - change 0 with (Qfloor 0). apply Qfloor_resp_le.
    apply Qmult_le_0_compat; [exact H0|apply Qlt_le_weak; exact Hq].
  - assert (L : (inject_Z (Qfloor (x * inject_Z n)) < inject_Z n)%Q).
    { eapply Qle_lt_trans; [apply Qfloor_le|].
      rewrite <- (Qmult_1_l (inject_Z n)) at 2.
      apply Qmult_lt_compat_r; assumption. }
    rewrite <- Zlt_Qlt in L. lia.
Qed.

Lemma int_spec (p : Facade) (min max : Q) :
  PRNG.int min max p =
  (Returns (Qfloor (fst (Gen.next (generator p))
                    * inject_Z (Qfloor max - Qceiling min + 1)) + Qceiling min),
   mkFacade (snd (Gen.next (generator p))) (_spareNormal p) (_hasSpareNormal p)).
Proof. unfold PRNG.int, bind. rewrite random_spec. reflexivity. Qed.



(** [Math.floor] and [Math.ceil] of a finite double are integers. *)
Lemma floor_is_int (x : float) (z : Z) :
  match Prim2SF x with
  | S754_finite s m e => z = Z.shiftl (if s then Z.neg m else Z.pos m) e
  | S754_zero _ => z = 0
  | _ => False
  end ->
  Z.abs z < 2 ^ 53 ->
  is_int (F64.floor x) z.
Proof.
  intros H B. unfold F64.floor.
  destruct (Prim2SF x) as [s|s| |s m e] eqn:E; try contradiction.
  - subst z. unfold is_int. rewrite E. destruct s; [right|left]; auto.
  - subst z. apply is_int_of_Z. exact B.
Qed.

Lemma opp_is_int (x : float) (z : Z) :
  is_int x z -> Z.abs z < 2 ^ 53 -> is_int (- x) (- z).
Proof.
  intros [H|[-> H]] B; unfold is_int; rewrite opp_spec, H.
  - destruct (Z.eq_dec z 0) as [->|N]; [right; split; reflexivity|left].
    rewrite (integer64_nonzero z N B), (integer64_nonzero (- z)) by lia.
    unfold dyadic64. cbn [SFopp].
    replace (Z.abs (- z)) with (Z.abs z) by lia.
    f_equal. destruct (Z.ltb_spec z 0), (Z.ltb_spec (- z) 0); try reflexivity; lia.
  - left. reflexivity.
Qed.

Lemma ceil_is_int (x : float) (z : Z) :
  match Prim2SF x with
  | S754_finite s m e => z = - Z.shiftl (if s then Z.pos m else Z.neg m) e
  | S754_zero _ => z = 0
  | _ => False
  end ->
  Z.abs z < 2 ^ 53 ->
  is_int (F64.ceil x) z.
Proof.
  intros H B. unfold F64.ceil.
  replace z with (- - z) by lia. apply opp_is_int; [|lia].
  apply floor_is_int; [|lia]. rewrite opp_spec.
  destruct (Prim2SF x) as [s|s| |s m e]; try contradiction; cbn [SFopp].
  - lia.
  - subst z. destruct s; cbn [negb]; lia.
Qed.




(** Beyond [2^21] integers the product [random() * (max - min + 1)] is
    rounded before the floor is taken: [int(1, 1e15)] on the first draw of
    [mulberry32] seeded with ['seed-36'] is one more than the floor of the
    exact product. *)
Lemma int_wide_range_rounds :
  let p := mkFacade (Gen.new AMulberry32 (SeedStr "seed-36")) None false in
  fst (PRNG64.int 1 1e15 p) = Returns 629118223907427%float /\
  fst (PRNG.int 1 1000000000000000 p) = Returns 629118223907426.
Proof. split; vm_compute; reflexivity. Qed.

(** On the first draws of an instance, [int(5, 15)] on binary64 and on
    exact numbers return the same integers. *)
Lemma int_models_agree_on_samples :
  let fix go (k : nat) (p : Facade) : bool :=
    match k with
    | O => true
    | S k' =>
        match PRNG64.int 5 15 p, PRNG.int 5 15 p with
        | (Returns v, _), (Returns w, p') => (v =? F64.of_Z w)%float && go k' p'
        | _, _ => false
        end
    end in
  forallb (fun a => go 64%nat (mkFacade (Gen.new a (SeedStr "test-seed")) None false))
    [AMulberry32; AXoshiro128; AXorshift128; APCG32; ASFC32; ALCG] = true.
Proof. vm_compute. reflexivity. Qed.

(** ** Configuration errors *)

Lemma resolve_None_iff (key : string) :
  Gen.resolve key = None <-> JS.toLowerCase key ∉ supported_keys.
Proof.
  unfold Gen.resolve, supported_keys.
  generalize (JS.toLowerCase key) as k. intros k.
  repeat match goal with
         | |- context [String.eqb k ?s] =>
             let E := fresh "E" in
             destruct (String.eqb_spec k s) as [E|E]; [rewrite E|]
         end; simpl; try (split; [discriminate|intros H; exfalso; apply H; set_solver]).
  split; [|reflexivity]. intros _. set_solver.
Qed.

Lemma no_throw_ret {A} (a : A) : no_throw (ret a).
Proof. intros p r p' H msg. injection H as <- _. discriminate. Qed.

Lemma no_throw_fuel {A} : no_throw (fun p => (@OutOfFuel A, p)).
Proof. intros p r p' H msg. injection H as <- _. discriminate. Qed.

Lemma no_throw_bind {A B} (m : M A) (k : A -> M B) :
  no_throw m -> (forall a, no_throw (k a)) -> no_throw (bind m k).
Proof.
  intros Hm Hk p r p' H msg. unfold bind in H.
  destruct (m p) as [[a|msg'|] p1] eqn:E.
  - eapply Hk; exact H.
  - exfalso. eapply Hm; [exact E|reflexivity].
  - injection H as <- _. discriminate.
Qed.

Lemma no_throw_if {A} (b : bool) (m1 m2 : M A) :
  no_throw m1 -> no_throw m2 -> no_throw (if b then m1 else m2).
Proof. destruct b; auto. Qed.

Lemma no_throw_random : no_throw PRNG.random.
Proof. intros p r p' H msg. rewrite random_spec in H. injection H as <- _. discriminate. Qed.

Lemma no_throw_normal_pair (fuel : nat) : no_throw (PRNG.normal_pair fuel).
Proof.
  induction fuel as [|fuel IH]; simpl; [apply no_throw_fuel|].
  apply no_throw_bind; [apply no_throw_random|]. intros r1.
  apply no_throw_bind; [apply no_throw_random|]. intros r2.
  apply no_throw_if; [exact IH|apply no_throw_ret].
Qed.

Lemma no_throw_normal (Math : MathLib) (fuel : nat) (mean stdDev : Q) :
  no_throw (PRNG.normal Math fuel mean stdDev).
Proof.
  intros p r p' H msg. unfold PRNG.normal in H.
  destruct (_hasSpareNormal p).
  - injection H as <- _. discriminate.
  - unfold bind in H.
    destruct (PRNG.normal_pair fuel p) as [[[[u v] s]|msg'|] p1] eqn:E.
    + injection H as <- _. discriminate.
    + exfalso. eapply no_throw_normal_pair; [exact E|reflexivity].
    + injection H as <- _. discriminate.
Qed.

Lemma no_throw_gamma_xv (Math : MathLib) (fuel : nat) (c : Q) :
  no_throw (PRNG.gamma_xv Math fuel c).
Proof.
  induction fuel as [|fuel IH]; simpl; [apply no_throw_fuel|].
  apply no_throw_bind; [apply no_throw_normal|]. intros x.
  apply no_throw_if; [exact IH|apply no_throw_ret].
Qed.

Lemma no_throw_gamma_loop (Math : MathLib) (fuel : nat) (d c scale : Q) :
  no_throw (PRNG.gamma_loop Math fuel d c scale).
Proof.
  induction fuel as [|fuel IH]; simpl; [apply no_throw_fuel|].
  apply no_throw_bind; [apply no_throw_gamma_xv|]. intros [x v].
  apply no_throw_bind; [apply no_throw_random|]. intros u.
  apply no_throw_if; [apply no_throw_ret|].
  apply no_throw_if; [apply no_throw_ret|exact IH].
Qed.

Lemma no_throw_gamma (Math : MathLib) (fuel : nat) (shape scale : Q) :
  no_throw (PRNG.gamma Math fuel shape scale).
Proof.
  revert shape. induction fuel as [|fuel IH]; intros shape; simpl; [apply no_throw_fuel|].
  apply no_throw_if; [|apply no_throw_gamma_loop].
  apply no_throw_bind; [apply IH|]. intros g.
  apply no_throw_bind; [apply no_throw_random|]. intros u. apply no_throw_ret.
Qed.

(** C7. The three configuration errors are thrown exactly on their
    conditions and before anything is drawn: [new] and [setSeed] throw iff
    the lower-cased key is none of the case labels; [weightedPick] throws
    iff the two lengths differ; [beta] throws iff a shape parameter is not
    positive; and a call that throws leaves the instance as it was. *)
Theorem C7_configuration_errors (Math : MathLib) :
  (forall (seed : Seed) (key : string),
      (exists msg, PRNG.new seed (Some key) = Throws msg) <->
      JS.toLowerCase key ∉ supported_keys) /\
  (forall (seed : Seed) (key : string) (p : Facade),
      (exists msg p', PRNG.setSeed seed (Some key) p = (Throws msg, p')) <->
      JS.toLowerCase key ∉ supported_keys) /\
  (forall (seed : Seed) (algorithm : option string) (p p' : Facade) (msg : string),
      PRNG.setSeed seed algorithm p = (Throws msg, p') -> p' = p) /\
  (forall (items : list Value) (weights : list Q) (p : Facade),
      (exists msg p', PRNG.weightedPick items weights p = (Throws msg, p')) <->
      length items <> length weights) /\
  (forall (items : list Value) (weights : list Q) (p p' : Facade) (msg : string),
      PRNG.weightedPick items weights p = (Throws msg, p') -> p' = p) /\
  (forall (fuel : nat) (alpha beta : Q) (p : Facade),
      (exists msg p', PRNG.beta Math fuel alpha beta p = (Throws msg, p')) <->
      (alpha <= 0 \/ beta <= 0)%Q) /\
  (forall (fuel : nat) (alpha beta : Q) (p p' : Facade) (msg : string),
      PRNG.beta Math fuel alpha beta p = (Throws msg, p') -> p' = p).
Proof.
  repeat apply conj.
  - intros seed key. rewrite <- resolve_None_iff. unfold PRNG.new; simpl.
    destruct (Gen.resolve key).
    + split; [intros [msg H]; discriminate H|discriminate].
    + split; [reflexivity|]. intros _. eexists; reflexivity.
  - intros seed key p. rewrite <- resolve_None_iff. unfold PRNG.setSeed; simpl.
    destruct (Gen.resolve key).
    + split; [intros (msg & p' & H); discriminate H|discriminate].
    + split; [reflexivity|]. intros _. eexists _, _; reflexivity.
  - intros seed algorithm p p' msg. unfold PRNG.setSeed.
    destruct (Gen.resolve _); [discriminate|]. intros H. injection H as _ <-. reflexivity.
  - intros items weights p. unfold PRNG.weightedPick.
    destruct (Nat.eqb_spec (length items) (length weights)) as [E|N]; simpl.
    + split; [|intros H; exfalso; exact (H E)].
      intros (msg & p' & H). unfold bind in H. rewrite random_spec in H. discriminate H.
    + split; [intros _; exact N|]. intros _. eexists _, _; reflexivity.
  - intros items weights p p' msg. unfold PRNG.weightedPick.
    destruct (negb _).
    + intros H. injection H as _ <-. reflexivity.
    + unfold bind. rewrite random_spec. discriminate.
  - intros fuel alpha beta p. unfold PRNG.beta.
    rewrite <- !Qle_bool_iff.
    destruct (Qle_bool alpha 0) eqn:Ea, (Qle_bool beta 0) eqn:Eb; simpl;
      try (split; [auto|intros _; eexists _, _; reflexivity]).
    split; [|intros [H|H]; discriminate H].
    intros (msg & p' & H). exfalso. revert H.
    match goal with
    | |- ?m p = _ -> _ => assert (N : no_throw m); [|intros H; exact (N _ _ _ H msg eq_refl)]
    end.
    apply no_throw_bind; [apply no_throw_gamma|]. intros g1.
    apply no_throw_bind; [apply no_throw_gamma|]. intros g2. apply no_throw_ret.
  - intros fuel alpha beta p p' msg. unfold PRNG.beta.
    destruct (_ || _)%bool.
    + intros H. injection H as _ <-. reflexivity.
    + intros H. exfalso. revert H.
      match goal with
      | |- ?m p = _ -> _ => assert (N : no_throw m); [|intros H; exact (N _ _ _ H msg eq_refl)]
      end.
      apply no_throw_bind; [apply no_throw_gamma|]. intros g1.
      apply no_throw_bind; [apply no_throw_gamma|]. intros g2. apply no_throw_ret.
Qed.

(** ** Shuffling *)

Lemma int_range (p : Facade) (lo hi : Z) (x : Q) :
  (0 <= x)%Q -> (x < 1)%Q -> lo <= hi ->
  lo <= Qfloor (x * inject_Z (hi - lo + 1)) + lo <= hi.
Proof.
  intros H0 H1 H. pose proof (floor_scaled x (hi - lo + 1) H0 H1 ltac:(lia)). lia.
Qed.

Lemma arr_get_Forall (P : Value -> Prop) (a : list Value) (j : Z) :
  Forall P a -> 0 <= j < Z.of_nat (length a) -> P (arr_get a j).
Proof.
  intros HP Hj. unfold arr_get.
  destruct (Z.ltb_spec j 0); [lia|].
  destruct (a !! Z.to_nat j) as [v|] eqn:E; simpl.
  - rewrite Forall_lookup in HP. eapply HP; exact E.
  - apply lookup_ge_None_1 in E. lia.
Qed.

Lemma arr_set_in_range (a : list Value) (j : Z) (v : Value) :
  0 <= j < Z.of_nat (length a) -> arr_set a j v = <[Z.to_nat j := v]> a.
Proof.
  intros Hj. unfold arr_set.
  destruct (Z.ltb_spec j 0); [lia|].
  destruct (Z.ltb_spec j (Z.of_nat (length a))); [reflexivity|lia].
Qed.

(** With every draw inside the array, [shuffle] moves the elements
    around and keeps the length. *)
Lemma shuffle_from_inv (P : Value -> Prop) (i : nat) :
  forall (array : list Value) (p : Facade),
    lcg_ok (generator p) ->
    (i < length array)%nat ->
    Forall P array ->
    exists array' p',
      PRNG.shuffle_from i array p = (Returns array', p') /\
      length array' = length array /\
      Forall P array' /\
      lcg_ok (generator p').
Proof.
  induction i as [|i IH]; intros array p Hg Hi HP; simpl.
  - exists array, p. auto.
  - unfold bind. rewrite int_spec.
    destruct (next_unit_interval (generator p) Hg) as [H0 H1].
    set (x := fst (Gen.next (generator p))) in *.
    change (Qceiling 0) with 0.
    rewrite Qfloor_Z.
    pose proof (int_range p 0 (Z.of_nat (S i)) x H0 H1 ltac:(lia)) as R.
    set (j := Qfloor (x * inject_Z (Z.of_nat (S i) - 0 + 1)) + 0) in *.
    set (ai := arr_get array (Z.of_nat (S i))).
    set (aj := arr_get array j).
    assert (Pai : P ai) by (apply arr_get_Forall; [exact HP|lia]).
    assert (Paj : P aj) by (apply arr_get_Forall; [exact HP|lia]).
    rewrite (arr_set_in_range array) by lia.
    rewrite arr_set_in_range by (rewrite length_insert; lia).
    destruct (IH (<[Z.to_nat j := ai]> (<[Z.to_nat (Z.of_nat (S i)) := aj]> array))
                 (mkFacade (snd (Gen.next (generator p))) (_spareNormal p)
                           (_hasSpareNormal p))) as (arr' & p' & E & L & F & G).
    + simpl. rewrite next_state. apply lcg_ok_nextInt. exact Hg.
    + rewrite !length_insert. lia.
    + apply Forall_insert; [apply Forall_insert|]; assumption.
    + exists arr', p'. rewrite E. rewrite L, !length_insert. auto.
Qed.

Lemma identity256_bytes : Forall byte_val identity256.
Proof.
  unfold identity256. apply Forall_forall. intros v Hv.
  apply list_elem_of_In, in_map_iff in Hv. destruct Hv as (i & <- & Hi).
  apply in_seq in Hi. exists (Z.of_nat i). split; [reflexivity|lia].
Qed.

Lemma shuffle_identity256 (p : Facade) :
  lcg_ok (generator p) ->
  exists array' p',
    PRNG.shuffle identity256 p = (Returns array', p') /\
    length array' = 256%nat /\ Forall byte_val array'.
Proof.
  intros Hg. unfold PRNG.shuffle.
  destruct (shuffle_from_inv byte_val (length identity256 - 1) identity256 p Hg)
    as (a & p' & E & L & F & _).
  - vm_compute. lia.
  - apply identity256_bytes.
  - exists a, p'. rewrite E, L. split; [reflexivity|]. split; [reflexivity|exact F].
Qed.

(** ** Value noise *)

Lemma new_xoshiro128 (seed : Seed) :
  PRNG.new seed (Some "xoshiro128"%string)
  = Returns (mkFacade (Gen.new AXoshiro128 seed) None false).
Proof. reflexivity. Qed.

Lemma and_255_range (x : Z) : 0 <= JS.and x 255 <= 255.
Proof.
  unfold JS.and. change (JS.ToInt32 255) with (Z.ones 8).
  rewrite Z.land_ones by lia.
  pose proof (Z.mod_pos_bound (JS.ToInt32 x) (2 ^ 8) ltac:(lia)). lia.
Qed.

Lemma fade_range (t : Q) :
  (0 <= t)%Q -> (t <= 1)%Q ->
  (0 <= ValueNoise._fade t)%Q /\ (ValueNoise._fade t <= 1)%Q.
Proof.
  intros H0 H1. unfold ValueNoise._fade.
  assert (Ht : (0 <= t * t)%Q) by (apply Qmult_le_0_compat; lra).
  assert (Hs : (0 <= (1 - t) * (1 - t))%Q) by (apply Qmult_le_0_compat; lra).
  split.
  - apply Qmult_le_0_compat; [|lra].
    apply Qmult_le_0_compat; [exact Ht|exact H0].
  - assert (E : (1 - t * t * t * (t * (t * 6 - 15) + 10)
                 == (1 - t) * (1 - t) * (1 - t) * (6 * (t * t) + 3 * t + 1))%Q) by ring.
    assert (N : (0 <= (1 - t) * (1 - t) * (1 - t) * (6 * (t * t) + 3 * t + 1))%Q).
    { apply Qmult_le_0_compat; [|lra]. apply Qmult_le_0_compat; [exact Hs|lra]. }
    lra.
Qed.

Lemma lerp_range (a b t : Q) :
  (0 <= a <= 1)%Q -> (0 <= b <= 1)%Q -> (0 <= t <= 1)%Q ->
  (0 <= ValueNoise._lerp a b t <= 1)%Q.
Proof.
  intros [? ?] [? ?] [? ?]. unfold ValueNoise._lerp.
  assert (0 <= t * b)%Q by (apply Qmult_le_0_compat; lra).
  assert (0 <= (1 - t) * a)%Q by (apply Qmult_le_0_compat; lra).
  assert (0 <= t * (1 - b))%Q by (apply Qmult_le_0_compat; lra).
  assert (0 <= (1 - t) * (1 - a))%Q by (apply Qmult_le_0_compat; lra).
  split; lra.
Qed.

(** The fractional part [x - floor(x)] *)
Lemma frac_range (x : Q) :
  (0 <= x - inject_Z (Qfloor x))%Q /\ (x - inject_Z (Qfloor x) <= 1)%Q.
Proof.
  pose proof (Qfloor_le x) as L. pose proof (Qlt_floor x) as U.
  rewrite inject_Z_plus in U. change (inject_Z 1) with 1%Q in U.
  split; lra.
Qed.

Section ValueNoiseTable.

Variable vn : ValueNoise.t.
Hypothesis table_len : (256 <= length (ValueNoise.permutation vn))%nat.
Hypothesis table_bytes : Forall byte_val (ValueNoise.permutation vn).

Lemma hash_step_byte (hash : option Q) (c : Z) :
  exists k, ValueNoise._hash_step vn hash c = Some (inject_Z k) /\ 0 <= k <= 255.
Proof.
  unfold ValueNoise._hash_step.
  set (idx := match hash with Some h => _ | None => 0 end).
  assert (Hi : 0 <= idx <= 255).
  { unfold idx. destruct hash; [apply and_255_range|lia]. }
  destruct (arr_get_Forall byte_val (ValueNoise.permutation vn) idx table_bytes)
    as (k & E & Hk); [lia|].
  exists k. rewrite E. auto.
Qed.

Lemma hash_fold_byte (coords : list Z) (k0 : Z) :
  0 <= k0 <= 255 ->
  exists k, fold_left (ValueNoise._hash_step vn) coords (Some (inject_Z k0))
            = Some (inject_Z k) /\ 0 <= k <= 255.
Proof.
  revert k0. induction coords as [|c coords IH]; intros k0 Hk; simpl.
  - exists k0. auto.
  - destruct (hash_step_byte (Some (inject_Z k0)) c) as (k1 & E & H1).
    rewrite E. apply IH. exact H1.
Qed.

Lemma hash_unit (coords : list Z) : unit_value (ValueNoise._hash vn coords).
Proof.
  unfold ValueNoise._hash.
  destruct (hash_fold_byte coords 0 ltac:(lia)) as (k & E & Hk).
  change (Some 0%Q) with (Some (inject_Z 0)). rewrite E.
  eexists; split; [reflexivity|].
  split.
  - apply Qle_shift_div_l; [reflexivity|]. unfold Qle; simpl; lia.
  - apply Qle_shift_div_r; [reflexivity|]. unfold Qle; simpl; lia.
Qed.

Lemma lerp_opt_unit (a b : option Q) (t : Q) :
  unit_value a -> unit_value b -> (0 <= t <= 1)%Q ->
  unit_value (ValueNoise.lerp_opt a b t).
Proof.
  intros (x & -> & Hx) (y & -> & Hy) Ht. simpl.
  eexists; split; [reflexivity|]. apply lerp_range; assumption.
Qed.

Lemma fade_frac_unit (x : Q) :
  (0 <= ValueNoise._fade (x - inject_Z (Qfloor x)) <= 1)%Q.
Proof. destruct (frac_range x). apply fade_range; assumption. Qed.

(** On exact numbers [noise1D] stays in the unit interval; it is the
    rounding of binary64 that takes it out, as shown below. *)
Lemma noise1D_unit (x : Q) : unit_value (ValueNoise.noise1D vn x).
Proof.
  unfold ValueNoise.noise1D.
  apply lerp_opt_unit; [apply hash_unit|apply hash_unit|apply fade_frac_unit].
Qed.

End ValueNoiseTable.

(** C8 (where the code departs from it). On the instance seeded with
    ['terrain'], [noise1D(201.999999)] is [-4.44e-16]: the fractional part
    [0.9999990000000025] fades to [1.0000000000000004], and the
    interpolation between the table entries 246 and 0 ends below zero.
    The same instance leaves the unit interval upwards at
    [noise1D(31.999999)], and [noise2D] and [noise3D] leave it on both
    sides. *)
Theorem C8_value_noise_leaves_unit_interval :
  exists vn : ValueNoise.t,
    ValueNoise.new (SeedStr "terrain") = Returns vn /\
    ValueNoise64._fade (201.999999 - F64.floor 201.999999) = 1.0000000000000004%float /\
    ValueNoise64.noise1D vn 201.999999 = (-4.4408920985006262e-16)%float /\
    ValueNoise64.in_unit_interval (ValueNoise64.noise1D vn 201.999999) = false /\
    ValueNoise64.in_unit_interval (ValueNoise64.noise1D vn 31.999999) = false /\
    ValueNoise64.in_unit_interval (ValueNoise64.noise2D vn 0.999999 226) = false /\
    ValueNoise64.in_unit_interval (ValueNoise64.noise2D vn 0.999999 56) = false /\
    ValueNoise64.in_unit_interval (ValueNoise64.noise3D vn 0.999999 29 0) = false /\
    ValueNoise64.in_unit_interval (ValueNoise64.noise3D vn 0.999999 58 0) = false.
Proof.
  eexists. split; [vm_compute; reflexivity|].
  repeat split; vm_compute; reflexivity.
Qed.

(** ** Simplex noise *)

Lemma ToUint8_range (v : Value) : 0 <= SimplexNoise.ToUint8 v <= 255.
Proof.
  unfold SimplexNoise.ToUint8. destruct (ToNumber v) as [q|]; [|lia].
  pose proof (Z.mod_pos_bound (Qtrunc q) 256 ltac:(lia)). lia.
Qed.

Lemma build_perm_bytes (p : list Value) :
  length (SimplexNoise.build_perm p) = 512%nat /\
  Forall (fun v => 0 <= v <= 255) (SimplexNoise.build_perm p).
Proof.
  unfold SimplexNoise.build_perm. split.
  - rewrite length_map, length_seq. reflexivity.
  - apply Forall_forall. intros v Hv.
    apply list_elem_of_In, in_map_iff in Hv. destruct Hv as (i & <- & _).
    apply ToUint8_range.
Qed.

Lemma build_permMod12_range (perm : list Z) :
  Forall (fun v => 0 <= v <= 255) perm ->
  length (SimplexNoise.build_permMod12 perm) = 512%nat /\
  Forall (fun v => 0 <= v <= 11) (SimplexNoise.build_permMod12 perm).
Proof.
  intros F. unfold SimplexNoise.build_permMod12. split.
  - rewrite length_map, length_seq. reflexivity.
  - apply Forall_forall. intros v Hv.
    apply list_elem_of_In, in_map_iff in Hv. destruct Hv as (i & <- & _).
    assert (H : 0 <= default 0 (perm !! i) <= 255).
    { destruct (perm !! i) as [w|] eqn:E; simpl; [|lia].
      rewrite Forall_lookup in F. exact (F _ _ E). }
    rewrite Z.rem_mod_nonneg by lia.
    pose proof (Z.mod_pos_bound (default 0 (perm !! i)) 12 ltac:(lia)). lia.
Qed.

Lemma traced_ok_ret {A} (a : A) (R : A -> Prop) :
  R a -> traced_ok (SimplexNoise.tret a) R.
Proof. intros H. exists a. simpl. auto. Qed.

Lemma traced_ok_bind {A B} (m : SimplexNoise.T A) (k : A -> SimplexNoise.T B)
    (R : A -> Prop) (R' : B -> Prop) :
  traced_ok m R -> (forall a, R a -> traced_ok (k a) R') ->
  traced_ok (SimplexNoise.tbind m k) R'.
Proof.
  intros (a & E & F & Ha) Hk. destruct m as [tr o]; simpl in *. subst o.
  destruct (Hk a Ha) as (b & Eb & Fb & Hb).
  unfold SimplexNoise.tbind. destruct (k a) as [tr' o']; simpl in *. subst o'.
  exists b. simpl. repeat split; [|exact Hb]. apply Forall_app. auto.
Qed.

Lemma tbl_get_ok {A} (P : A -> Prop) (tbl : list A) (n i : Z) :
  Z.of_nat (length tbl) = n -> Forall P tbl -> 0 <= i < n ->
  exists v, SimplexNoise.tbl_get tbl i = Some v /\ P v.
Proof.
  intros L F Hi. unfold SimplexNoise.tbl_get.
  destruct (Z.ltb_spec i 0); [lia|].
  destruct (tbl !! Z.to_nat i) as [v|] eqn:E.
  - exists v. split; [reflexivity|]. rewrite Forall_lookup in F. exact (F _ _ E).
  - apply lookup_ge_None_1 in E. lia.
Qed.

Lemma grad3_at_ok (gi : Z) :
  0 <= gi <= 11 -> traced_ok (SimplexNoise.grad3_at gi) (fun _ => True).
Proof.
  intros H.
  destruct (tbl_get_ok (fun _ => True) SimplexNoise.grad3 12 gi eq_refl) as (g & E & _);
    [apply Forall_forall; auto|lia|].
  exists g. simpl. repeat split; [exact E|]. repeat constructor; lia.
Qed.

Lemma corner2_ok (half : Q) (gi : Z) (x y : Q) :
  0 <= gi <= 11 -> traced_ok (SimplexNoise.corner2 half gi x y) (fun _ => True).
Proof.
  intros H. unfold SimplexNoise.corner2.
  destruct (Qltb _ 0); [apply traced_ok_ret; exact I|].
  eapply traced_ok_bind; [apply grad3_at_ok; exact H|].
  intros g _. apply traced_ok_ret. exact I.
Qed.

Lemma corner3_ok (radius : Q) (gi : Z) (x y z : Q) :
  0 <= gi <= 11 -> traced_ok (SimplexNoise.corner3 radius gi x y z) (fun _ => True).
Proof.
  intros H. unfold SimplexNoise.corner3.
  destruct (Qltb _ 0); [apply traced_ok_ret; exact I|].
  eapply traced_ok_bind; [apply grad3_at_ok; exact H|].
  intros g _. apply traced_ok_ret. exact I.
Qed.

Section SimplexTables.

Variable sn : SimplexNoise.t.
Hypothesis perm_len : length (SimplexNoise.perm sn) = 512%nat.
Hypothesis perm_bytes : Forall (fun v => 0 <= v <= 255) (SimplexNoise.perm sn).
Hypothesis mod12_len : length (SimplexNoise.permMod12 sn) = 512%nat.
Hypothesis mod12_range : Forall (fun v => 0 <= v <= 11) (SimplexNoise.permMod12 sn).

Lemma perm_at_ok (i : Z) :
  0 <= i <= 511 -> traced_ok (SimplexNoise.perm_at sn i) (fun v => 0 <= v <= 255).
Proof.
  intros H.
  destruct (tbl_get_ok _ (SimplexNoise.perm sn) 512 i ltac:(rewrite perm_len; reflexivity)
              perm_bytes ltac:(lia)) as (v & E & Hv).
  exists v. simpl. repeat split; try exact E; try lia. repeat constructor; simpl; lia.
Qed.

Lemma permMod12_at_ok (i : Z) :
  0 <= i <= 511 -> traced_ok (SimplexNoise.permMod12_at sn i) (fun v => 0 <= v <= 11).
Proof.
  intros H.
  destruct (tbl_get_ok _ (SimplexNoise.permMod12 sn) 512 i
              ltac:(rewrite mod12_len; reflexivity) mod12_range ltac:(lia)) as (v & E & Hv).
  exists v. simpl. repeat split; try exact E; try lia. repeat constructor; simpl; lia.
Qed.

(** One step of a proof that a noise function stays in its tables *)
Ltac table_step :=
  first
    [ eapply traced_ok_bind;
      [ first [ apply perm_at_ok | apply permMod12_at_ok
              | apply corner2_ok | apply corner3_ok ]; lia
      | let H := fresh "H" in intros ? H; cbv beta in H ]
    | apply traced_ok_ret; exact I ].

(** The [let]s at the head of a noise function become variables; a masked
    coordinate keeps its range. *)
Ltac name_lets :=
  repeat match goal with
    | |- traced_ok (let x := JS.and ?i 255 in @?b x) ?R =>
        let y := fresh x in
        let H := fresh "H" y in
        pose proof (and_255_range i) as H;
        generalize dependent (JS.and i 255); intros y H;
        change (traced_ok (b y) R); cbv beta
    | |- traced_ok (let x := ?v in @?b x) ?R =>
        let y := fresh x in
        generalize v; intro y;
        change (traced_ok (b y) R); cbv beta
    end.

Lemma simplex_noise2D_ok (Math : MathLib) (xin yin : Q) :
  traced_ok (SimplexNoise.noise2D Math sn xin yin) (fun _ => True).
Proof.
  cbv beta delta [SimplexNoise.noise2D]. name_lets.
  destruct (Qltb _ _); cbv beta iota; name_lets; repeat table_step.
Qed.

Lemma simplex3_corners_bits (x0 y0 z0 : Q) :
  let '((i1, j1, k1), (i2, j2, k2)) := SimplexNoise.simplex3_corners x0 y0 z0 in
  (0 <= i1 <= 1 /\ 0 <= j1 <= 1 /\ 0 <= k1 <= 1) /\
  (0 <= i2 <= 1 /\ 0 <= j2 <= 1 /\ 0 <= k2 <= 1).
Proof.
  unfold SimplexNoise.simplex3_corners.
  repeat match goal with |- context [if ?b then _ else _] => destruct b end; lia.
Qed.

Lemma simplex_noise3D_ok (xin yin zin : Q) :
  traced_ok (SimplexNoise.noise3D sn xin yin zin) (fun _ => True).
Proof.
  cbv beta delta [SimplexNoise.noise3D]. name_lets.
  match goal with |- context [SimplexNoise.simplex3_corners ?a ?b ?c] =>
    pose proof (simplex3_corners_bits a b c) as Hc;
    destruct (SimplexNoise.simplex3_corners a b c) as [[[i1 j1] k1] [[i2 j2] k2]]
  end.
  cbv beta iota. name_lets. repeat table_step.
Qed.

End SimplexTables.

(** C10. For every seed the constructor of [SimplexNoise] returns an
    instance whose two tables have 512 entries, bytes in [perm] and values
    in [[0, 11]] in [permMod12]; on it [noise2D] and [noise3D] have a
    result at all coordinates, every index they read [perm] and [permMod12]
    at lies in [[0, 511]], and every index they read [grad3] at lies in
    [[0, 11]]. *)
Theorem C10_simplex_lookups_in_bounds (seed : Seed) :
  exists sn : SimplexNoise.t,
    SimplexNoise.new seed = Returns sn /\
    length (SimplexNoise.perm sn) = 512%nat /\
    length (SimplexNoise.permMod12 sn) = 512%nat /\
    Forall (fun v => 0 <= v <= 255) (SimplexNoise.perm sn) /\
    Forall (fun gi => 0 <= gi <= 11) (SimplexNoise.permMod12 sn) /\
    (forall (Math : MathLib) (xin yin : Q),
        exists v,
          snd (SimplexNoise.noise2D Math sn xin yin) = Some v /\
          Forall SimplexNoise.in_bounds (fst (SimplexNoise.noise2D Math sn xin yin))) /\
    (forall (xin yin zin : Q),
        exists v,
          snd (SimplexNoise.noise3D sn xin yin zin) = Some v /\
          Forall SimplexNoise.in_bounds (fst (SimplexNoise.noise3D sn xin yin zin))).
Proof.
  unfold SimplexNoise.new. rewrite new_xoshiro128.
  destruct (shuffle_identity256
              (mkFacade (Gen.new AXoshiro128 seed) None false) I)
    as (a & p' & E & _ & _).
  rewrite E. eexists; split; [reflexivity|]. simpl.
  destruct (build_perm_bytes a) as [L1 F1].
  destruct (build_permMod12_range _ F1) as [L2 F2].
  repeat split; try assumption.
  - intros Math xin yin.
    destruct (simplex_noise2D_ok
                (SimplexNoise.mk p' (SimplexNoise.build_perm a)
                   (SimplexNoise.build_permMod12 (SimplexNoise.build_perm a)))
                L1 F1 L2 F2 Math xin yin) as (v & Ev & Fv & _).
    exists v. auto.
  - intros xin yin zin.
    destruct (simplex_noise3D_ok
                (SimplexNoise.mk p' (SimplexNoise.build_perm a)
                   (SimplexNoise.build_permMod12 (SimplexNoise.build_perm a)))
                L1 F1 L2 F2 xin yin zin) as (v & Ev & Fv & _).
    exists v. auto.
Qed.

(** ** Instances as objects: draws *)

Ltac heap_lookups :=
  repeat first
    [ rewrite list_lookup_insert_eq
        by (rewrite ?length_insert; eapply lookup_lt_Some; eassumption)
    | rewrite list_lookup_insert_ne by congruence ].

Ltac store_scalar :=
  eexists; split; [reflexivity|]; heap_lookups;
  split; [reflexivity|];
  split; [apply length_insert|];
  split; [intros l Hl; rewrite list_lookup_insert_ne by set_solver; reflexivity|];
  eexists; split; [reflexivity|exact I].

Ltac store_array :=
  eexists; split; [reflexivity|]; unfold Heap.read_arr; heap_lookups; simpl;
  split; [reflexivity|];
  split; [rewrite !length_insert; reflexivity|];
  split; [intros l Hl; rewrite !list_lookup_insert_ne by set_solver; reflexivity|];
  eexists; split; [reflexivity|eexists; reflexivity].

Lemma load_gen_algorithm_store (h : Heap.heap) (gl : Heap.loc) (g g' : Generator) :
  Heap.load_gen h gl = Some g ->
  Gen.algorithm g' = Gen.algorithm g ->
  exists h',
    Heap.store_gen h gl g' = Some h' /\
    Heap.load_gen h' gl = Some g' /\
    length h' = length h /\
    (forall l, l ∉ (gl :: match h !! gl with
                         | Some (Heap.CGen (Heap.OXoshiro128 _ sl)) => [sl]
                         | Some (Heap.CGen (Heap.OXorshift128 _ sl)) => [sl]
                         | _ => []
                         end) -> h' !! l = h !! l) /\
    (exists o', h' !! gl = Some (Heap.CGen o') /\
       match h !! gl with
       | Some (Heap.CGen (Heap.OXoshiro128 _ sl)) => exists sd, o' = Heap.OXoshiro128 sd sl
       | Some (Heap.CGen (Heap.OXorshift128 _ sl)) => exists sd, o' = Heap.OXorshift128 sd sl
       | _ => match o' with
              | Heap.OXoshiro128 _ _ | Heap.OXorshift128 _ _ => False
              | _ => True
              end
       end).
Proof.
  intros L A. unfold Heap.load_gen in L. unfold Heap.store_gen, Heap.load_gen.
  destruct (h !! gl) as [[ws|o|? ? ?]|] eqn:Eg; try discriminate L.
  destruct o as [g0|sd sl|sd sl|g0|g0|g0].
  - injection L as <-. destruct g'; try discriminate A. store_scalar.
  - unfold Heap.read_arr in L. destruct (h !! sl) as [[ws| |]|] eqn:Es; try discriminate L.
    injection L as <-. destruct g' as [|g'| | | |]; try discriminate A.
    assert (sl <> gl) by (intros ->; congruence). destruct g'. store_array.
  - unfold Heap.read_arr in L. destruct (h !! sl) as [[ws| |]|] eqn:Es; try discriminate L.
    injection L as <-. destruct g' as [| |g'| | |]; try discriminate A.
    assert (sl <> gl) by (intros ->; congruence). destruct g'. store_array.
  - injection L as <-. destruct g'; try discriminate A. store_scalar.
  - injection L as <-. destruct g'; try discriminate A. store_scalar.
  - injection L as <-. destruct g'; try discriminate A. store_scalar.
Qed.

Lemma load_gen_frame (h h' : Heap.heap) (gl : Heap.loc) :
  h' !! gl = h !! gl ->
  (forall sd sl, h !! gl = Some (Heap.CGen (Heap.OXoshiro128 sd sl)) -> h' !! sl = h !! sl) ->
  (forall sd sl, h !! gl = Some (Heap.CGen (Heap.OXorshift128 sd sl)) -> h' !! sl = h !! sl) ->
  Heap.load_gen h' gl = Heap.load_gen h gl.
Proof.
  intros E H1 H2. unfold Heap.load_gen, Heap.read_arr. rewrite E.
  destruct (h !! gl) as [[ws|o|? ? ?]|] eqn:Eg; try reflexivity.
  destruct o as [g0|sd sl|sd sl|g0|g0|g0]; try reflexivity.
  - rewrite (H1 sd sl eq_refl). reflexivity.
  - rewrite (H2 sd sl eq_refl). reflexivity.
Qed.

(** What is outside the objects of an instance does not matter to it. *)
Lemma load_frame (h h' : Heap.heap) (q : Heap.loc) :
  (forall l, l ∈ Heap.footprint h q -> h' !! l = h !! l) ->
  Heap.load h' q = Heap.load h q /\ Heap.footprint h' q = Heap.footprint h q.
Proof.
  intros F. unfold Heap.load, Heap.footprint in *.
  rewrite (F q) by set_solver.
  destruct (h !! q) as [[ws|o|gl sp hs]|] eqn:Eq; try (split; reflexivity).
  assert (Eg : h' !! gl = h !! gl) by (apply F; set_solver).
  rewrite Eg. split.
  - rewrite (load_gen_frame h h' gl Eg); [reflexivity| |].
    + intros sd sl E. apply F. rewrite E. set_solver.
    + intros sd sl E. apply F. rewrite E. set_solver.
  - reflexivity.
Qed.

Lemma modifies_frame (h h' : Heap.heap) (L : list Heap.loc) (q : Heap.loc) :
  Heap.modifies h h' L -> Heap.footprint h q ## L ->
  Heap.load h' q = Heap.load h q /\ Heap.footprint h' q = Heap.footprint h q.
Proof.
  intros [_ M] D. apply load_frame. intros l Hl. apply M. intros Hl'.
  exact (D l Hl Hl').
Qed.

Lemma store_spec (h : Heap.heap) (p : Heap.loc) (f f' : Facade) :
  Heap.load h p = Some f ->
  Gen.algorithm (generator f') = Gen.algorithm (generator f) ->
  exists h',
    Heap.store h p f' = Some h' /\
    Heap.load h' p = Some f' /\
    Heap.modifies h h' (Heap.footprint h p) /\
    Heap.footprint h' p = Heap.footprint h p.
Proof.
  intros L A. unfold Heap.load in L. unfold Heap.store, Heap.footprint.
  destruct (h !! p) as [[ws|o|gl sp hs]|] eqn:Ep; try discriminate L.
  destruct (Heap.load_gen h gl) as [g|] eqn:Lg; try discriminate L.
  injection L as <-. simpl in A.
  destruct (load_gen_algorithm_store h gl g (generator f') Lg A)
    as (h1 & S & L1 & Len & Fr & o' & Eo & Sh).
  rewrite S. simpl. eexists; split; [reflexivity|].
  assert (Hp : (p < length h1)%nat) by (rewrite Len; eauto using lookup_lt_Some).
  assert (Ng : p <> gl).
  { intros ->. unfold Heap.load_gen in Lg. rewrite Ep in Lg. discriminate. }
  assert (Ns : forall sd sl,
             h1 !! gl = Some (Heap.CGen (Heap.OXoshiro128 sd sl)) \/
             h1 !! gl = Some (Heap.CGen (Heap.OXorshift128 sd sl)) -> p <> sl).
  { intros sd sl Hs ->. unfold Heap.load_gen, Heap.read_arr in L1.
    unfold Heap.load_gen, Heap.read_arr in Lg.
    rewrite Eo in Hs, L1.
    destruct (h !! gl) as [[?|o|? ? ?]|] eqn:Eg; try discriminate Lg.
    destruct Hs as [Hs|Hs]; injection Hs as ->;
      destruct o; try (exfalso; exact Sh); destruct Sh as [? Sh]; try discriminate Sh;
      injection Sh as -> ->; rewrite Ep in Lg; discriminate Lg. }
  split; [|split; [split|]].
  - unfold Heap.load. rewrite list_lookup_insert_eq by exact Hp.
    rewrite (load_gen_frame h1 _ gl).
    + rewrite L1. destruct f'; reflexivity.
    + apply list_lookup_insert_ne. exact Ng.
    + intros sd sl E. apply list_lookup_insert_ne. apply (Ns sd sl). auto.
    + intros sd sl E. apply list_lookup_insert_ne. apply (Ns sd sl). auto.
  - rewrite length_insert. exact Len.
  - intros l Hl. rewrite list_lookup_insert_ne by set_solver.
    apply Fr. set_solver.
  - rewrite list_lookup_insert_eq by exact Hp.
    rewrite list_lookup_insert_ne by exact Ng. rewrite Eo.
    destruct (h !! gl) as [[?|o|? ? ?]|] eqn:Eg;
      try (destruct o' ; try (exfalso; exact Sh); reflexivity).
    destruct o; try (destruct o'; try (exfalso; exact Sh); reflexivity);
      destruct Sh as [sd' ->]; reflexivity.
Qed.

Lemma algorithm_run_draw (Math : MathLib) (fuel : nat) (d : Draw) (f : Facade) :
  Gen.algorithm (generator (snd (run_draw Math fuel d f))) = Gen.algorithm (generator f).
Proof.
  destruct (run_draw Math fuel d f) as [r f'] eqn:E. simpl.
  apply (preserves_run_draw (fun g => Gen.algorithm g = Gen.algorithm (generator f))
           (fun g H => eq_trans (algorithm_nextInt g) H) Math fuel d f r f' E).
  reflexivity.
Qed.

(** A draw on the instance at [p] is the method on its fields, and it
    writes to the objects of that instance only. *)
Lemma draw_spec (Math : MathLib) (fuel : nat) (d : Draw) (h : Heap.heap)
    (p : Heap.loc) (f : Facade) :
  Heap.load h p = Some f ->
  exists h',
    Heap.draw Math fuel d p h = Some (fst (run_draw Math fuel d f), h') /\
    Heap.load h' p = Some (snd (run_draw Math fuel d f)) /\
    Heap.modifies h h' (Heap.footprint h p) /\
    Heap.footprint h' p = Heap.footprint h p.
Proof.
  intros L. unfold Heap.draw. rewrite L. simpl.
  pose proof (algorithm_run_draw Math fuel d f) as A.
  destruct (run_draw Math fuel d f) as [r f']. simpl in *.
  destruct (store_spec h p f f' L A) as (h' & S & L' & M & F).
  rewrite S. simpl. exists h'. auto.
Qed.

(** ** Instances as objects: clone *)

Lemma gen_clone_typed (g : Generator) : typed g -> Gen.clone g = g.
Proof.
  destruct g as [g|g|g|g|g|g]; destruct g; simpl; intros T;
    unfold Mulberry32.clone, Xoshiro128SS.clone, Xorshift128Plus.clone,
      PCG32.clone, SFC32.clone, LCG.clone; simpl;
    rewrite ?ToUint32_id by exact T; rewrite ?Uint32Array_id by exact T; reflexivity.
Qed.


(** ** Instances as objects: clone *)

Lemma extends_refl (h : list Heap.cell) : extends h h.
Proof. split; [lia|auto]. Qed.

Lemma extends_trans (h1 h2 h3 : list Heap.cell) :
  extends h1 h2 -> extends h2 h3 -> extends h1 h3.
Proof.
  intros [L1 E1] [L2 E2]. split; [lia|].
  intros l Hl. rewrite E2 by lia. apply E1. exact Hl.
Qed.

Lemma extends_alloc (h : list Heap.cell) (c : Heap.cell) :
  extends h (snd (Heap.alloc h c)) /\
  fst (Heap.alloc h c) = length h /\
  snd (Heap.alloc h c) !! length h = Some c /\
  length (snd (Heap.alloc h c)) = S (length h).
Proof.
  unfold Heap.alloc; simpl. repeat split.
  - rewrite length_app; simpl; lia.
  - intros l Hl. apply lookup_app_l. exact Hl.
  - apply list_lookup_middle. reflexivity.
  - rewrite length_app; simpl; lia.
Qed.

Lemma extends_insert (h h' : list Heap.cell) (l : nat) (c : Heap.cell) :
  extends h h' -> (length h <= l)%nat -> extends h (<[l := c]> h').
Proof.
  intros [L E] Hl. split; [rewrite length_insert; exact L|].
  intros i Hi. rewrite list_lookup_insert_ne by lia. apply E. exact Hi.
Qed.

Lemma new_gen_extends (h : list Heap.cell) (a : Algorithm) (seed : Seed) :
  extends h (snd (Heap.new_gen h a seed)) /\
  (length h <= fst (Heap.new_gen h a seed) < length (snd (Heap.new_gen h a seed)))%nat.
Proof.
  destruct a; unfold Heap.new_gen, Heap.alloc; cbn [fst snd];
    (split; [split|]); rewrite ?length_app; cbn [length]; try lia;
    intros l Hl; rewrite ?lookup_app_l by (rewrite ?length_app; cbn [length]; lia);
    reflexivity.
Qed.

Ltac heap_app :=
  repeat first
    [ rewrite list_lookup_insert_eq by (rewrite ?length_insert, ?length_app; cbn [length]; lia)
    | rewrite list_lookup_insert_ne by (rewrite ?length_app; cbn [length]; lia)
    | rewrite list_lookup_middle by (rewrite ?length_app; cbn [length]; lia)
    | rewrite lookup_app_l by (rewrite ?length_app; cbn [length]; lia) ].

Ltac clone_scalar :=
  unfold Heap.alloc; eexists _, _; split; [reflexivity|];
  split;
  [ split;
    [ rewrite length_insert, length_app; cbn [length]; lia
    | intros l Hl; heap_app; reflexivity ]
  | split;
    [ rewrite length_insert, length_app; cbn [length]; lia
    | split;
      [ unfold Heap.load_gen; heap_app; reflexivity
      | intros sd sl [E|E]; revert E; heap_app; discriminate ] ] ].

Ltac clone_array :=
  unfold Heap.new_gen, Heap.alloc; cbn [fst snd];
  eexists _, _; split; [reflexivity|];
  split;
  [ split;
    [ rewrite length_insert, !length_app; cbn [length]; lia
    | intros l Hl; heap_app; reflexivity ]
  | split;
    [ rewrite length_insert, !length_app; cbn [length]; lia
    | split;
      [ unfold Heap.load_gen, Heap.read_arr; heap_app; reflexivity
      | intros sd' sl' [E|E]; revert E; heap_app; intros E;
        try discriminate E; injection E as _ <-; rewrite !length_app; cbn [length]; lia ] ] ].

Lemma clone_gen_spec (h : list Heap.cell) (gl : nat) (g : Generator) :
  Heap.load_gen h gl = Some g ->
  exists gl' h',
    Heap.clone_gen h gl = Some (gl', h') /\
    extends h h' /\
    (length h <= gl' < length h')%nat /\
    Heap.load_gen h' gl' = Some (Gen.clone g) /\
    (forall sd sl,
        h' !! gl' = Some (Heap.CGen (Heap.OXoshiro128 sd sl)) \/
        h' !! gl' = Some (Heap.CGen (Heap.OXorshift128 sd sl)) ->
        (length h <= sl)%nat).
Proof.
  intros L. unfold Heap.load_gen in L. unfold Heap.clone_gen.
  destruct (h !! gl) as [[ws|o|? ? ?]|] eqn:Eg; try discriminate L.
  destruct o as [g0|sd sl|sd sl|g0|g0|g0].
  - injection L as <-. clone_scalar.
  - unfold Heap.read_arr in *.
    destruct (h !! sl) as [[ws| |]|] eqn:Es; try discriminate L.
    injection L as <-. cbn [mbind option_bind]. clone_array.
  - unfold Heap.read_arr in *.
    destruct (h !! sl) as [[ws| |]|] eqn:Es; try discriminate L.
    injection L as <-. cbn [mbind option_bind]. clone_array.
  - injection L as <-. clone_scalar.
  - injection L as <-. clone_scalar.
  - injection L as <-. clone_scalar.
Qed.

Lemma footprint_allocated (h : list Heap.cell) (p : nat) (f : Facade) :
  Heap.load h p = Some f -> forall l, l ∈ Heap.footprint h p -> (l < length h)%nat.
Proof.
  unfold Heap.load, Heap.footprint, Heap.load_gen, Heap.read_arr. intros L l Hl.
  destruct (h !! p) as [[ws|o|gl sp hs]|] eqn:Ep; try discriminate L.
  destruct (h !! gl) as [[?|o|? ? ?]|] eqn:Eg; try discriminate L.
  assert (Hp : (p < length h)%nat) by (eapply lookup_lt_Some; exact Ep).
  assert (Hg : (gl < length h)%nat) by (eapply lookup_lt_Some; exact Eg).
  destruct o as [g0|sd sl|sd sl|g0|g0|g0];
    try (destruct (h !! sl) as [[?| |]|] eqn:Es; try discriminate L;
         assert (Hs : (sl < length h)%nat) by (eapply lookup_lt_Some; exact Es));
    set_solver.
Qed.

Lemma load_extends (h h' : list Heap.cell) (p : nat) (f : Facade) :
  extends h h' -> Heap.load h p = Some f ->
  Heap.load h' p = Some f /\ Heap.footprint h' p = Heap.footprint h p.
Proof.
  intros [_ E] L.
  destruct (load_frame h h' p) as [L' F'].
  - intros l Hl. apply E. eapply footprint_allocated; eassumption.
  - rewrite L', F'. auto.
Qed.

Lemma load_gen_extends (h h' : list Heap.cell) (gl : nat) (g : Generator) :
  extends h h' -> Heap.load_gen h gl = Some g -> Heap.load_gen h' gl = Some g.
Proof.
  intros [_ E] L. rewrite <- L. apply load_gen_frame.
  - apply E. unfold Heap.load_gen in L.
    destruct (h !! gl) eqn:Eg; [eapply lookup_lt_Some; exact Eg|discriminate L].
  - intros sd sl Eg. apply E. unfold Heap.load_gen, Heap.read_arr in L. rewrite Eg in L.
    destruct (h !! sl) eqn:Es; [eapply lookup_lt_Some; exact Es|discriminate L].
  - intros sd sl Eg. apply E. unfold Heap.load_gen, Heap.read_arr in L. rewrite Eg in L.
    destruct (h !! sl) eqn:Es; [eapply lookup_lt_Some; exact Es|discriminate L].
Qed.

(** [clone] allocates the objects of the copy and touches nothing that
    existed; the copy holds the fields of the source. *)
Lemma clone_spec (h : list Heap.cell) (p : nat) (f : Facade) :
  Heap.load h p = Some f ->
  typed (generator f) ->
  exists c h',
    Heap.clone h p = Some (Returns (c, h')) /\
    extends h h' /\
    Heap.load h' c = Some f /\
    (forall l, l ∈ Heap.footprint h' c -> (length h <= l)%nat).
Proof.
  intros L T.
  pose proof L as L0. unfold Heap.load in L. unfold Heap.clone.
  destruct (h !! p) as [[ws|o|gl sp hs]|] eqn:Ep; try discriminate L.
  destruct (Heap.load_gen h gl) as [g|] eqn:Lg; try discriminate L.
  injection L as <-. cbn [mbind option_bind generator] in *.
  unfold Heap.new. rewrite resolve_name.
  destruct (new_gen_extends h (Gen.algorithm g) (SeedNum 0)) as [X1 R1].
  destruct (Heap.new_gen h (Gen.algorithm g) (SeedNum 0)) as [gl0 h1]; cbn [fst snd] in *.
  destruct (extends_alloc h1 (Heap.CFacade gl0 None false)) as (X2 & Ec & Lc & Len2).
  destruct (Heap.alloc h1 (Heap.CFacade gl0 None false)) as [cloned h1'] eqn:Ea;
    cbn [fst snd] in *. subst cloned.
  assert (X12 : extends h h1') by (eapply extends_trans; eassumption).
  destruct (clone_gen_spec h1' gl g (load_gen_extends _ _ _ _ X12 Lg))
    as (gl' & h2 & Eg & X3 & Rg & Lg' & Fg).
  rewrite Eg. cbn [mbind option_bind].
  assert (Lc2 : h2 !! length h1 = Some (Heap.CFacade gl0 None false)).
  { destruct X3 as [_ E3]. rewrite E3 by lia. exact Lc. }
  rewrite Lc2.
  eexists _, _. split; [reflexivity|].
  assert (Len1 : (length h <= length h1)%nat) by (destruct X1; assumption).
  assert (X : extends h (<[length h1 := Heap.CFacade gl' sp hs]> h2)).
  { apply extends_insert; [|exact Len1].
    eapply extends_trans; [exact X12|exact X3]. }
  assert (Hc : (length h1 < length h2)%nat) by (eapply lookup_lt_Some; exact Lc2).
  assert (Lgen : Heap.load_gen (<[length h1 := Heap.CFacade gl' sp hs]> h2) gl'
                 = Some (Gen.clone g)).
  { rewrite <- Lg'. apply load_gen_frame.
    - apply list_lookup_insert_ne. lia.
    - intros sd sl E. apply list_lookup_insert_ne.
      pose proof (Fg sd sl (or_introl E)). lia.
    - intros sd sl E. apply list_lookup_insert_ne.
      pose proof (Fg sd sl (or_intror E)). lia. }
  split; [exact X|]. split.
  - unfold Heap.load. rewrite list_lookup_insert_eq by exact Hc.
    rewrite Lgen. cbn [mbind option_bind]. rewrite gen_clone_typed by exact T.
    reflexivity.
  - intros l. unfold Heap.footprint.
    rewrite list_lookup_insert_eq by exact Hc.
    rewrite list_lookup_insert_ne by lia.
    destruct (h2 !! gl') as [[?|o|? ? ?]|] eqn:E2; try (set_unfold; lia).
    destruct o as [g0|sd sl|sd sl|g0|g0|g0]; try (set_unfold; lia).
    + pose proof (Fg sd sl (or_introl eq_refl)). set_unfold; lia.
    + pose proof (Fg sd sl (or_intror eq_refl)). set_unfold; lia.
Qed.

(** Two instances with disjoint objects run as two values do. *)
Lemma exec_two (Math : MathLib) (fuel : nat) (p c : nat) (sched : list (bool * Draw)) :
  forall (h : list Heap.cell) (fp fc : Facade),
    Heap.load h p = Some fp ->
    Heap.load h c = Some fc ->
    Heap.footprint h p ## Heap.footprint h c ->
    exists h',
      Heap.exec Math fuel (map (fun bd : bool * Draw => (if fst bd then p else c, snd bd)) sched) h
        = Some (fst (Heap.exec2 Math fuel sched (fp, fc)), h') /\
      Heap.load h' p = Some (fst (snd (Heap.exec2 Math fuel sched (fp, fc)))) /\
      Heap.load h' c = Some (snd (snd (Heap.exec2 Math fuel sched (fp, fc)))).
Proof.
  induction sched as [|[b d] sched IH]; intros h fp fc Lp Lc D.
  - exists h. simpl. auto.
  - cbn [map Heap.exec Heap.exec2 fst snd]. destruct b.
    + destruct (draw_spec Math fuel d h p fp Lp) as (h1 & E1 & L1 & M1 & F1).
      destruct (modifies_frame h h1 _ c M1 (fun l Hc Hp => D l Hp Hc)) as [L1c F1c].
      rewrite E1. cbn [mbind option_bind].
      destruct (run_draw Math fuel d fp) as [r fp1]; cbn [fst snd] in *.
      destruct (IH h1 fp1 fc L1 ltac:(rewrite L1c; exact Lc)
                   ltac:(rewrite F1, F1c; exact D)) as (h2 & E2 & L2p & L2c).
      rewrite E2. cbn [mbind option_bind].
      destruct (Heap.exec2 Math fuel sched (fp1, fc)) as [rs [fp2 fc2]]; cbn [fst snd] in *.
      exists h2. auto.
    + destruct (draw_spec Math fuel d h c fc Lc) as (h1 & E1 & L1 & M1 & F1).
      destruct (modifies_frame h h1 _ p M1 D) as [L1p F1p].
      rewrite E1. cbn [mbind option_bind].
      destruct (run_draw Math fuel d fc) as [r fc1]; cbn [fst snd] in *.
      destruct (IH h1 fp fc1 ltac:(rewrite L1p; exact Lp) L1
                   ltac:(rewrite F1, F1p; exact D)) as (h2 & E2 & L2p & L2c).
      rewrite E2. cbn [mbind option_bind].
      destruct (Heap.exec2 Math fuel sched (fp, fc1)) as [rs [fp2 fc2]]; cbn [fst snd] in *.
      exists h2. auto.
Qed.

(** The results of a program on one of two values do not depend on which
    of the two it is, nor on the other. *)
Lemma exec2_side (Math : MathLib) (fuel : nat) (ds : list Draw) :
  forall f g g' : Facade,
    fst (Heap.exec2 Math fuel (map (pair true) ds) (f, g))
    = fst (Heap.exec2 Math fuel (map (pair false) ds) (g', f)).
Proof.
  induction ds as [|d ds IH]; intros f g g'; [reflexivity|].
  cbn [map Heap.exec2 fst snd].
  destruct (run_draw Math fuel d f) as [r f1].
  specialize (IH f1 g g').
  destruct (Heap.exec2 Math fuel (map (pair true) ds) (f1, g)) as [rs1 fs1].
  destruct (Heap.exec2 Math fuel (map (pair false) ds) (g', f1)) as [rs2 fs2].
  cbn [fst] in *. rewrite IH. reflexivity.
Qed.

(** C9. [clone()] returns a new object whose fields load as the fields
    of the source, so that any draws made from the clone alone return what
    the same draws made from the source alone return; the objects of the
    two instances are disjoint, nothing that existed before the call is
    changed by it, and a program that draws from the two in any order
    computes on each what it would compute on two separate values. *)
Theorem C9_clone_independent (Math : MathLib) (h : list Heap.cell) (p : nat) (f : Facade) :
  Heap.load h p = Some f ->
  typed (generator f) ->
  exists (c : nat) (h' : list Heap.cell),
    Heap.clone h p = Some (Returns (c, h')) /\
    (length h <= c)%nat /\
    Heap.load h' p = Some f /\
    Heap.load h' c = Some f /\
    Heap.footprint h' p ## Heap.footprint h' c /\
    (forall (fuel : nat) (ds : list Draw),
        exists rs hp hc,
          Heap.exec Math fuel (map (pair p) ds) h' = Some (rs, hp) /\
          Heap.exec Math fuel (map (pair c) ds) h' = Some (rs, hc)) /\
    (forall (fuel : nat) (sched : list (bool * Draw)),
        exists h'',
          Heap.exec Math fuel (map (fun bd : bool * Draw => (if fst bd then p else c, snd bd)) sched) h'
            = Some (fst (Heap.exec2 Math fuel sched (f, f)), h'') /\
          Heap.load h'' p = Some (fst (snd (Heap.exec2 Math fuel sched (f, f)))) /\
          Heap.load h'' c = Some (snd (snd (Heap.exec2 Math fuel sched (f, f))))).
Proof.
  intros L T.
  destruct (clone_spec h p f L T) as (c & h' & E & X & Lc & Fc).
  destruct (load_extends h h' p f X L) as [Lp Fp].
  assert (D : Heap.footprint h' p ## Heap.footprint h' c).
  { intros l Hp Hc. rewrite Fp in Hp.
    pose proof (footprint_allocated h p f L l Hp).
    pose proof (Fc l Hc). lia. }
  exists c, h'. split; [exact E|]. split.
  { apply Fc. unfold Heap.footprint. set_solver. }
  split; [exact Lp|]. split; [exact Lc|]. split; [exact D|]. split.
  - intros fuel ds.
    destruct (exec_two Math fuel p c (map (pair true) ds) h' f f Lp Lc D) as (hp & Ep & _).
    destruct (exec_two Math fuel p c (map (pair false) ds) h' f f Lp Lc D) as (hc & Ec & _).
    rewrite map_map in Ep, Ec. cbn [fst snd] in Ep, Ec.
    exists (fst (Heap.exec2 Math fuel (map (pair true) ds) (f, f))), hp, hc.
    split; [exact Ep|].
    rewrite (exec2_side Math fuel ds f f f). exact Ec.
  - intros fuel sched. apply exec_two; assumption.
Qed.

Lemma C9_clone_independent_witness :
  exists (c : nat) (h' : list Heap.cell),
    Heap.clone example_heap 2 = Some (Returns (c, h')) /\
    (length example_heap <= c)%nat /\
    Heap.load h' 2 = Some example_heap_instance /\
    Heap.load h' c = Some example_heap_instance /\
    Heap.footprint h' 2 ## Heap.footprint h' c /\
    (forall (fuel : nat) (ds : list Draw),
        exists rs hp hc,
          Heap.exec example_Math fuel (map (pair 2%nat) ds) h' = Some (rs, hp) /\
          Heap.exec example_Math fuel (map (pair c) ds) h' = Some (rs, hc)) /\
    (forall (fuel : nat) (sched : list (bool * Draw)),
        exists h'',
          Heap.exec example_Math fuel
            (map (fun bd : bool * Draw => (if fst bd then 2%nat else c, snd bd)) sched) h'
            = Some (fst (Heap.exec2 example_Math fuel sched
                           (example_heap_instance, example_heap_instance)), h'') /\
          Heap.load h'' 2
            = Some (fst (snd (Heap.exec2 example_Math fuel sched
                                (example_heap_instance, example_heap_instance)))) /\
          Heap.load h'' c
            = Some (snd (snd (Heap.exec2 example_Math fuel sched
                                (example_heap_instance, example_heap_instance))))).
Proof.
  apply (C9_clone_independent example_Math example_heap 2 example_heap_instance).
  - reflexivity.
  - apply Uint32Array_typed.
Defined.

(** ** Instances as objects: construction and two runs *)

Lemma algorithm_run_call (Math : MathLib) (MathX : MathExt) (fuel : nat) (c : Call)
    (f : Facade) :
  Gen.algorithm (generator (snd (run_call Math MathX fuel c f)))
  = Gen.algorithm (generator f).
Proof.
  destruct (run_call Math MathX fuel c f) as [r f'] eqn:E. simpl.
  apply (preserves_run_call (fun g => Gen.algorithm g = Gen.algorithm (generator f))
           (fun g H => eq_trans (algorithm_nextInt g) H) Math MathX fuel c f r f' E).
  reflexivity.
Qed.

(** A call on the instance at [p] is the method on its fields, and it
    writes to the objects of that instance only. *)
Lemma call_spec (Math : MathLib) (MathX : MathExt) (fuel : nat) (c : Call)
    (h : Heap.heap) (p : Heap.loc) (f : Facade) :
  Heap.load h p = Some f ->
  exists h',
    Heap.call Math MathX fuel c p h = Some (fst (run_call Math MathX fuel c f), h') /\
    Heap.load h' p = Some (snd (run_call Math MathX fuel c f)) /\
    Heap.modifies h h' (Heap.footprint h p) /\
    Heap.footprint h' p = Heap.footprint h p.
Proof.
  intros L. unfold Heap.call. rewrite L. simpl.
  pose proof (algorithm_run_call Math MathX fuel c f) as A.
  destruct (run_call Math MathX fuel c f) as [r f']. simpl in *.
  destruct (store_spec h p f f' L A) as (h' & S & L' & M & F).
  rewrite S. simpl. exists h'. auto.
Qed.

(** A program on one instance returns what the methods return on its
    fields, whatever else the heap holds. *)
Lemma run_one (Math : MathLib) (MathX : MathExt) (fuel : nat) (p : nat)
    (calls : list Call) :
  forall (h : list Heap.cell) (f : Facade),
    Heap.load h p = Some f ->
    exists h',
      Heap.run Math MathX fuel (map (pair p) calls) h
        = Some (fst (run_calls Math MathX fuel calls f), h') /\
      Heap.load h' p = Some (snd (run_calls Math MathX fuel calls f)).
Proof.
  induction calls as [|c calls IH]; intros h f L.
  - exists h. simpl. auto.
  - cbn [map Heap.run run_calls].
    destruct (call_spec Math MathX fuel c h p f L) as (h1 & E1 & L1 & _ & _).
    rewrite E1. cbn [mbind option_bind].
    destruct (run_call Math MathX fuel c f) as [r f1]; cbn [fst snd] in *.
    destruct (IH h1 f1 L1) as (h2 & E2 & L2).
    rewrite E2. cbn [mbind option_bind].
    destruct (run_calls Math MathX fuel calls f1) as [rs f2]; cbn [fst snd] in *.
    exists h2. auto.
Qed.

(** Two instances with disjoint objects run as two values do. *)
Lemma run_two (Math : MathLib) (MathX : MathExt) (fuel : nat) (p c : nat)
    (sched : list (bool * Call)) :
  forall (h : list Heap.cell) (fp fc : Facade),
    Heap.load h p = Some fp ->
    Heap.load h c = Some fc ->
    Heap.footprint h p ## Heap.footprint h c ->
    exists h',
      Heap.run Math MathX fuel
        (map (fun bc : bool * Call => (if fst bc then p else c, snd bc)) sched) h
        = Some (fst (Heap.run2 Math MathX fuel sched (fp, fc)), h') /\
      Heap.load h' p = Some (fst (snd (Heap.run2 Math MathX fuel sched (fp, fc)))) /\
      Heap.load h' c = Some (snd (snd (Heap.run2 Math MathX fuel sched (fp, fc)))).
Proof.
  induction sched as [|[b d] sched IH]; intros h fp fc Lp Lc D.
  - exists h. simpl. auto.
  - cbn [map Heap.run Heap.run2 fst snd]. destruct b.
    + destruct (call_spec Math MathX fuel d h p fp Lp) as (h1 & E1 & L1 & M1 & F1).
      destruct (modifies_frame h h1 _ c M1 (fun l Hc Hp => D l Hp Hc)) as [L1c F1c].
      rewrite E1. cbn [mbind option_bind].
      destruct (run_call Math MathX fuel d fp) as [r fp1]; cbn [fst snd] in *.
      destruct (IH h1 fp1 fc L1 ltac:(rewrite L1c; exact Lc)
                   ltac:(rewrite F1, F1c; exact D)) as (h2 & E2 & L2p & L2c).
      rewrite E2. cbn [mbind option_bind].
      destruct (Heap.run2 Math MathX fuel sched (fp1, fc)) as [rs [fp2 fc2]];
        cbn [fst snd] in *.
      exists h2. auto.
    + destruct (call_spec Math MathX fuel d h c fc Lc) as (h1 & E1 & L1 & M1 & F1).
      destruct (modifies_frame h h1 _ p M1 D) as [L1p F1p].
      rewrite E1. cbn [mbind option_bind].
      destruct (run_call Math MathX fuel d fc) as [r fc1]; cbn [fst snd] in *.
      destruct (IH h1 fp fc1 ltac:(rewrite L1p; exact Lp) L1
                   ltac:(rewrite F1, F1p; exact D)) as (h2 & E2 & L2p & L2c).
      rewrite E2. cbn [mbind option_bind].
      destruct (Heap.run2 Math MathX fuel sched (fp, fc1)) as [rs [fp2 fc2]];
        cbn [fst snd] in *.
      exists h2. auto.
Qed.

(** [new PRNG(seed, key)] allocates the objects of the new instance past
    everything that exists and touches nothing else; the instance holds
    the generator of the key's algorithm, seeded, and an empty cache. *)
Lemma new_spec (h : list Heap.cell) (seed : Seed) (key : string) (a : Algorithm) :
  Gen.resolve key = Some a ->
  exists (p : nat) (h' : list Heap.cell),
    Heap.new h seed key = Returns (p, h') /\
    extends h h' /\
    Heap.load h' p = Some (mkFacade (Gen.new a seed) None false) /\
    (forall l, l ∈ Heap.footprint h' p -> (length h <= l)%nat).
Proof.
  intros R. unfold Heap.new. rewrite R.
  destruct a; unfold Heap.new_gen, Heap.alloc; cbn [fst snd];
    eexists _, _; (split; [reflexivity|]);
    (split; [split; [rewrite ?length_app; cbn [length]; lia
                    |intros l Hl; heap_app; reflexivity]|]);
    (split; [unfold Heap.load, Heap.load_gen, Heap.read_arr; heap_app; reflexivity|]);
    intros l; unfold Heap.footprint; heap_app;
    rewrite ?length_app; cbn [length]; set_unfold; lia.
Qed.

(** C1. Two instances constructed from the same seed and from keys of the
    same algorithm, in two runs that differ in everything else -- the
    reading of the clock, the objects that exist already, the place of the
    new objects -- hold the same fields: the generator that the algorithm
    derives from the seed, and an empty cache.  Every sequence of calls of
    drawing methods returns on both the same sequence of outcomes.  When
    the second instance is constructed later in the run of the first,
    after any allocations and any writes to other objects, the two share
    no object, and a program that calls the two in any order computes on
    each what it computes on a value of its own. *)
Theorem C1_same_seed_same_sequence (Math : MathLib) (MathX : MathExt)
    (env1 env2 : Env) (h1 h2 : list Heap.cell) (seed : Seed) (key1 key2 : string)
    (p1 p2 : nat) (h1' h2' : list Heap.cell) :
  Gen.resolve key1 = Gen.resolve key2 ->
  Heap.construct env1 h1 (Some seed) (Some key1) = Returns (p1, h1') ->
  Heap.construct env2 h2 (Some seed) (Some key2) = Returns (p2, h2') ->
  exists (a : Algorithm) (f : Facade),
    Gen.resolve key1 = Some a /\
    f = mkFacade (Gen.new a seed) None false /\
    Heap.load h1' p1 = Some f /\
    Heap.load h2' p2 = Some f /\
    (forall (fuel : nat) (calls : list Call),
        exists g1 g2,
          Heap.run Math MathX fuel (map (pair p1) calls) h1'
            = Some (fst (run_calls Math MathX fuel calls f), g1) /\
          Heap.run Math MathX fuel (map (pair p2) calls) h2'
            = Some (fst (run_calls Math MathX fuel calls f), g2)) /\
    (untouched h1' h2 p1 ->
       Heap.load h2' p1 = Some f /\
       Heap.footprint h2' p1 ## Heap.footprint h2' p2 /\
       forall (fuel : nat) (sched : list (bool * Call)),
         exists h'',
           Heap.run Math MathX fuel
             (map (fun bc : bool * Call => (if fst bc then p1 else p2, snd bc)) sched) h2'
             = Some (fst (Heap.run2 Math MathX fuel sched (f, f)), h'') /\
           Heap.load h'' p1 = Some (fst (snd (Heap.run2 Math MathX fuel sched (f, f)))) /\
           Heap.load h'' p2 = Some (snd (snd (Heap.run2 Math MathX fuel sched (f, f))))).
Proof.
  intros R E1 E2.
  change (Heap.new h1 seed key1 = Returns (p1, h1')) in E1.
  change (Heap.new h2 seed key2 = Returns (p2, h2')) in E2.
  destruct (Gen.resolve key1) as [a|] eqn:R1;
    [|unfold Heap.new in E1; rewrite R1 in E1; discriminate E1].
  destruct (new_spec h1 seed key1 a R1) as (q1 & k1 & N1 & X1 & L1 & F1).
  destruct (new_spec h2 seed key2 a (eq_sym R)) as (q2 & k2 & N2 & X2 & L2 & F2).
  rewrite N1 in E1. injection E1 as -> ->.
  rewrite N2 in E2. injection E2 as -> ->.
  exists a, (mkFacade (Gen.new a seed) None false).
  split; [reflexivity|]. split; [reflexivity|].
  split; [exact L1|]. split; [exact L2|]. split.
  - intros fuel calls.
    destruct (run_one Math MathX fuel p1 calls h1' _ L1) as (g1 & G1 & _).
    destruct (run_one Math MathX fuel p2 calls h2' _ L2) as (g2 & G2 & _).
    exists g1, g2. auto.
  - intros [Len U].
    destruct (load_frame h1' h2 p1 U) as [La Fa]. rewrite L1 in La.
    destruct (load_extends h2 h2' p1 _ X2 La) as [L1' F1'].
    assert (D : Heap.footprint h2' p1 ## Heap.footprint h2' p2).
    { intros l Hp Hc. rewrite F1', Fa in Hp.
      pose proof (footprint_allocated h1' p1 _ L1 l Hp).
      pose proof (F2 l Hc). lia. }
    split; [exact L1'|]. split; [exact D|].
    intros fuel sched. apply run_two; assumption.
Qed.

Lemma C1_same_seed_same_sequence_witness :
  Heap.construct (mkEnv 1700000000000) example_heap (Some (SeedStr "same-seed"))
    (Some "sfc32"%string) = Returns (4%nat, example_heap_two) /\
  exists (p2 : nat) (h2' : list Heap.cell),
    Heap.construct (mkEnv 1700000000999) example_heap_two (Some (SeedStr "same-seed"))
      (Some "SFC"%string) = Returns (p2, h2') /\
    exists f : Facade,
      f = mkFacade (Gen.new ASFC32 (SeedStr "same-seed")) None false /\
      Heap.load example_heap_two 4 = Some f /\
      Heap.load h2' p2 = Some f /\
      (forall (fuel : nat) (calls : list Call),
          exists g1 g2,
            Heap.run example_Math example_MathX fuel (map (pair 4%nat) calls) example_heap_two
              = Some (fst (run_calls example_Math example_MathX fuel calls f), g1) /\
            Heap.run example_Math example_MathX fuel (map (pair p2) calls) h2'
              = Some (fst (run_calls example_Math example_MathX fuel calls f), g2)) /\
      Heap.load h2' 4 = Some f /\
      Heap.footprint h2' 4 ## Heap.footprint h2' p2 /\
      forall (fuel : nat) (sched : list (bool * Call)),
        exists h'',
          Heap.run example_Math example_MathX fuel
            (map (fun bc : bool * Call => (if fst bc then 4%nat else p2, snd bc)) sched) h2'
            = Some (fst (Heap.run2 example_Math example_MathX fuel sched (f, f)), h'') /\
          Heap.load h'' 4
            = Some (fst (snd (Heap.run2 example_Math example_MathX fuel sched (f, f)))) /\
          Heap.load h'' p2
            = Some (snd (snd (Heap.run2 example_Math example_MathX fuel sched (f, f)))).
Proof.
  split; [reflexivity|]. eexists _, _. split; [reflexivity|].
  destruct (C1_same_seed_same_sequence example_Math example_MathX
              (mkEnv 1700000000000) (mkEnv 1700000000999) example_heap example_heap_two
              (SeedStr "same-seed") "sfc32" "SFC" _ _ _ _ eq_refl eq_refl eq_refl)
    as (a & f & Ra & Ef & L1 & L2 & A & B).
  injection Ra as <-.
  exists f. split; [exact Ef|]. split; [exact L1|]. split; [exact L2|]. split; [exact A|].
  apply B. split; [apply le_n|]. intros l _. reflexivity.
Defined.

(** Where the seed is left out the clock decides: the global instance
    that [PRNG_Library.random()] makes on its first call draws differently
    at different times. *)
Lemma default_seed_reads_clock :
  fst (global_random (mkEnv 1700000000000) None)
  <> fst (global_random (mkEnv 1700000000999) None).
Proof. vm_compute. discriminate. Qed.


Lemma C7_configuration_errors_witness :
  (exists msg, PRNG.new (SeedStr "s") (Some "mersenne"%string) = Throws msg) /\
  (exists msg p',
      PRNG.weightedPick [VNum 1; VNum 2] [1%Q] example_saved_instance
      = (Throws msg, p')) /\
  (exists msg p',
      PRNG.beta example_Math 10 0 2 example_saved_instance = (Throws msg, p')).
Proof.
  destruct (C7_configuration_errors example_Math) as (H1 & _ & _ & H4 & _ & H6 & _).
  split; [|split].
  - apply H1. apply resolve_None_iff. reflexivity.
  - apply H4. simpl. lia.
  - apply H6. left. apply Qle_refl.
Defined.

(** ** Raw draws and booleans *)

(** X1. [randomInt()] returns an unsigned 32-bit integer, for every
    generator and every state. *)
Theorem X1_randomInt_uint32 (p : Facade) :
  exists n p', PRNG.randomInt p = (Returns n, p') /\ 0 <= n < 4294967296.
Proof.
  unfold PRNG.randomInt.
  pose proof (nextInt_uint32 (generator p)) as H.
  destruct (Gen.nextInt (generator p)) as [n g']. eexists _, _.
  split; [reflexivity|exact H].
Qed.

(** X3. [bool(p)] is [false] for every [p <= 0] and [true] for every
    [p >= 1], whatever the generator draws; [sign] returns 1 or -1. *)
Theorem X3_bool_extremes (p : Facade) (pr : Q) :
  lcg_ok (generator p) ->
  ((pr <= 0)%Q -> fst (PRNG.bool pr p) = Returns false) /\
  ((1 <= pr)%Q -> fst (PRNG.bool pr p) = Returns true) /\
  (fst (PRNG.sign pr p) = Returns 1 \/ fst (PRNG.sign pr p) = Returns (-1)).
Proof.
  intros Hg. unfold PRNG.sign, PRNG.bool, bind. rewrite random_spec. cbn [fst].
  destruct (next_unit_interval (generator p) Hg) as [H0 H1].
  set (x := fst (Gen.next (generator p))) in *.
  unfold ret, Qltb. repeat split.
  - intros Hp. cbn [fst]. f_equal.
    apply negb_false_iff, Qle_bool_iff. lra.
  - intros Hp. cbn [fst]. f_equal.
    apply negb_true_iff. destruct (Qle_bool pr x) eqn:E; [|reflexivity].
    apply Qle_bool_iff in E. lra.
  - destruct (negb (Qle_bool pr x)); cbn [fst]; auto.
Qed.

Lemma X3_bool_extremes_witness :
  ((0 <= 0)%Q -> fst (PRNG.bool 0 example_saved_instance) = Returns false) /\
  ((1 <= 0)%Q -> fst (PRNG.bool 0 example_saved_instance) = Returns true) /\
  (fst (PRNG.sign 0 example_saved_instance) = Returns 1 \/
   fst (PRNG.sign 0 example_saved_instance) = Returns (-1)).
Proof.
  apply (X3_bool_extremes example_saved_instance 0). exact I.
Defined.

(** ** Array utilities *)

Lemma delete_insert_same {A} (l : list A) (i : nat) (x : A) :
  delete i (<[i := x]> l) = delete i l.
Proof.
  rewrite !delete_take_drop.
  rewrite take_insert_ge by lia. rewrite drop_insert_lt by lia. reflexivity.
Qed.

(** Exchanging two elements of a list permutes it. *)
Lemma swap_Permutation {A} (a : list A) (i j : nat) (ai aj : A) :
  a !! i = Some ai -> a !! j = Some aj ->
  <[j := ai]> (<[i := aj]> a) ≡ₚ a.
Proof.
  intros Hi Hj.
  assert (Li : (i < length a)%nat) by (eapply lookup_lt_Some; exact Hi).
  assert (Lj : (j < length a)%nat) by (eapply lookup_lt_Some; exact Hj).
  destruct (decide (i = j)) as [->|N].
  - rewrite list_insert_insert_eq. rewrite Hi in Hj. injection Hj as ->.
    rewrite list_insert_id by exact Hi. reflexivity.
  - set (b := <[i := aj]> a).
    assert (Bi : b !! i = Some aj) by (apply list_lookup_insert_eq; exact Li).
    assert (Bj : b !! j = Some aj)
      by (unfold b; rewrite list_lookup_insert_ne by exact N; exact Hj).
    assert (Cj : <[j := ai]> b !! j = Some ai)
      by (apply list_lookup_insert_eq; unfold b; rewrite length_insert; exact Lj).
    rewrite (delete_Permutation _ _ _ Cj). rewrite delete_insert_same.
    rewrite (delete_Permutation a _ _ Hi).
    apply Permutation_cons; [reflexivity|].
    replace (delete i a) with (delete i b) by apply delete_insert_same.
    apply (Permutation_cons_inv (a := aj)).
    rewrite <- (delete_Permutation _ _ _ Bj), <- (delete_Permutation _ _ _ Bi).
    reflexivity.
Qed.

Lemma arr_get_lookup (a : list Value) (j : Z) :
  0 <= j < Z.of_nat (length a) -> a !! Z.to_nat j = Some (arr_get a j).
Proof.
  intros Hj. unfold arr_get.
  destruct (Z.ltb_spec j 0); [lia|].
  destruct (a !! Z.to_nat j) as [v|] eqn:E; [reflexivity|].
  apply lookup_ge_None_1 in E. lia.
Qed.

Lemma shuffle_from_Permutation (i : nat) :
  forall (array : list Value) (p : Facade),
    lcg_ok (generator p) ->
    (i < length array)%nat ->
    exists array' p',
      PRNG.shuffle_from i array p = (Returns array', p') /\
      array' ≡ₚ array /\
      lcg_ok (generator p').
Proof.
  induction i as [|i IH]; intros array p Hg Hi; simpl.
  - exists array, p. auto.
  - unfold bind. rewrite int_spec.
    destruct (next_unit_interval (generator p) Hg) as [H0 H1].
    set (x := fst (Gen.next (generator p))) in *.
    change (Qceiling 0) with 0. rewrite Qfloor_Z.
    pose proof (int_range p 0 (Z.of_nat (S i)) x H0 H1 ltac:(lia)) as R.
    set (j := Qfloor (x * inject_Z (Z.of_nat (S i) - 0 + 1)) + 0) in *.
    rewrite (arr_set_in_range array) by lia.
    rewrite arr_set_in_range by (rewrite length_insert; lia).
    pose proof (arr_get_lookup array (Z.of_nat (S i)) ltac:(lia)) as Gi.
    pose proof (arr_get_lookup array j ltac:(lia)) as Gj.
    pose proof (swap_Permutation array _ _ _ _ Gi Gj) as SP.
    destruct (IH (<[Z.to_nat j := arr_get array (Z.of_nat (S i))]>
                    (<[Z.to_nat (Z.of_nat (S i)) := arr_get array j]> array))
                 (mkFacade (snd (Gen.next (generator p))) (_spareNormal p)
                           (_hasSpareNormal p))) as (arr' & p' & E & Pm & G).
    + simpl. rewrite next_state. apply lcg_ok_nextInt. exact Hg.
    + rewrite !length_insert. lia.
    + exists arr', p'. rewrite E. split; [reflexivity|]. split; [|exact G].
      rewrite Pm. exact SP.
Qed.

Lemma shuffle_Permutation (array : list Value) (p : Facade) :
  lcg_ok (generator p) ->
  exists out p',
    PRNG.shuffle array p = (Returns out, p') /\ out ≡ₚ array /\ lcg_ok (generator p').
Proof.
  intros Hg. unfold PRNG.shuffle.
  destruct array as [|v array].
  - exists [], p. auto.
  - apply shuffle_from_Permutation; [exact Hg|simpl; lia].
Qed.

(** X4. [shuffled(array)] returns a rearrangement of [array]: the same
    elements with the same multiplicities. *)
Theorem X4_shuffled_is_permutation (array : list Value) (p : Facade) :
  lcg_ok (generator p) ->
  exists out p', PRNG.shuffled array p = (Returns out, p') /\ out ≡ₚ array.
Proof.
  intros Hg. destruct (shuffle_Permutation array p Hg) as (out & p' & E & Pm & _).
  exists out, p'. auto.
Qed.

Lemma X4_shuffled_is_permutation_witness :
  exists out p',
    PRNG.shuffled [VNum 1; VNum 2; VNum 3; VNum 4; VNum 5] example_saved_instance
      = (Returns out, p') /\
    out ≡ₚ [VNum 1; VNum 2; VNum 3; VNum 4; VNum 5].
Proof.
  apply (X4_shuffled_is_permutation _ example_saved_instance). exact I.
Defined.

(** X5. [shuffle] of an array with at most one element returns it as it
    is and draws nothing. *)
Theorem X5_shuffle_short (array : list Value) (p : Facade) :
  (length array <= 1)%nat -> PRNG.shuffle array p = (Returns array, p).
Proof.
  intros H. unfold PRNG.shuffle.
  destruct array as [|v [|w array]]; simpl in *; try reflexivity. lia.
Qed.

Lemma X5_shuffle_short_witness :
  PRNG.shuffle [VBool true] example_saved_instance
  = (Returns [VBool true], example_saved_instance).
Proof. apply X5_shuffle_short. simpl. lia. Defined.

(** X6. [sample(array, n)] with [n >= 0] returns exactly
    [min(n, array.length)] elements, and they are elements of [array] taken
    without repetition (a sub-multiset of it). *)
Theorem X6_sample_size (array : list Value) (n : Z) (p : Facade) :
  lcg_ok (generator p) ->
  0 <= n ->
  exists out p',
    PRNG.sample array n p = (Returns out, p') /\
    Z.of_nat (length out) = Z.min n (Z.of_nat (length array)) /\
    out ⊆+ array.
Proof.
  intros Hg Hn. unfold PRNG.sample, PRNG.shuffled, bind.
  destruct (shuffle_Permutation array p Hg) as (sh & p' & E & Pm & _).
  rewrite E. eexists _, _. split; [reflexivity|].
  unfold slice0. destruct (Z.ltb_spec (Z.min n (Z.of_nat (length array))) 0); [lia|].
  split.
  - rewrite length_take. rewrite (Permutation_length Pm). lia.
  - transitivity sh; [apply sublist_submseteq, sublist_take|].
    apply Permutation_submseteq. exact Pm.
Qed.

Lemma X6_sample_size_witness :
  exists out p',
    PRNG.sample [VNum 1; VNum 2; VNum 3] 7 example_saved_instance = (Returns out, p') /\
    Z.of_nat (length out) = Z.min 7 (Z.of_nat (length [VNum 1; VNum 2; VNum 3])) /\
    out ⊆+ [VNum 1; VNum 2; VNum 3].
Proof.
  apply (X6_sample_size _ 7 example_saved_instance); [exact I|lia].
Defined.

(** X7. [pick] of the empty array returns [undefined] without drawing;
    [pick] of any other array makes one draw and returns one of its
    elements. *)
Theorem X7_pick (array : list Value) (p : Facade) :
  lcg_ok (generator p) ->
  (array = [] -> PRNG.pick array p = (Returns VUndefined, p)) /\
  (array <> [] ->
   exists v, PRNG.pick array p = (Returns v, snd (PRNG.random p)) /\ v ∈ array).
Proof.
  intros Hg. split.
  - intros ->. reflexivity.
  - intros N. unfold PRNG.pick.
    destruct array as [|v0 array]; [congruence|]. cbn [length Nat.eqb].
    unfold bind. rewrite int_spec, random_spec. cbn [snd].
    destruct (next_unit_interval (generator p) Hg) as [H0 H1].
    set (x := fst (Gen.next (generator p))) in *.
    change (Qceiling 0) with 0.
    replace (inject_Z (Z.of_nat (S (length array)) - 1))
      with (inject_Z (Z.of_nat (length array))) by (f_equal; lia).
    rewrite Qfloor_Z.
    pose proof (int_range p 0 (Z.of_nat (length array)) x H0 H1 ltac:(lia)) as R.
    eexists. split; [reflexivity|].
    eapply list_elem_of_lookup_2. apply arr_get_lookup. simpl length. lia.
Qed.

Lemma X7_pick_witness :
  ([VNum 7; VNum 8] = [] ->
   PRNG.pick [VNum 7; VNum 8] example_saved_instance
   = (Returns VUndefined, example_saved_instance)) /\
  ([VNum 7; VNum 8] <> [] ->
   exists v,
     PRNG.pick [VNum 7; VNum 8] example_saved_instance
     = (Returns v, snd (PRNG.random example_saved_instance)) /\
     v ∈ [VNum 7; VNum 8]).
Proof. apply (X7_pick _ example_saved_instance). exact I. Defined.

Lemma weightedPick_scan_elem (items : list Value) (weights : list Q) (k : nat) :
  forall (i : Z) (x : Q),
    items <> [] -> 0 <= i -> i + Z.of_nat k = Z.of_nat (length items) ->
    PRNG.weightedPick_scan k i items weights x ∈ items.
Proof.
  induction k as [|k IH]; intros i x N Hi Hk; simpl.
  - eapply list_elem_of_lookup_2. apply arr_get_lookup.
    destruct items; [congruence|]. simpl length. lia.
  - destruct (Qle_bool _ 0).
    + eapply list_elem_of_lookup_2. apply arr_get_lookup. lia.
    + apply IH; [exact N|lia|lia].
Qed.

(** X8. [weightedPick(items, weights)] on arrays of one length that are
    not empty makes one draw and returns an element of [items], whatever
    the weights are. *)
Theorem X8_weightedPick_returns_item (items : list Value) (weights : list Q) (p : Facade) :
  length items = length weights ->
  items <> [] ->
  exists v,
    PRNG.weightedPick items weights p = (Returns v, snd (PRNG.random p)) /\
    v ∈ items.
Proof.
  intros L N. unfold PRNG.weightedPick. rewrite L, Nat.eqb_refl. cbn [negb].
  unfold bind. rewrite random_spec. cbn [snd]. eexists. split; [reflexivity|].
  rewrite <- L. apply weightedPick_scan_elem; [exact N|lia|lia].
Qed.

Lemma X8_weightedPick_returns_item_witness :
  exists v,
    PRNG.weightedPick [VNum 1; VNum 2] [0%Q; 0%Q] example_saved_instance
      = (Returns v, snd (PRNG.random example_saved_instance)) /\
    v ∈ [VNum 1; VNum 2].
Proof.
  apply (X8_weightedPick_returns_item _ _ example_saved_instance);
    [reflexivity|discriminate].
Defined.

Lemma binomial_loop_range (n : nat) (pr : Q) :
  forall (k : Z) (p : Facade),
    exists r p',
      PRNG.binomial_loop n pr k p = (Returns r, p') /\ k <= r <= k + Z.of_nat n.
Proof.
  induction n as [|n IH]; intros k p; simpl.
  - exists k, p. split; [reflexivity|lia].
  - unfold bind. rewrite random_spec.
    destruct (IH (if Qltb (fst (Gen.next (generator p))) pr then k + 1 else k)
                 (mkFacade (snd (Gen.next (generator p))) (_spareNormal p)
                           (_hasSpareNormal p))) as (r & p' & E & R).
    exists r, p'. split; [exact E|].
    destruct (Qltb _ pr); lia.
Qed.

(** X9. [binomial(n, p)] returns an integer between 0 and [n] (0 when
    [n] is not positive). *)
Theorem X9_binomial_range (n : Z) (pr : Q) (p : Facade) :
  exists r p', PRNG.binomial n pr p = (Returns r, p') /\ 0 <= r <= Z.max n 0.
Proof.
  unfold PRNG.binomial.
  destruct (binomial_loop_range (Z.to_nat n) pr 0 p) as (r & p' & E & R).
  exists r, p'. split; [exact E|lia].
Qed.

(** ** The normal cache *)

(** X10. A call of [normal] that finds no spare and returns leaves a
    spare behind; the call of [normal(mean, stdDev)] after it returns
    [spare * stdDev + mean] without touching the generator and clears the
    flag, so that the rejection loop runs once for every two normals. *)
Theorem X10_normal_uses_spare (Math : MathLib) (fuel : nat) (m1 s1 m2 s2 : Q)
    (p p1 : Facade) (v : Q) :
  _hasSpareNormal p = false ->
  PRNG.normal Math fuel m1 s1 p = (Returns v, p1) ->
  exists spare,
    _spareNormal p1 = Some spare /\
    _hasSpareNormal p1 = true /\
    forall fuel',
      PRNG.normal Math fuel' m2 s2 p1
      = (Returns (spare * s2 + m2)%Q, mkFacade (generator p1) (Some spare) false).
Proof.
  intros H0 E. unfold PRNG.normal in E. rewrite H0 in E. unfold bind in E.
  destruct (PRNG.normal_pair fuel p) as [[[[u w] s]|msg|] p'] eqn:En; try discriminate E.
  injection E as _ <-. eexists. split; [reflexivity|]. split; [reflexivity|].
  intros fuel'. reflexivity.
Qed.

Lemma X10_normal_uses_spare_witness :
  exists spare,
    _spareNormal (snd (PRNG.normal example_Math 20 0 1
                         (mkFacade (Gen.new AMulberry32 (SeedNum 7)) None false)))
      = Some spare /\
    _hasSpareNormal (snd (PRNG.normal example_Math 20 0 1
                            (mkFacade (Gen.new AMulberry32 (SeedNum 7)) None false)))
      = true /\
    forall fuel',
      PRNG.normal example_Math fuel' 100 15
        (snd (PRNG.normal example_Math 20 0 1
                (mkFacade (Gen.new AMulberry32 (SeedNum 7)) None false)))
      = (Returns (spare * 15 + 100)%Q,
         mkFacade
           (generator (snd (PRNG.normal example_Math 20 0 1
                              (mkFacade (Gen.new AMulberry32 (SeedNum 7)) None false))))
           (Some spare) false).
Proof.
  eapply (X10_normal_uses_spare example_Math 20 0 1 100 15
            (mkFacade (Gen.new AMulberry32 (SeedNum 7)) None false)).
  - reflexivity.
  - vm_compute. reflexivity.
Defined.

(** ** Seeding *)

(** X11. [setSeed(seed)] without an algorithm keeps the algorithm of the
    current generator: it never throws, and installs the generator that the
    constructor of that same algorithm builds from [seed], with an empty
    normal cache. *)
Theorem X11_setSeed_keeps_algorithm (seed : Seed) (p : Facade) :
  PRNG.setSeed seed None p
  = (Returns tt, mkFacade (Gen.new (Gen.algorithm (generator p)) seed) None false).
Proof.
  unfold PRNG.setSeed. cbn [default]. rewrite resolve_name. reflexivity.
Qed.

Lemma toLowerCase_idempotent (s : string) :
  JS.toLowerCase (JS.toLowerCase s) = JS.toLowerCase s.
Proof.
  assert (L : forall c, JS.lower_ascii (JS.lower_ascii c) = JS.lower_ascii c).
  { intros c. destruct c as [[] [] [] [] [] [] [] []]; reflexivity. }
  induction s as [|c s IH]; simpl; [reflexivity|]. rewrite L, IH. reflexivity.
Qed.

(** X12. The key of an algorithm is matched without regard to case: a
    key and its lower-cased form select the same algorithm or are both
    unknown; and the [name] that each generator carries is itself a key of
    its algorithm, so that the calls which pass [this.generator.name] back
    to the constructor cannot fail on it. *)
Theorem X12_keys_case_insensitive (key : string) (g : Generator) :
  Gen.resolve (JS.toLowerCase key) = Gen.resolve key /\
  Gen.resolve (Gen.name g) = Some (Gen.algorithm g).
Proof.
  split; [|apply resolve_name].
  unfold Gen.resolve. rewrite toLowerCase_idempotent. reflexivity.
Qed.

(** ** The seed hashes *)

Lemma ToInt32_mod (x : Z) : JS.ToInt32 x mod JS.two32 = x mod JS.two32.
Proof.
  unfold JS.ToInt32.
  destruct (x mod JS.two32 <? JS.two31).
  - apply Z.mod_mod. unfold JS.two32. lia.
  - replace (x mod JS.two32 - JS.two32) with (x mod JS.two32 + (-1) * JS.two32) by ring.
    rewrite Z.mod_add by (unfold JS.two32; lia).
    apply Z.mod_mod. unfold JS.two32. lia.
Qed.

Lemma stringToSeed_step_mod (h g c : Z) :
  h mod JS.two32 = g mod JS.two32 ->
  stringToSeed_step h c mod JS.two32 = (31 * g + c) mod JS.two32.
Proof.
  intros E. unfold stringToSeed_step, JS.and.
  rewrite Z.land_diag, ToInt32_mod.
  unfold JS.shl. change (5 mod 32) with 5.
  rewrite Z.shiftl_mul_pow2 by lia. change (2 ^ 5) with 32.
  rewrite Zplus_mod, Zminus_mod, ToInt32_mod.
  rewrite (Zmult_mod (JS.ToInt32 h) 32), ToInt32_mod, E.
  rewrite <- Zmult_mod.
  rewrite <- Zminus_mod, <- Zplus_mod. f_equal. ring.
Qed.

Lemma stringToSeed_fold_mod (cs : list Z) :
  forall h g,
    h mod JS.two32 = g mod JS.two32 ->
    fold_left stringToSeed_step cs h mod JS.two32
    = fold_left (fun a c => 31 * a + c) cs g mod JS.two32.
Proof.
  induction cs as [|c cs IH]; intros h g E; simpl; [exact E|].
  apply IH. apply stringToSeed_step_mod. exact E.
Qed.

(** X13. [stringToSeed] is the polynomial hash with multiplier 31 over
    the code units of the string, reduced modulo [2^32]: the shift and
    subtract of the loop is a multiplication by 31, and the signed wrap of
    every round does not change the residue.  The empty string hashes
    to 0. *)
Theorem X13_stringToSeed_polynomial (str : string) :
  stringToSeed str
  = fold_left (fun a c => 31 * a + c) (JS.charCodes str) 0 mod 4294967296.
Proof.
  unfold stringToSeed.
  destruct str as [|c str]; [reflexivity|].
  cbn [String.length Nat.eqb]. unfold JS.ToUint32.
  apply stringToSeed_fold_mod. reflexivity.
Qed.

(** X14. [cyrb128] returns four words, each an unsigned 32-bit integer,
    for every string. *)
Theorem X14_cyrb128_four_words (str : string) :
  length (cyrb128 str) = 4%nat /\ Forall (fun w => 0 <= w < 4294967296) (cyrb128 str).
Proof.
  unfold cyrb128.
  destruct (fold_left cyrb128_step (JS.charCodes str) _) as [[[h1 h2] h3] h4].
  split; [reflexivity|].
  repeat constructor; apply ToUint32_range.
Qed.

(** ** Generator arithmetic *)

Lemma fl53_small (z : Z) : Z.abs z < JS.two53 -> JS.fl53 z = z.
Proof.
  intros H. unfold JS.fl53. destruct (Z.ltb_spec (Z.abs z) JS.two53); [reflexivity|lia].
Qed.

(** X15. With the default parameters and a state that is a uint32 the
    [LCG] computes the textbook recurrence exactly: the double product and
    sum stay below [2^53], so [nextInt] returns and stores
    [(1664525 * state + 1013904223) mod 2^32]. *)
Theorem X15_lcg_recurrence (seed state : Z) :
  0 <= state < 4294967296 ->
  LCG.nextInt (LCG.mk seed state 1664525 1013904223 4294967296)
  = ((1664525 * state + 1013904223) mod 4294967296,
     LCG.mk seed ((1664525 * state + 1013904223) mod 4294967296)
            1664525 1013904223 4294967296).
Proof.
  intros H. unfold LCG.nextInt; cbn [LCG.a LCG.c LCG.m LCG.state LCG.seed].
  unfold JS.add, JS.mul.
  rewrite (fl53_small (1664525 * state)) by (unfold JS.two53; lia).
  rewrite fl53_small by (unfold JS.two53; lia).
  rewrite Z.rem_mod_nonneg by lia.
  rewrite ToUint32_id; [reflexivity|].
  unfold uint32, JS.two32. apply Z.mod_pos_bound. lia.
Qed.

Lemma X15_lcg_recurrence_witness :
  LCG.nextInt (LCG.mk 42 42 1664525 1013904223 4294967296)
  = ((1664525 * 42 + 1013904223) mod 4294967296,
     LCG.mk 42 ((1664525 * 42 + 1013904223) mod 4294967296)
            1664525 1013904223 4294967296).
Proof. apply (X15_lcg_recurrence 42 42). lia. Defined.

(** X16. [PCG32._add64] adds a 64-bit value to the 64-bit state held in
    two 32-bit halves, modulo [2^64]: the carry out of the low half is
    detected by the comparison and added to the high half. *)
Theorem X16_pcg_add64 (g : PCG32.t) (lo hi : Z) :
  0 <= PCG32.stateLo g < 4294967296 ->
  0 <= PCG32.stateHi g < 4294967296 ->
  0 <= lo < 4294967296 ->
  0 <= hi < 4294967296 ->
  PCG32.stateHi (PCG32._add64 g lo hi) * 4294967296 + PCG32.stateLo (PCG32._add64 g lo hi)
  = ((PCG32.stateHi g * 4294967296 + PCG32.stateLo g) + (hi * 4294967296 + lo))
      mod 18446744073709551616.
Proof.
  intros Hl Hh Hlo Hhi.
  unfold PCG32._add64, PCG32.with_state; cbn [PCG32.stateHi PCG32.stateLo].
  unfold JS.add.
  rewrite (fl53_small (PCG32.stateLo g + lo)) by (unfold JS.two53; lia).
  rewrite (fl53_small (PCG32.stateHi g + hi)) by (unfold JS.two53; lia).
  set (sl := PCG32.stateLo g) in *. set (sh := PCG32.stateHi g) in *.
  assert (NL : JS.ToUint32 (sl + lo)
               = if sl + lo <? 4294967296 then sl + lo else sl + lo - 4294967296).
  { unfold JS.ToUint32, JS.two32. destruct (Z.ltb_spec (sl + lo) 4294967296).
    - apply Z.mod_small. lia.
    - symmetry. apply (Z.mod_unique _ _ 1); lia. }
  rewrite NL.
  assert (NH : forall k, 0 <= k <= 1 ->
               JS.ToUint32 (sh + hi + k)
               = if sh + hi + k <? 4294967296 then sh + hi + k
                 else sh + hi + k - 4294967296).
  { intros k Hk. unfold JS.ToUint32, JS.two32.
    destruct (Z.ltb_spec (sh + hi + k) 4294967296).
    - apply Z.mod_small. lia.
    - symmetry. apply (Z.mod_unique _ _ 1); lia. }
  destruct (Z.ltb_spec (sl + lo) 4294967296) as [C|C].
  - destruct (Z.ltb_spec (sl + lo) sl); [lia|].
    rewrite fl53_small by (unfold JS.two53; lia).
    rewrite NH by lia.
    destruct (Z.ltb_spec (sh + hi + 0) 4294967296) as [D|D].
    + apply (Z.mod_unique _ _ 0); lia.
    + apply (Z.mod_unique _ _ 1); lia.
  - destruct (Z.ltb_spec (sl + lo - 4294967296) sl); [|lia].
    rewrite fl53_small by (unfold JS.two53; lia).
    rewrite NH by lia.
    destruct (Z.ltb_spec (sh + hi + 1) 4294967296) as [D|D].
    + apply (Z.mod_unique _ _ 0); lia.
    + apply (Z.mod_unique _ _ 1); lia.
Qed.

Lemma X16_pcg_add64_witness :
  PCG32.stateHi (PCG32._add64 (PCG32.mk (SeedNum 0) 1 7 4294967295 0 3) 5 4294967295)
    * 4294967296
  + PCG32.stateLo (PCG32._add64 (PCG32.mk (SeedNum 0) 1 7 4294967295 0 3) 5 4294967295)
  = ((7 * 4294967296 + 4294967295) + (4294967295 * 4294967296 + 5))
      mod 18446744073709551616.
Proof.
  apply (X16_pcg_add64 (PCG32.mk (SeedNum 0) 1 7 4294967295 0 3) 5 4294967295);
    simpl; lia.
Defined.

(** ** Invariants of the instances *)

(** X17. Every state that an instance reaches from its construction (or
    from a [setSeed]) through draws and further reseedings keeps the words
    of its typed arrays and its numeric seed within 32 bits, and an [LCG]
    keeps a state that is not negative under a positive modulus. *)
Theorem X17_reachable_states_well_formed (Math : MathLib) (seed : Seed) (key : string)
    (p0 p : Facade) :
  seeded_with seed key p0 ->
  rtc (facade_step Math) p0 p ->
  typed (generator p) /\ lcg_ok (generator p).
Proof.
  intros S R.
  assert (H0 : typed (generator p0) /\ lcg_ok (generator p0)).
  { destruct (seeded_with_inv _ _ _ S) as (a & _ & ->). simpl.
    split; [apply typed_new|apply lcg_ok_new]. }
  clear S. induction R as [p|p p1 p2 St _ IH]; [exact H0|].
  apply IH. destruct H0 as [T L]. destruct St as [D|(sd & alg & E)].
  - split.
    + exact (preserves_draw_step typed typed_nextInt Math p p1 D T).
    + exact (preserves_draw_step lcg_ok lcg_ok_nextInt Math p p1 D L).
  - unfold PRNG.setSeed in E. destruct (Gen.resolve _) as [a|]; [|discriminate E].
    injection E as <-. simpl. split; [apply typed_new|apply lcg_ok_new].
Qed.

Lemma X17_reachable_states_well_formed_witness :
  typed (generator (snd (run_draws example_Math 20 [DRandom; DNormal 0 1; DInt 1 6]
                           (mkFacade (Gen.new ALCG (SeedStr "dice")) None false)))) /\
  lcg_ok (generator (snd (run_draws example_Math 20 [DRandom; DNormal 0 1; DInt 1 6]
                            (mkFacade (Gen.new ALCG (SeedStr "dice")) None false)))).
Proof.
  apply (X17_reachable_states_well_formed example_Math (SeedStr "dice") "lcg"
           (mkFacade (Gen.new ALCG (SeedStr "dice")) None false)).
  - apply seeded_new. reflexivity.
  - eapply rtc_subrel; [|apply run_draws_steps].
    intros a b H. left. exact H.
Defined.

(** ** Value noise: structure *)

Lemma and_255_mod (x : Z) : JS.and x 255 = x mod 256.
Proof.
  unfold JS.and. change (JS.ToInt32 255) with (Z.ones 8).
  rewrite Z.land_ones by lia. change (2 ^ 8) with 256.
  unfold JS.ToInt32, JS.two32, JS.two31.
  destruct (x mod 4294967296 <? 2147483648).
  - apply Z.mod_mod_divide. exists 16777216. reflexivity.
  - replace (x mod 4294967296 - 4294967296)
      with (x mod 4294967296 + (-16777216) * 256) by ring.
    rewrite Z.mod_add by lia.
    apply Z.mod_mod_divide. exists 16777216. reflexivity.
Qed.

(** The constructor of [ValueNoise] returns, and its table is the
    shuffled identity written twice. *)
Lemma value_noise_table (seed : Seed) :
  exists (vn : ValueNoise.t) (p : list Value),
    ValueNoise.new seed = Returns vn /\
    ValueNoise.permutation vn = p ++ p /\
    p ≡ₚ identity256.
Proof.
  unfold ValueNoise.new. rewrite new_xoshiro128.
  destruct (shuffle_Permutation identity256
              (mkFacade (Gen.new AXoshiro128 seed) None false) I)
    as (p & rng & E & Pm & _).
  rewrite E. eexists _, p. split; [reflexivity|]. split; [reflexivity|exact Pm].
Qed.

Lemma value_noise_table_bytes (vn : ValueNoise.t) (p : list Value) :
  ValueNoise.permutation vn = p ++ p -> p ≡ₚ identity256 ->
  (256 <= length (ValueNoise.permutation vn))%nat /\
  Forall byte_val (ValueNoise.permutation vn).
Proof.
  intros E Pm. rewrite E. split.
  - rewrite length_app, (Permutation_length Pm). vm_compute. lia.
  - assert (F : Forall byte_val p) by (rewrite Pm; apply identity256_bytes).
    apply Forall_app. split; exact F.
Qed.

(** X20. The table of a [ValueNoise] instance is a permutation of the
    integers 0 to 255 followed by a second copy of it, for every seed. *)
Theorem X20_value_noise_table (seed : Seed) :
  exists (vn : ValueNoise.t) (p : list Value),
    ValueNoise.new seed = Returns vn /\
    ValueNoise.permutation vn = p ++ p /\
    p ≡ₚ map (fun i => VNum (inject_Z (Z.of_nat i))) (seq 0 256) /\
    length (ValueNoise.permutation vn) = 512%nat.
Proof.
  destruct (value_noise_table seed) as (vn & p & E & T & Pm).
  exists vn, p. repeat split; try assumption.
  rewrite T, length_app, (Permutation_length Pm). reflexivity.
Qed.

(** X21. At an integer coordinate [noise1D] is the table value of that
    lattice point: the fade weight is 0 there and the neighbour does not
    contribute. *)
Theorem X21_value_noise_lattice (seed : Seed) (k : Z) :
  exists vn : ValueNoise.t,
    ValueNoise.new seed = Returns vn /\
    same_number (ValueNoise.noise1D vn (inject_Z k)) (ValueNoise._hash vn [k mod 256]).
Proof.
  destruct (value_noise_table seed) as (vn & p & E & T & Pm).
  destruct (value_noise_table_bytes vn p T Pm) as [TL TB].
  exists vn. split; [exact E|].
  unfold ValueNoise.noise1D. rewrite Qfloor_Z, and_255_mod.
  destruct (hash_unit vn TL TB [k mod 256]) as (a & -> & _).
  destruct (hash_unit vn TL TB [k mod 256 + 1]) as (b & -> & _).
  simpl. unfold ValueNoise._lerp, ValueNoise._fade. ring.
Qed.

(** ** Fractal sums *)

Lemma simplex_fbm_loop_1D (Math : MathLib) (sn : SimplexNoise.t) (x : Q)
    (lacunarity persistence : Q) (n : nat) :
  (0 <= persistence)%Q ->
  forall (value : option Q) (amplitude frequency maxValue : Q),
    (0 <= amplitude)%Q ->
    exists maxValue',
      SimplexNoise.fbm_loop Math sn n x None None lacunarity persistence
        (value, amplitude, frequency, maxValue) = (value, maxValue') /\
      (maxValue <= maxValue')%Q /\
      ((1 <= n)%nat -> maxValue + amplitude <= maxValue')%Q.
Proof.
  intros Hp. induction n as [|n IH]; intros v a f m Ha; simpl.
  - exists m. repeat split; try lra. intros H; lia.
  - assert (Hap : (0 <= a * persistence)%Q) by (apply Qmult_le_0_compat; assumption).
    destruct (IH v (a * persistence)%Q (f * lacunarity)%Q (m + a)%Q Hap)
      as (m' & E & G & _).
    exists m'. repeat split; try assumption; lra.
Qed.

(** X23. [fbm] of [SimplexNoise] has no one-dimensional branch: called
    with [y] and [z] both [null], at least one octave and a persistence
    that is not negative, it returns 0 at every [x]. *)
Theorem X23_simplex_fbm_1D_is_zero (Math : MathLib) (sn : SimplexNoise.t) (x : Q)
    (octaves : Z) (lacunarity persistence : Q) :
  1 <= octaves ->
  (0 <= persistence)%Q ->
  exists v,
    SimplexNoise.fbm Math sn x None None octaves lacunarity persistence = Some v /\
    (v == 0)%Q.
Proof.
  intros Ho Hp. unfold SimplexNoise.fbm.
  destruct (simplex_fbm_loop_1D Math sn x lacunarity persistence (Z.to_nat octaves) Hp
              (Some 0%Q) 1%Q 1%Q 0%Q ltac:(lra)) as (m & -> & _ & Hm).
  specialize (Hm ltac:(lia)).
  destruct (Qeq_bool m 0) eqn:Eq.
  - apply Qeq_bool_iff in Eq. lra.
  - eexists. split; [reflexivity|]. unfold Qdiv. ring.
Qed.

Lemma X23_simplex_fbm_1D_is_zero_witness :
  exists v,
    SimplexNoise.fbm example_Math (SimplexNoise.mk example_saved_instance [] [])
      (5 # 2) None None 4 2 (1 # 2) = Some v /\
    (v == 0)%Q.
Proof.
  apply (X23_simplex_fbm_1D_is_zero example_Math
           (SimplexNoise.mk example_saved_instance [] []) (5 # 2) 4 2 (1 # 2)).
  - lia.
  - discriminate.
Defined.

(** ** Special generators *)

Lemma list_ascii_append (s t : string) :
  list_ascii_of_string (String.append s t)
  = list_ascii_of_string s ++ list_ascii_of_string t.
Proof. induction s as [|c s IH]; simpl; [reflexivity|]. rewrite IH. reflexivity. Qed.

Lemma length_list_ascii (s : string) : length (list_ascii_of_string s) = String.length s.
Proof. induction s as [|c s IH]; simpl; [reflexivity|]. rewrite IH. reflexivity. Qed.

Lemma uuid_chars_ok_snoc (l : list ascii) (c : ascii) :
  forall k,
    uuid_chars_ok k (l ++ [c]) = (uuid_chars_ok k l && uuid_char_ok (k + length l) c)%bool.
Proof.
  induction l as [|d l IH]; intros k; simpl.
  - rewrite Nat.add_0_r, andb_true_r. reflexivity.
  - rewrite IH, andb_assoc.
    replace (S k + length l)%nat with (k + S (length l))%nat by lia. reflexivity.
Qed.

Lemma small_cases (k : Z) :
  0 <= k <= 15 ->
  k = 0 \/ k = 1 \/ k = 2 \/ k = 3 \/ k = 4 \/ k = 5 \/ k = 6 \/ k = 7 \/
  k = 8 \/ k = 9 \/ k = 10 \/ k = 11 \/ k = 12 \/ k = 13 \/ k = 14 \/ k = 15.
Proof. lia. Qed.

Lemma hex_digit_text (k : Z) :
  0 <= k <= 15 ->
  exists c, PRNG.index_text PRNG.hex k = String c EmptyString /\ is_hex_digit c = true.
Proof.
  intros H. pose proof (small_cases k H) as C.
  repeat destruct C as [->|C]; try subst k; eexists; split; reflexivity.
Qed.

Lemma variant_digit_text (k : Z) :
  0 <= k <= 15 ->
  exists c,
    PRNG.index_text PRNG.hex (JS.or (JS.and k 3) 8) = String c EmptyString /\
    existsb (Ascii.eqb c) (list_ascii_of_string "89ab") = true.
Proof.
  intros H. pose proof (small_cases k H) as C.
  repeat destruct C as [->|C]; try subst k; eexists; split; reflexivity.
Qed.

Lemma int_0_15 (p : Facade) :
  lcg_ok (generator p) ->
  exists k p',
    PRNG.int 0 15 p = (Returns k, p') /\ 0 <= k <= 15 /\ lcg_ok (generator p').
Proof.
  intros Hg. rewrite int_spec.
  destruct (next_unit_interval (generator p) Hg) as [H0 H1].
  eexists _, _. split; [reflexivity|]. split.
  - change (Qceiling 0) with 0. change (Qfloor 15) with 15.
    apply (int_range p 0 15 _ H0 H1). lia.
  - simpl. rewrite next_state. apply lcg_ok_nextInt. exact Hg.
Qed.

Lemma uuid_from_ok (n : nat) :
  forall (acc : string) (p : Facade),
    lcg_ok (generator p) ->
    (n + String.length acc = 36)%nat ->
    uuid_chars_ok 0 (list_ascii_of_string acc) = true ->
    exists u p',
      PRNG.uuid_from n (Z.of_nat (String.length acc)) acc p = (Returns u, p') /\
      is_uuid_v4 u.
Proof.
  induction n as [|n IH]; intros acc p Hg Hn Hok.
  - exists acc, p. split; [reflexivity|]. split; [exact Hn|exact Hok].
  - assert (Step : forall c p1,
               lcg_ok (generator p1) ->
               uuid_char_ok (String.length acc) c = true ->
               exists u p',
                 PRNG.uuid_from n (Z.of_nat (String.length acc) + 1)
                   (String.append acc (String c EmptyString)) p1 = (Returns u, p') /\
                 is_uuid_v4 u).
    { intros c p1 Hg1 Hc.
      assert (L : String.length (String.append acc (String c EmptyString))
                  = S (String.length acc)).
      { rewrite <- !length_list_ascii, list_ascii_append, length_app. simpl. lia. }
      replace (Z.of_nat (String.length acc) + 1)
        with (Z.of_nat (String.length (String.append acc (String c EmptyString))))
        by (rewrite L; lia).
      apply IH; [exact Hg1|rewrite L; lia|].
      rewrite list_ascii_append. simpl list_ascii_of_string.
      rewrite uuid_chars_ok_snoc, Hok, length_list_ascii. simpl. exact Hc. }
    assert (Hi : (String.length acc < 36)%nat) by lia.
    cbn [PRNG.uuid_from].
    set (i := String.length acc) in *.
    assert (E8 : (Z.of_nat i =? 8) = Nat.eqb i 8)
      by (destruct (Z.eqb_spec (Z.of_nat i) 8), (Nat.eqb_spec i 8); lia || reflexivity).
    assert (E13 : (Z.of_nat i =? 13) = Nat.eqb i 13)
      by (destruct (Z.eqb_spec (Z.of_nat i) 13), (Nat.eqb_spec i 13); lia || reflexivity).
    assert (E18 : (Z.of_nat i =? 18) = Nat.eqb i 18)
      by (destruct (Z.eqb_spec (Z.of_nat i) 18), (Nat.eqb_spec i 18); lia || reflexivity).
    assert (E23 : (Z.of_nat i =? 23) = Nat.eqb i 23)
      by (destruct (Z.eqb_spec (Z.of_nat i) 23), (Nat.eqb_spec i 23); lia || reflexivity).
    assert (E14 : (Z.of_nat i =? 14) = Nat.eqb i 14)
      by (destruct (Z.eqb_spec (Z.of_nat i) 14), (Nat.eqb_spec i 14); lia || reflexivity).
    assert (E19 : (Z.of_nat i =? 19) = Nat.eqb i 19)
      by (destruct (Z.eqb_spec (Z.of_nat i) 19), (Nat.eqb_spec i 19); lia || reflexivity).
    rewrite E8, E13, E18, E23, E14, E19.
    destruct (Nat.eqb i 8 || Nat.eqb i 13 || Nat.eqb i 18 || Nat.eqb i 23)%bool eqn:Dash.
    + apply Step; [exact Hg|]. unfold uuid_char_ok. rewrite Dash. reflexivity.
    + destruct (Nat.eqb i 14) eqn:V.
      * apply Step; [exact Hg|]. unfold uuid_char_ok. rewrite Dash, V. reflexivity.
      * destruct (Nat.eqb i 19) eqn:W.
        -- unfold bind. destruct (int_0_15 p Hg) as (k & p1 & -> & Hk & Hg1).
           destruct (variant_digit_text k Hk) as (c & -> & Hc).
           apply Step; [exact Hg1|]. unfold uuid_char_ok. rewrite Dash, V, W. exact Hc.
        -- unfold bind. destruct (int_0_15 p Hg) as (k & p1 & -> & Hk & Hg1).
           destruct (hex_digit_text k Hk) as (c & -> & Hc).
           apply Step; [exact Hg1|]. unfold uuid_char_ok. rewrite Dash, V, W. exact Hc.
Qed.

(** X24. [uuid()] returns a string of 36 characters in the version-4
    shape: hyphens after 8, 12, 16 and 20 digits, the version digit 4, a
    variant digit among 8, 9, a and b, and lower-case hexadecimal digits
    elsewhere. *)
Theorem X24_uuid_shape (p : Facade) :
  lcg_ok (generator p) ->
  exists u p', PRNG.uuid p = (Returns u, p') /\ is_uuid_v4 u.
Proof.
  intros Hg. unfold PRNG.uuid.
  apply (uuid_from_ok 36 EmptyString p Hg); reflexivity.
Qed.

Lemma X24_uuid_shape_witness :
  exists u p', PRNG.uuid example_saved_instance = (Returns u, p') /\ is_uuid_v4 u.
Proof. apply (X24_uuid_shape example_saved_instance). exact I. Defined.

(** X25. [colorRGB()] makes exactly three [random()] draws, one after
    the other, and leaves the instance as the third draw leaves it; the
    channels [r], [g] and [b] are, in this order, [floor(x * 256)] of the
    three numbers drawn, each between 0 and 255. *)
Theorem X25_colorRGB_channels (p : Facade) :
  lcg_ok (generator p) ->
  exists (x1 x2 x3 : Q) (p1 p2 p3 : Facade),
    PRNG.random p = (Returns x1, p1) /\
    PRNG.random p1 = (Returns x2, p2) /\
    PRNG.random p2 = (Returns x3, p3) /\
    PRNG.colorRGB p
    = (Returns (Qfloor (x1 * 256), Qfloor (x2 * 256), Qfloor (x3 * 256)), p3) /\
    0 <= Qfloor (x1 * 256) <= 255 /\
    0 <= Qfloor (x2 * 256) <= 255 /\
    0 <= Qfloor (x3 * 256) <= 255.
Proof.
  intros Hg.
  assert (step : forall q, lcg_ok (generator q) ->
            exists x q', PRNG.random q = (Returns x, q') /\
              PRNG.int 0 255 q = (Returns (Qfloor (x * 256)), q') /\
              0 <= Qfloor (x * 256) <= 255 /\ lcg_ok (generator q')).
  { intros q Hq. rewrite int_spec, random_spec.
    destruct (next_unit_interval (generator q) Hq) as [H0 H1].
    eexists _, _. split; [reflexivity|]. split; [|split].
    - change (Qceiling 0) with 0. change (Qfloor 255) with 255.
      change (inject_Z (255 - 0 + 1)) with 256%Q. rewrite Z.add_0_r. reflexivity.
    - pose proof (floor_scaled _ 256 H0 H1 ltac:(lia)) as R.
      change (inject_Z 256) with 256%Q in R. lia.
    - simpl. rewrite next_state. apply lcg_ok_nextInt. exact Hq. }
  destruct (step p Hg) as (x1 & p1 & R1 & I1 & B1 & Hg1).
  destruct (step p1 Hg1) as (x2 & p2 & R2 & I2 & B2 & Hg2).
  destruct (step p2 Hg2) as (x3 & p3 & R3 & I3 & B3 & _).
  exists x1, x2, x3, p1, p2, p3.
  split; [exact R1|]. split; [exact R2|]. split; [exact R3|].
  split; [|auto].
  unfold PRNG.colorRGB, bind. rewrite I1, I2, I3. reflexivity.
Qed.

Lemma X25_colorRGB_channels_witness :
  exists (x1 x2 x3 : Q) (p1 p2 p3 : Facade),
    PRNG.random example_saved_instance = (Returns x1, p1) /\
    PRNG.random p1 = (Returns x2, p2) /\
    PRNG.random p2 = (Returns x3, p3) /\
    PRNG.colorRGB example_saved_instance
    = (Returns (Qfloor (x1 * 256), Qfloor (x2 * 256), Qfloor (x3 * 256)), p3) /\
    0 <= Qfloor (x1 * 256) <= 255 /\
    0 <= Qfloor (x2 * 256) <= 255 /\
    0 <= Qfloor (x3 * 256) <= 255.
Proof. apply (X25_colorRGB_channels example_saved_instance). exact I. Defined.

Lemma get_list_ascii (s : string) :
  forall n, String.get n s = list_ascii_of_string s !! n.
Proof.
  induction s as [|c s IH]; intros [|n]; simpl; try reflexivity. apply IH.
Qed.

Lemma char_in_charset (charset : string) (p : Facade) :
  lcg_ok (generator p) ->
  charset <> EmptyString ->
  exists c p',
    PRNG.char charset p = (Returns (String c EmptyString), p') /\
    c ∈ list_ascii_of_string charset /\
    lcg_ok (generator p').
Proof.
  intros Hg N. unfold PRNG.char, bind. rewrite int_spec.
  destruct (next_unit_interval (generator p) Hg) as [H0 H1].
  set (x := fst (Gen.next (generator p))) in *.
  assert (Hl : (0 < String.length charset)%nat) by (destruct charset; [congruence|simpl; lia]).
  change (Qceiling 0) with 0. rewrite Qfloor_Z.
  pose proof (int_range p 0 (Z.of_nat (String.length charset) - 1) x H0 H1 ltac:(lia)) as R.
  set (k := Qfloor (x * inject_Z (Z.of_nat (String.length charset) - 1 - 0 + 1)) + 0) in *.
  unfold PRNG.index_text. destruct (Z.ltb_spec k 0); [lia|].
  rewrite get_list_ascii.
  destruct (list_ascii_of_string charset !! Z.to_nat k) as [c|] eqn:E.
  - exists c. eexists. split; [reflexivity|]. split.
    + eapply list_elem_of_lookup_2. exact E.
    + simpl. rewrite next_state. apply lcg_ok_nextInt. exact Hg.
  - apply lookup_ge_None_1 in E. rewrite length_list_ascii in E. lia.
Qed.

Lemma string_loop_ok (charset : string) (n : nat) :
  charset <> EmptyString ->
  forall (acc : string) (p : Facade),
    lcg_ok (generator p) ->
    Forall (fun c => c ∈ list_ascii_of_string charset) (list_ascii_of_string acc) ->
    exists out p',
      PRNG.string_loop n charset acc p = (Returns out, p') /\
      String.length out = (String.length acc + n)%nat /\
      Forall (fun c => c ∈ list_ascii_of_string charset) (list_ascii_of_string out).
Proof.
  intros N. induction n as [|n IH]; intros acc p Hg F; simpl.
  - exists acc, p. split; [reflexivity|]. split; [lia|exact F].
  - unfold bind. destruct (char_in_charset charset p Hg N) as (c & p1 & -> & Hc & Hg1).
    destruct (IH (String.append acc (String c EmptyString)) p1 Hg1) as (out & p' & E & L & F').
    + rewrite list_ascii_append. apply Forall_app. split; [exact F|].
      simpl. constructor; [exact Hc|constructor].
    + exists out, p'. split; [exact E|]. split; [|exact F'].
      rewrite L. rewrite <- !length_list_ascii, list_ascii_append, length_app. simpl. lia.
Qed.

(** X26. [string(length, charset)] over a charset that is not empty
    returns a string of [length] characters (none when [length] is not
    positive), each taken from the charset. *)
Theorem X26_string_from_charset (length : Z) (charset : string) (p : Facade) :
  lcg_ok (generator p) ->
  charset <> EmptyString ->
  exists out p',
    PRNG.string length charset p = (Returns out, p') /\
    Z.of_nat (String.length out) = Z.max length 0 /\
    Forall (fun c => c ∈ list_ascii_of_string charset) (list_ascii_of_string out).
Proof.
  intros Hg N. unfold PRNG.string.
  destruct (string_loop_ok charset (Z.to_nat length) N EmptyString p Hg (Forall_nil_2 _))
    as (out & p' & E & L & F).
  exists out, p'. split; [exact E|]. split; [|exact F].
  rewrite L. simpl. lia.
Qed.

Lemma X26_string_from_charset_witness :
  exists out p',
    PRNG.string 16 "abc" example_saved_instance = (Returns out, p') /\
    Z.of_nat (String.length out) = Z.max 16 0 /\
    Forall (fun c => c ∈ list_ascii_of_string "abc") (list_ascii_of_string out).
Proof.
  apply (X26_string_from_charset 16 "abc" example_saved_instance); [exact I|discriminate].
Defined.

(** X27. [char] of the empty charset still makes its draw and reads
    index 0 of the empty string, so that the text it contributes to
    [string] is that of [undefined]. *)
Theorem X27_char_of_empty_charset (p : Facade) :
  PRNG.char EmptyString p = (Returns "undefined"%string, snd (PRNG.random p)).
Proof.
  unfold PRNG.char, bind. rewrite int_spec, random_spec. cbn [snd String.length].
  change (Qfloor (inject_Z (Z.of_nat 0 - 1)) - Qceiling 0 + 1) with 0.
  assert (E : Qfloor (fst (Gen.next (generator p)) * inject_Z 0) = 0).
  { rewrite (Qfloor_comp _ 0%Q); [reflexivity|]. ring. }
  rewrite E. reflexivity.
Qed.

(** ** Simplex tables *)

Lemma Qtrunc_Z (z : Z) : Qtrunc (inject_Z z) = z.
Proof. unfold Qtrunc. destruct (Qle_bool 0 (inject_Z z)); [apply Qfloor_Z|apply Qceiling_Z]. Qed.

Lemma build_perm_lookup (p : list Value) (i : nat) :
  (i < 512)%nat ->
  SimplexNoise.build_perm p !! i
  = Some (SimplexNoise.ToUint8 (arr_get p (Z.of_nat i mod 256))).
Proof.
  intros H. unfold SimplexNoise.build_perm.
  rewrite list_lookup_fmap, lookup_seq_lt by exact H. simpl.
  rewrite and_255_mod. reflexivity.
Qed.

Lemma map_lookup_all {A B} (g : A -> B) (d : A) (l : list A) :
  map (fun i => g (default d (l !! i))) (seq 0 (length l)) = map g l.
Proof.
  induction l as [|a l IH] using rev_ind; [reflexivity|].
  rewrite length_app; simpl. rewrite Nat.add_1_r, seq_S, !map_app; simpl.
  rewrite list_lookup_middle by reflexivity. simpl. f_equal.
  rewrite <- IH. apply map_ext_in. intros i Hi. apply in_seq in Hi.
  rewrite lookup_app_l by lia. reflexivity.
Qed.

(** X28. The table [perm] of a [SimplexNoise] instance holds a
    permutation of the integers 0 to 255 in its first half and the same
    values again in its second half, and [permMod12] holds the remainders
    modulo 12 of [perm], entry by entry. *)
Theorem X28_simplex_tables (seed : Seed) :
  exists sn : SimplexNoise.t,
    SimplexNoise.new seed = Returns sn /\
    take 256 (SimplexNoise.perm sn) ≡ₚ map Z.of_nat (seq 0 256) /\
    (forall i, (i < 256)%nat ->
               SimplexNoise.perm sn !! (i + 256)%nat = SimplexNoise.perm sn !! i) /\
    (forall i v, SimplexNoise.perm sn !! i = Some v ->
                 SimplexNoise.permMod12 sn !! i = Some (v mod 12)).
Proof.
  unfold SimplexNoise.new. rewrite new_xoshiro128.
  destruct (shuffle_Permutation identity256
              (mkFacade (Gen.new AXoshiro128 seed) None false) I)
    as (p & rng & E & Pm & _).
  rewrite E. eexists. split; [reflexivity|]. cbn [SimplexNoise.perm SimplexNoise.permMod12].
  assert (Lp : length p = 256%nat) by (rewrite (Permutation_length Pm); reflexivity).
  split; [|split].
  - assert (T : take 256 (SimplexNoise.build_perm p) = map SimplexNoise.ToUint8 p).
    { rewrite <- (map_lookup_all SimplexNoise.ToUint8 VUndefined p), Lp.
      apply list_eq. intros i.
      destruct (decide (i < 256)%nat) as [Hi|Hi].
      - rewrite lookup_take_lt by exact Hi.
        rewrite build_perm_lookup by lia.
        change (map ?f ?l) with (f <$> l).
        rewrite list_lookup_fmap, lookup_seq_lt by exact Hi. simpl.
        rewrite Z.mod_small by lia. unfold arr_get.
        destruct (Z.ltb_spec (Z.of_nat i) 0); [lia|]. rewrite Nat2Z.id. reflexivity.
      - rewrite lookup_take_ge by lia. symmetry. apply lookup_ge_None_2.
        rewrite length_map, length_seq. lia. }
    rewrite T. rewrite Pm. vm_compute. reflexivity.
  - intros i Hi. rewrite !build_perm_lookup by lia.
    replace (Z.of_nat (i + 256) mod 256) with (Z.of_nat i mod 256); [reflexivity|].
    rewrite Nat2Z.inj_add. change (Z.of_nat 256) with (1 * 256).
    symmetry. apply Z.mod_add. lia.
  - intros i v Hv. unfold SimplexNoise.build_permMod12.
    assert (Hi : (i < 512)%nat).
    { apply lookup_lt_Some in Hv. destruct (build_perm_bytes p) as [L _]. lia. }
    change (map ?f ?l) with (f <$> l).
    rewrite list_lookup_fmap, lookup_seq_lt by exact Hi. simpl. rewrite Hv. simpl.
    f_equal. apply Z.rem_mod_nonneg; [|lia].
    destruct (build_perm_bytes p) as [_ F]. rewrite Forall_lookup in F.
    apply (F _ _ Hv).
Qed.

(** ** The other drawing methods *)

Lemma weightedPick_keys_scan_elem (items : list string) (weights : list Q) (k : nat) :
  forall (i : Z) (x : Q),
    items <> [] -> 0 <= i -> i + Z.of_nat k = Z.of_nat (length items) ->
    exists key, PRNG.weightedPick_keys_scan k i items weights x = Some key /\ key ∈ items.
Proof.
  induction k as [|k IH]; intros i x N Hi Hk; simpl.
  - destruct (Z.ltb_spec (Z.of_nat (length items) - 1) 0) as [H|H].
    + destruct items; [congruence|]. simpl length in H. lia.
    + destruct (lookup_lt_is_Some_2 items (Z.to_nat (Z.of_nat (length items) - 1))
                  ltac:(lia)) as [key E].
      exists key. split; [exact E|]. eapply list_elem_of_lookup_2. exact E.
  - destruct (Qle_bool _ 0).
    + destruct (lookup_lt_is_Some_2 items (Z.to_nat i) ltac:(lia)) as [key E].
      exists key. split; [exact E|]. eapply list_elem_of_lookup_2. exact E.
    + apply IH; [exact N|lia|lia].
Qed.

(** X29. [weightedPickObject(obj)] makes one draw; on an object without
    properties it returns [undefined], on any other object one of its
    keys, whatever the weights are. *)
Theorem X29_weightedPickObject_returns_key (weightedItems : list (string * Q))
    (p : Facade) :
  (weightedItems = [] ->
   PRNG.weightedPickObject weightedItems p = (Returns None, snd (PRNG.random p))) /\
  (weightedItems <> [] ->
   exists key,
     PRNG.weightedPickObject weightedItems p = (Returns (Some key), snd (PRNG.random p)) /\
     key ∈ map fst weightedItems).
Proof.
  split.
  - intros ->. unfold PRNG.weightedPickObject, PRNG.weightedPick_keys, bind; simpl.
    rewrite random_spec. reflexivity.
  - intros N. unfold PRNG.weightedPickObject, PRNG.weightedPick_keys.
    rewrite !length_map, Nat.eqb_refl. cbn [negb].
    unfold bind. rewrite random_spec. cbn [snd].
    destruct (weightedPick_keys_scan_elem (map fst weightedItems) (map snd weightedItems)
                (length weightedItems) 0
                (fst (Gen.next (generator p))
                 * fold_left Qplus (map snd weightedItems) 0)%Q)
      as (key & E & Hk).
    + destruct weightedItems; [congruence|discriminate].
    + lia.
    + rewrite length_map. lia.
    + exists key. rewrite E. auto.
Qed.

Lemma X29_weightedPickObject_returns_key_witness :
  exists key,
    PRNG.weightedPickObject [("common"%string, 70%Q); ("rare"%string, 30%Q)]
      example_saved_instance
    = (Returns (Some key), snd (PRNG.random example_saved_instance)) /\
    key ∈ map fst [("common"%string, 70%Q); ("rare"%string, 30%Q)].
Proof.
  apply (X29_weightedPickObject_returns_key _ example_saved_instance). discriminate.
Defined.

(** One [int(0, k - 1)] draw for a positive integer [k] *)
Lemma int_below (k : Z) (q : Facade) :
  0 < k -> lcg_ok (generator q) ->
  exists x q',
    PRNG.random q = (Returns x, q') /\
    PRNG.int 0 (inject_Z (k - 1)) q = (Returns (Qfloor (x * inject_Z k)), q') /\
    0 <= Qfloor (x * inject_Z k) <= k - 1 /\ lcg_ok (generator q').
Proof.
  intros Hk Hq. rewrite int_spec, random_spec.
  destruct (next_unit_interval (generator q) Hq) as [H0 H1].
  eexists _, _. split; [reflexivity|]. split; [|split].
  - change (Qceiling 0) with 0. rewrite Qfloor_Z, Z.add_0_r, Z.sub_0_r.
    replace (k - 1 + 1) with k by lia. reflexivity.
  - apply (floor_scaled _ k H0 H1 Hk).
  - simpl. rewrite next_state. apply lcg_ok_nextInt. exact Hq.
Qed.

(** X30. [colorHSL(s, l)] with both arguments given makes one draw, for
    the hue, an integer between 0 and 360, and returns the arguments as
    they are; [colorHSL()] makes three draws, one after the other, for a
    hue between 0 and 360 and a saturation and a lightness between 0 and
    100, each [floor(x * 361)] or [floor(x * 101)] of the number drawn. *)
Theorem X30_colorHSL (saturation lightness : Q) (p : Facade) :
  lcg_ok (generator p) ->
  (exists (x : Q) (p1 : Facade),
      PRNG.random p = (Returns x, p1) /\
      PRNG.colorHSL (Some saturation) (Some lightness) p
      = (Returns (Qfloor (x * 361), saturation, lightness), p1) /\
      0 <= Qfloor (x * 361) <= 360) /\
  (exists (x1 x2 x3 : Q) (p1 p2 p3 : Facade),
      PRNG.random p = (Returns x1, p1) /\
      PRNG.random p1 = (Returns x2, p2) /\
      PRNG.random p2 = (Returns x3, p3) /\
      PRNG.colorHSL None None p
      = (Returns (Qfloor (x1 * 361), inject_Z (Qfloor (x2 * 101)),
                  inject_Z (Qfloor (x3 * 101))), p3) /\
      0 <= Qfloor (x1 * 361) <= 360 /\
      0 <= Qfloor (x2 * 101) <= 100 /\
      0 <= Qfloor (x3 * 101) <= 100).
Proof.
  intros Hg.
  destruct (int_below 361 p ltac:(lia) Hg) as (x1 & p1 & R1 & I1 & B1 & Hg1).
  destruct (int_below 101 p1 ltac:(lia) Hg1) as (x2 & p2 & R2 & I2 & B2 & Hg2).
  destruct (int_below 101 p2 ltac:(lia) Hg2) as (x3 & p3 & R3 & I3 & B3 & _).
  change (inject_Z (361 - 1)) with 360%Q in I1.
  change (inject_Z (101 - 1)) with 100%Q in I2, I3.
  change (inject_Z 361) with 361%Q in *.
  change (inject_Z 101) with 101%Q in *.
  split.
  - exists x1, p1. split; [exact R1|]. split; [|lia].
    unfold PRNG.colorHSL, bind. rewrite I1. reflexivity.
  - exists x1, x2, x3, p1, p2, p3.
    split; [exact R1|]. split; [exact R2|]. split; [exact R3|].
    split; [|lia].
    unfold PRNG.colorHSL, bind. rewrite I1, I2. simpl. rewrite I3. reflexivity.
Qed.

Lemma X30_colorHSL_witness :
  (exists (x : Q) (p1 : Facade),
      PRNG.random example_saved_instance = (Returns x, p1) /\
      PRNG.colorHSL (Some 70%Q) (Some 50%Q) example_saved_instance
      = (Returns (Qfloor (x * 361), 70%Q, 50%Q), p1) /\
      0 <= Qfloor (x * 361) <= 360) /\
  (exists (x1 x2 x3 : Q) (p1 p2 p3 : Facade),
      PRNG.random example_saved_instance = (Returns x1, p1) /\
      PRNG.random p1 = (Returns x2, p2) /\
      PRNG.random p2 = (Returns x3, p3) /\
      PRNG.colorHSL None None example_saved_instance
      = (Returns (Qfloor (x1 * 361), inject_Z (Qfloor (x2 * 101)),
                  inject_Z (Qfloor (x3 * 101))), p3) /\
      0 <= Qfloor (x1 * 361) <= 360 /\
      0 <= Qfloor (x2 * 101) <= 100 /\
      0 <= Qfloor (x3 * 101) <= 100).
Proof. apply (X30_colorHSL 70 50 example_saved_instance). exact I. Defined.

Lemma array_from_randoms (n : nat) :
  forall p : Facade,
    lcg_ok (generator p) ->
    exists xs,
      PRNG.array_from n PRNG.random p
      = (Returns xs, Nat.iter n (fun q => snd (PRNG.random q)) p) /\
      length xs = n /\
      Forall (fun x => (0 <= x)%Q /\ (x < 1)%Q) xs.
Proof.
  induction n as [|n IH]; intros p Hg.
  - exists []. simpl. auto.
  - rewrite Nat.iter_succ_r. cbn [PRNG.array_from]. unfold bind at 1.
    rewrite random_spec. cbn [snd].
    destruct (next_unit_interval (generator p) Hg) as [H0 H1].
    destruct (IH (mkFacade (snd (Gen.next (generator p))) (_spareNormal p)
                           (_hasSpareNormal p))) as (xs & E & L & F).
    { simpl. rewrite next_state. apply lcg_ok_nextInt. exact Hg. }
    unfold bind. rewrite E. eexists. split; [reflexivity|].
    split; [simpl; congruence|]. constructor; [split; assumption|exact F].
Qed.

(** X31. [array(length)] with the default callback and a [length] of at
    most [2^32 - 1] calls [random()] once for every index, in order: it
    returns [length] numbers of [[0, 1)] (none for a negative [length]) and
    leaves the instance as that many draws leave it. *)
Theorem X31_array_of_randoms (length : Z) (p : Facade) :
  lcg_ok (generator p) ->
  length <= 4294967295 ->
  exists xs : list Q,
    PRNG.array length PRNG.random p
    = (Returns xs, Nat.iter (Z.to_nat length) (fun q => snd (PRNG.random q)) p) /\
    Z.of_nat (List.length xs) = Z.max 0 length /\
    Forall (fun x => (0 <= x)%Q /\ (x < 1)%Q) xs.
Proof.
  intros Hg Hl. unfold PRNG.array.
  destruct (Z.ltb_spec 4294967295 length) as [H|_]; [lia|].
  destruct (array_from_randoms (Z.to_nat length) p Hg) as (xs & E & L & F).
  exists xs. split; [exact E|]. split; [lia|exact F].
Qed.

Lemma X31_array_of_randoms_witness :
  exists xs : list Q,
    PRNG.array 5 PRNG.random example_saved_instance
    = (Returns xs, Nat.iter (Z.to_nat 5) (fun q => snd (PRNG.random q))
                     example_saved_instance) /\
    Z.of_nat (List.length xs) = Z.max 0 5 /\
    Forall (fun x => (0 <= x)%Q /\ (x < 1)%Q) xs.
Proof.
  apply (X31_array_of_randoms 5 example_saved_instance); [exact I|lia].
Defined.
